(** * Administration API of the virtual file system (VFS)

    A shallow embedding of the VFS administration handlers ([get_vfs],
    [move_vfs], [set_vfs], [add_vfs], [del_vfs], [get_ls]) together with
    their helpers [pickProps] and [simplifyName].

    JavaScript objects are finite maps from property names to values, the
    tree of [VfsNode] objects is a store of nodes addressed by reference
    (so that identity comparisons such as [fromNode === vfs],
    [_.pull(children, fromNode)] and [children.indexOf(node)] keep their
    meaning), and every handler is a function from the store to an outcome
    and the store it leaves behind. *)

From stdpp Require Import gmap strings list fin_maps pretty.
From Stdlib Require Import ZArith Ascii Lia.

Open Scope string_scope.
Open Scope Z_scope.

(** ** JavaScript values and objects *)

(** References to heap objects (nodes, arrays, nested objects). *)
Definition loc := nat.

(** The values a property can hold.  Objects and arrays are held by
    reference, and [===] compares references. *)
Inductive value :=
  | VUndefined
  | VNull
  | VBool (b : bool)
  | VNum (n : Z)
  | VStr (s : string)
  | VObj (r : loc).

#[global] Instance value_eq_dec : EqDecision value.
Proof. solve_decision. Defined.

(** A plain object: own enumerable properties. *)
Abbreviation Obj := (gmap string value).

(** [o[k]]: reading a property that is not there gives [undefined]. *)
Definition get (o : Obj) (k : string) : value := default VUndefined (o !! k).

(** Truthiness of a value, as used by [if (v)], [!v], [a && b]. *)
Definition truthy (v : value) : bool :=
  match v with
  | VUndefined | VNull => false
  | VBool b => b
  | VNum n => negb (n =? 0)
  | VStr s => negb (String.eqb s "")
  | VObj _ => true
  end.

(** [typeof v === 'object']. *)
Definition typeof_object (v : value) : bool :=
  match v with
  | VNull | VObj _ => true
  | _ => false
  end.

(** An optional string parameter of a request ([undefined] when absent). *)
Definition of_param (p : option string) : value :=
  match p with
  | Some s => VStr s
  | None => VUndefined
  end.

Definition truthy_param (p : option string) : bool := truthy (of_param p).

(** ** Path functions of the platform library ([path], POSIX flavour) *)

Module Path.

Definition slash : ascii := "/"%char.
Definition dot : ascii := "."%char.

Definition is_slash (c : ascii) : bool := Ascii.eqb c slash.

Fixpoint drop_while (p : ascii → bool) (l : list ascii) : list ascii :=
  match l with
  | [] => []
  | c :: l' => if p c then drop_while p l' else l
  end.

Fixpoint take_while (p : ascii → bool) (l : list ascii) : list ascii :=
  match l with
  | [] => []
  | c :: l' => if p c then c :: take_while p l' else []
  end.

(** The last portion of a path, trailing separators ignored, reversed:
    the scan of [basename] and [extname] runs from the end of the
    string. *)
Definition last_part_rev (path : string) : list ascii :=
  take_while (λ c, negb (is_slash c))
    (drop_while is_slash (reverse (String.list_ascii_of_string path))).

(** [path.basename(p)]. *)
Definition basename (path : string) : string :=
  String.string_of_list_ascii (reverse (last_part_rev path)).

(** [path.extname(p)]: from the last dot of the last portion to its end;
    empty when there is no dot, when the only dot opens the portion, and
    for the portion [".."]. *)
Definition extname (path : string) : string :=
  let part := last_part_rev path in
  let ext_rev := take_while (λ c, negb (Ascii.eqb c dot)) part in
  let from_dot := drop_while (λ c, negb (Ascii.eqb c dot)) part in
  match from_dot with
  | [] => ""                          (* no dot at all *)
  | _ :: [] => ""                     (* the dot opens the portion *)
  | _ :: _ :: _ =>
      if bool_decide (part = [dot; dot]) then ""
      else String.string_of_list_ascii (reverse (ext_rev ++ [dot]))
  end.

(** [path.dirname(p)].  The scan runs from the end down to index 1:
    trailing separators are skipped, then the last portion, and the
    result is what comes before the separator that ends the scan. *)
Definition dirname (path : string) : string :=
  match String.list_ascii_of_string path with
  | [] => "."
  | c0 :: rest =>
      let hasRoot := is_slash c0 in
      (* [rest] reversed: indices length-1 down to 1 *)
      let r := drop_while is_slash (reverse rest) in
      match r with
      | [] => if hasRoot then "/" else "."   (* only trailing separators *)
      | _ =>
          match drop_while (λ c, negb (is_slash c)) r with
          | [] => if hasRoot then "/" else "."  (* no separator found *)
          | _ :: before_rev =>
              (* the separator sits at index [S (length before_rev)] *)
              if hasRoot && bool_decide (before_rev = []) then "//"
              else String.string_of_list_ascii (c0 :: reverse before_rev)
          end
      end
  end.

End Path.

(** [s.slice(0, -k)] for [k > 0]: the string without its last [k]
    characters. *)
Definition slice_off_end (s : string) (k : nat) : string :=
  String.string_of_list_ascii
    (take (List.length (String.list_ascii_of_string s) - k)%nat (String.list_ascii_of_string s)).

(** ** Nodes and the tree *)

(** A [VfsNode] of the persisted tree.  [props] holds the properties other
    than [children] ([name], [source], [masks], [default], [accept] and the
    permission fields); [children] is the [children] field, [None] when the
    field is absent and otherwise the references of the child nodes, in
    order. *)
Record VfsNode := mkNode {
  props : Obj;
  children : option (list loc)
}.

(** The tree: every node object, by reference. *)
Abbreviation Store := (gmap loc VfsNode).

(** The root node, [vfs]. *)
Definition vfs : loc := 0%nat.

Definition empty_node : VfsNode := mkNode ∅ None.

Definition node_at (s : Store) (l : loc) : VfsNode := default empty_node (s !! l).

(** [node.children || []], for read-only use. *)
Definition children_list (n : VfsNode) : list loc := default [] (children n).

Definition set_props (l : loc) (p : Obj) (s : Store) : Store :=
  <[l := mkNode p (children (node_at s l))]> s.

Definition set_children (l : loc) (c : option (list loc)) (s : Store) : Store :=
  <[l := mkNode (props (node_at s l)) c]> s.

(** Modelled from the spec: the status constants of module [const], which
    is not under src/.  The spec names the error kinds (bad-request,
    not-found, not-acceptable, conflict, internal-error); the numbers are
    the HTTP status codes the identifiers stand for. *)
Definition HTTP_BAD_REQUEST : Z := 400.
Definition HTTP_NOT_FOUND : Z := 404.
Definition HTTP_NOT_ACCEPTABLE : Z := 406.
Definition HTTP_CONFLICT : Z := 409.
Definition HTTP_SERVER_ERROR : Z := 500.

Record ApiError := mkApiError {
  status : Z;
  message : option string
}.

#[global] Instance ApiError_eq_dec : EqDecision ApiError.
Proof. solve_decision. Defined.

(** What a handler call ends with: a returned value, a returned [ApiError],
    or an exception thrown on the way (a property read on [undefined]). *)
Inductive outcome (A : Type) :=
  | Returned (a : A)
  | Failed (e : ApiError)
  | Thrown.
Arguments Returned {A} a.
Arguments Failed {A} e.
Arguments Thrown {A}.

Definition is_returned {A} (o : outcome A) : bool :=
  match o with Returned _ => true | _ => false end.

(** ** The node namer *)

(** Modelled from the spec: [getNodeName] of module [vfs], which is not
    under src/: the node's [name] if set and non-empty, otherwise the base
    name of its [source] (the empty string when there is no source either,
    as for the root).  [name] and [source] are strings when set, as the
    [VfsNode] type declares them. *)
Definition getNodeName (n : Obj) : string :=
  match n !! "name" with
  | Some (VStr (String c r)) => String c r
  | _ =>
      match n !! "source" with
      | Some (VStr src) => Path.basename src
      | _ => ""
      end
  end.

(** Modelled from the spec: [isSameFilenameAs] of module [vfs], which is
    not under src/: the predicate "this node is named [name]" used to find
    a same-named sibling. *)
Definition isSameFilenameAs (name : string) (other : Obj) : bool :=
  bool_decide (name = getNodeName other).

(** [simplifyName]: the explicit name is dropped when the node without it
    is named the same.
    <<
    const { name, ...noName } = node
    if (getNodeName(noName) === name)
        delete node.name
    >> *)
Definition simplifyName (node : Obj) : Obj :=
  let name := get node "name" in
  let noName := delete "name" node in
  if decide (VStr (getNodeName noName) = name) then delete "name" node
  else node.

(** [pickProps]: only the listed keys are kept, and [null] and the empty
    string are turned into [undefined].
    <<
    for (const k of keys)
        if (k in o)
            ret[k] = o[k] === null || o[k] === '' ? undefined : o[k]
    >>
    The payload is [None] when it is not an object. *)
Definition clean (v : value) : value :=
  if decide (v = VNull) then VUndefined
  else if decide (v = VStr "") then VUndefined
  else v.

Definition pickProps (o : option Obj) (keys : list string) : Obj :=
  match o with
  | None => ∅
  | Some o =>
      foldl (λ ret k,
               match o !! k with
               | Some v => <[k := clean v]> ret
               | None => ret
               end) ∅ keys
  end.

(** ** Resolution of a URI *)

(** A resolved node is the persisted node itself or a materialized wrapper
    ([isTemp]) that carries the persisted node as [original]. *)
Inductive resolved :=
  | Direct (l : loc)
  | Materialized (original : option loc).

Fixpoint segments_go (acc : string) (s : string) : list string :=
  match s with
  | EmptyString => if decide (acc = "") then [] else [acc]
  | String c s' =>
      if Path.is_slash c then
        (if decide (acc = "") then segments_go "" s' else acc :: segments_go "" s')
      else segments_go (acc +:+ String c "") s'
  end.

(** The segments of a virtual path. *)
Definition segments (uri : string) : list string := segments_go "" uri.

Definition find_child (s : Store) (parent : loc) (name : string) : option loc :=
  List.find (λ c, isSameFilenameAs name (props (node_at s c)))
            (children_list (node_at s parent)).

Fixpoint walk (s : Store) (cur : loc) (segs : list string) : option loc :=
  match segs with
  | [] => Some cur
  | seg :: rest =>
      match find_child s cur seg with
      | Some c => walk s c rest
      | None => None
      end
  end.

(** Modelled from the spec: [urlToNode] of module [vfs], which is not under
    src/: the path is split into segments and walked from the root, each
    segment matched against the effective name of a child; a step gives a
    materialized node whose [original] is the node found; a path without
    segments gives the root itself, never materialized; a segment that
    matches no child gives nothing. *)
Definition urlToNode (s : Store) (uri : string) : option resolved :=
  match segments uri with
  | [] => Some (Direct vfs)
  | segs => (λ l, Materialized (Some l)) <$> walk s vfs segs
  end.

(** [urlToNodeOriginal]: to manipulate the tree the original node is
    needed.
    <<
    const n = await urlToNode(uri)
    return n?.isTemp ? n.original : n
    >> *)
Definition urlToNodeOriginal (s : Store) (uri : string) : option loc :=
  match urlToNode s uri with
  | None => None
  | Some (Materialized original) => original
  | Some (Direct l) => Some l
  end.

(** ** Array operations used by the handlers *)

(** [_.pull(array, x)]: every element identical to [x] is removed, the
    others keep their order. *)
Definition pull (x : loc) (l : list loc) : list loc := filter (λ y, y ≠ x) l.

(** [array.indexOf(x)]: the first index holding [x], or [-1]. *)
Fixpoint indexOf (x : loc) (l : list loc) : Z :=
  match l with
  | [] => -1
  | y :: l' =>
      if decide (y = x) then 0
      else let i := indexOf x l' in if i <? 0 then -1 else i + 1
  end.

(** [array.splice(start, deleteCount)]: a negative [start] counts from the
    end, and both numbers are clamped to the array. *)
Definition splice (start deleteCount : Z) (l : list loc) : list loc :=
  let len := Z.of_nat (length l) in
  let actualStart := if start <? 0 then Z.max (len + start) 0 else Z.min start len in
  let actualDeleteCount := Z.min (Z.max deleteCount 0) (len - actualStart) in
  take (Z.to_nat actualStart) l ++ drop (Z.to_nat (actualStart + actualDeleteCount)) l.

(** [array.find(pred)] on the children of a node, used as a condition: is
    there a child whose properties satisfy [pred]? *)
Definition has_child (s : Store) (parent : loc) (pred : Obj → bool) : bool :=
  existsb (λ x, pred (props (node_at s x))) (children_list (node_at s parent)).

(** ** The tree mutator *)

(** [move_vfs({ from, parent })].  Persisting the tree ([saveVfs]) does not
    change it and is left out. *)
Definition move_vfs (from parent : option string) (s : Store) : outcome unit * Store :=
  if negb (truthy_param from) || negb (truthy_param parent) then
    (Failed (mkApiError HTTP_BAD_REQUEST None), s)
  else
    let from := default "" from in
    let parent := default "" parent in
    match urlToNodeOriginal s from with
    | None => (Failed (mkApiError HTTP_NOT_FOUND (Some "from not found")), s)
    | Some fromNode =>
        if decide (fromNode = vfs) then
          (Failed (mkApiError HTTP_BAD_REQUEST (Some "from is root")), s)
        else
          match urlToNodeOriginal s parent with
          | None => (Failed (mkApiError HTTP_NOT_FOUND (Some "parent not found")), s)
          | Some parentNode =>
              let name := getNodeName (props (node_at s fromNode)) in
              if has_child s parentNode (λ x, bool_decide (name = getNodeName x)) then
                (Failed (mkApiError HTTP_CONFLICT
                           (Some "item with same name already present in destination")), s)
              else
                match urlToNodeOriginal s (Path.dirname from) with
                | None => (Thrown, s)    (* oldParent!.children on undefined *)
                | Some oldParent =>
                    (* _.pull(oldParent!.children!, fromNode) *)
                    let s1 := set_children oldParent
                                (pull fromNode <$> children (node_at s oldParent)) s in
                    (* if (_.isEmpty(oldParent!.children)) delete oldParent!.children *)
                    let s2 := if bool_decide (children_list (node_at s1 oldParent) = [])
                              then set_children oldParent None s1 else s1 in
                    (* (parentNode.children ||= []).push(fromNode) *)
                    let s3 := set_children parentNode
                                (Some (children_list (node_at s2 parentNode) ++ [fromNode])%list) s2 in
                    (Returned (), s3)
                end
          end
    end.

(** <<
    if (props.masks && typeof props.masks !== 'object')
        delete props.masks
    >> *)
Definition drop_bad_masks (props0 : Obj) : Obj :=
  if truthy (get props0 "masks") && negb (typeof_object (get props0 "masks"))
  then delete "masks" props0 else props0.

Section SetVfs.

(** The recognized permission keys, [PERM_KEYS] of module [misc], which is
    not under src/. *)
Variable PERM_KEYS : list string.

Definition set_vfs_keys : list string :=
  (["name"; "source"; "masks"; "default"; "accept"] ++ PERM_KEYS)%list.

(** [set_vfs({ uri, props })]; it returns the node it changed. *)
Definition set_vfs (uri : string) (payload : option Obj) (s : Store) : outcome loc * Store :=
  match urlToNodeOriginal s uri with
  | None => (Failed (mkApiError HTTP_NOT_FOUND (Some "path not found")), s)
  | Some n =>
      let props0 := pickProps payload set_vfs_keys in   (* sanitize *)
      let conflict :=
        if truthy (get props0 "name")
           && negb (bool_decide (get props0 "name" = VStr (getNodeName (props (node_at s n)))))
        then
          match urlToNodeOriginal s (Path.dirname uri) with
          | Some parent =>
              has_child s parent (λ x, bool_decide (VStr (getNodeName x) = get props0 "name"))
          | None => false
          end
        else false in
      if conflict then
        (Failed (mkApiError HTTP_CONFLICT (Some "name already present")), s)
      else
        let props1 := drop_bad_masks props0 in
        (* Object.assign(n, props) *)
        let assigned := props1 ∪ props (node_at s n) in
        (Returned n, set_props n (simplifyName assigned) s)
  end.

End SetVfs.

Definition is_letter (c : ascii) : bool :=
  let n := nat_of_ascii c in
  ((65 <=? n) && (n <=? 90) || (97 <=? n) && (n <=? 122))%nat.

(** Modelled from the spec: [isWindowsDrive] of module [misc], which is
    not under src/: a Windows drive-letter source, a letter and a
    colon. *)
Definition isWindowsDrive (source : option string) : bool :=
  match source with
  | Some (String c (String ":" EmptyString)) => is_letter c
  | _ => false
  end.

(** Modelled from the spec: [enforceFinal] of module [misc], which is not
    under src/: the string, ended by the given separator if it is not
    already. *)
Definition enforceFinal (sub s : string) : string :=
  if bool_decide (String.substring (String.length s - String.length sub)
                    (String.length sub) s = sub)
     && (String.length sub <=? String.length s)%nat
  then s else s +:+ sub.

(** [`${noExt} ${idx}${ext}`]: the name with a number put before the
    extension. *)
Definition candidate (noExt ext : string) (idx : nat) : string :=
  noExt +:+ " " +:+ pretty idx +:+ ext.

(** [ext ? name.slice(0, -ext.length) : name] for [ext = extname(name)]. *)
Definition no_ext (name : string) : string :=
  let ext := Path.extname name in
  if truthy (VStr ext) then slice_off_end name (String.length ext) else name.

(** <<
    if (isWindowsDrive(source))
        source += '\\'
    >> *)
Definition drive_source (source : option string) : option string :=
  if isWindowsDrive source then (λ x, x +:+ "\") <$> source else source.

(** [const child = { source, name }] *)
Definition new_child (source name : option string) : Obj :=
  {[ "source" := of_param source; "name" := of_param name ]}.

Section AddVfs.

(** [isDirectory] of module [misc], which is not under src/: for a path of
    the real file system, whether it is a directory, and [None]
    ([undefined]) when there is nothing at that path. *)
Variable isDirectory : string → option bool.
(** [getBaseUrlOrDefault()] of module [listen], not under src/. *)
Variable baseUrl : string.
(** The platform's [encodeURIComponent]; [None] when it throws [URIError],
    as it does on a string with a lone surrogate. *)
Variable encodeURIComponent : string → option string.

(** Modelled from the spec: [nodeIsDirectory] of module [vfs], which is
    not under src/: a node is directory-like unless it is a mapped file,
    that is, unless it has a source that is not a directory and no
    children. *)
Definition nodeIsDirectory (n : VfsNode) : bool :=
  negb (bool_decide (children_list n = []))
  || negb (truthy (get (props n) "source"))
  || match get (props n) "source" with
     | VStr src => bool_decide (isDirectory src = Some true)
     | _ => false
     end.

(** The loop of [add_vfs] that looks for a free name:
    <<
    let idx = 2
    while (parentNode.children?.find(isSameFilenameAs(name)))
        name = `${noExt} ${idx++}${ext}`
    >>
    [taken name] is the loop condition; [fuel] bounds the number of
    iterations. *)
Fixpoint free_name (fuel : nat) (taken : string → bool) (noExt ext : string)
    (idx : nat) (name : string) : option string :=
  if taken name then
    match fuel with
    | O => None
    | S fuel' => free_name fuel' taken noExt ext (S idx) (candidate noExt ext idx)
    end
  else Some name.

Record AddResult := mkAddResult {
  added_name : string;
  added_link : string
}.

(** [add_vfs({ parent, source, name })].  The new node object gets a
    reference that no node of the store has.  The loop is run with one
    more unit of fuel than the parent has children, which is always
    enough (see [free_name_terminates]): the [None] branch of the loop is
    never taken.  The link is built after the node is put into the tree,
    so when [encodeURIComponent] throws the call ends [Thrown] on the
    tree with the new node in it. *)
Definition add_vfs (parent source name : option string) (s : Store)
    : outcome AddResult * Store :=
  if negb (truthy_param source) && negb (truthy_param name) then
    (Failed (mkApiError HTTP_BAD_REQUEST (Some "name or source required")), s)
  else
    match (if truthy_param parent then urlToNodeOriginal s (default "" parent)
           else Some vfs) with
    | None => (Failed (mkApiError HTTP_NOT_FOUND (Some "parent not found")), s)
    | Some parentNode =>
        if negb (nodeIsDirectory (node_at s parentNode)) then
          (Failed (mkApiError HTTP_NOT_ACCEPTABLE (Some "parent not a folder")), s)
        else
          let source := drive_source source in
          (* isDir = source && await isDirectory(source) *)
          let isDir := if truthy_param source then isDirectory (default "" source)
                       else Some false in
          if truthy_param source && bool_decide (isDir = None) then
            (Failed (mkApiError HTTP_NOT_FOUND (Some "source not found")), s)
          else
            let child := new_child source name in
            let name0 := getNodeName child in
            let ext := Path.extname name0 in
            let noExt := no_ext name0 in
            let siblings := children_list (node_at s parentNode) in
            match free_name (S (length siblings))
                    (λ nm, has_child s parentNode (isSameFilenameAs nm))
                    noExt ext 2 name0 with
            | None => (Thrown, s)
            | Some name1 =>
                let child1 := simplifyName (<["name" := VStr name1]> child) in
                let c := fresh (dom s) in
                (* (parentNode.children ||= []).unshift(child) *)
                let s1 := <[c := mkNode child1 None]> s in
                let s2 := set_children parentNode (Some (c :: siblings)) s1 in
                match encodeURIComponent (getNodeName child1) with
                | None => (Thrown, s2)
                | Some encoded =>
                    let link := baseUrl
                                +:+ (if truthy_param parent
                                     then enforceFinal "/" (default "" parent) else "/")
                                +:+ encoded
                                +:+ (if bool_decide (isDir = Some true) then "/" else "") in
                    (Returned (mkAddResult name1 link), s2)
                end
            end
    end.

End AddVfs.

(** One callback of [del_vfs] run from its start to its end with no other
    callback in between: the code for that URI and the tree after it.
    <<
    const idx = children.indexOf(node)
    children.splice(idx, 1)
    >> *)
Definition del_vfs_uri (uri : value) (s : Store) : Z * Store :=
  match uri with
  | VStr uri =>
      if decide (uri = "/") then (HTTP_NOT_ACCEPTABLE, s)
      else
        match urlToNodeOriginal s uri with
        | None => (HTTP_NOT_FOUND, s)
        | Some node =>
            let parent := Path.dirname uri in
            match urlToNodeOriginal s parent with
            | None => (HTTP_SERVER_ERROR, s)     (* shouldn't happen *)
            | Some parentNode =>
                match children (node_at s parentNode) with
                | None => (HTTP_SERVER_ERROR, s) (* shouldn't happen *)
                | Some children =>
                    let idx := indexOf node children in
                    (0, set_children parentNode (Some (splice idx 1 children)) s)
                end
            end
        end
  | _ => (HTTP_BAD_REQUEST, s)
  end.

(** Where a callback of [uris.map(async uri => ...)] stands between two
    turns: waiting for [urlToNodeOriginal(uri)], which has not read the
    tree yet; waiting for [urlToNodeOriginal(parent)], with the node it
    got; holding the node and the parent, about to go on after the second
    [await]; or ended with its code. *)
Inductive DelCallback :=
| AwaitNode (uri : string)
| AwaitParent (uri : string) (node : loc)
| Resumed (node parentNode : loc)
| Settled (code : Z).

(** The callback up to its first [await]: the two checks that do not look
    at the tree. *)
Definition del_vfs_start (uri : value) : DelCallback :=
  match uri with
  | VStr uri => if decide (uri = "/") then Settled HTTP_NOT_ACCEPTABLE else AwaitNode uri
  | _ => Settled HTTP_BAD_REQUEST
  end.

(** One turn of a callback: the resolution it waits for reads the tree,
    and the callback goes on to its next [await] or to its end.  Only the
    last turn changes the tree; it reads [children] of the parent as it is
    then. *)
Definition del_vfs_turn (c : DelCallback) (s : Store) : DelCallback * Store :=
  match c with
  | AwaitNode uri =>
      match urlToNodeOriginal s uri with
      | None => (Settled HTTP_NOT_FOUND, s)
      | Some node => (AwaitParent uri node, s)
      end
  | AwaitParent uri node =>
      match urlToNodeOriginal s (Path.dirname uri) with
      | None => (Settled HTTP_SERVER_ERROR, s)     (* shouldn't happen *)
      | Some parentNode => (Resumed node parentNode, s)
      end
  | Resumed node parentNode =>
      match children (node_at s parentNode) with
      | None => (Settled HTTP_SERVER_ERROR, s)     (* shouldn't happen *)
      | Some children =>
          let idx := indexOf node children in
          (Settled 0, set_children parentNode (Some (splice idx 1 children)) s)
      end
  | Settled code => (Settled code, s)
  end.

(** The callbacks taking turns in any order: [sched] lists the positions
    of the callbacks that take a turn, one after the other.  A position
    outside the list does nothing. *)
Fixpoint del_vfs_run (sched : list nat) (cs : list DelCallback) (s : Store)
    : list DelCallback * Store :=
  match sched with
  | [] => (cs, s)
  | i :: sched' =>
      match cs !! i with
      | Some c => let '(c', s1) := del_vfs_turn c s in del_vfs_run sched' (<[i := c']> cs) s1
      | None => del_vfs_run sched' cs s
      end
  end.

(** Every callback takes one turn, in the order of the list. *)
Fixpoint del_vfs_round (cs : list DelCallback) (s : Store) : list DelCallback * Store :=
  match cs with
  | [] => ([], s)
  | c :: rest =>
      let '(c', s1) := del_vfs_turn c s in
      let '(rest', s2) := del_vfs_round rest s1 in
      (c' :: rest', s2)
  end.

(** A callback after its two resolutions, both read on the tree [s]. *)
Definition del_vfs_resolved (s : Store) (uri : value) : DelCallback :=
  (del_vfs_turn (del_vfs_turn (del_vfs_start uri) s).1 s).1.

(** The callback holds a node and a parent and has its last turn to
    take. *)
Definition is_resumed (c : DelCallback) : bool :=
  match c with
  | Resumed _ _ => true
  | _ => false
  end.

(** The callback has both resolutions behind it. *)
Definition is_resolved (c : DelCallback) : bool :=
  match c with
  | Resumed _ _ | Settled _ => true
  | _ => false
  end.

(** [s'] is [s] with some children taken away: every node has the
    properties it has in [s], its children are children it has in [s], in
    the same order, and it has a [children] field when it has one in
    [s]. *)
Definition shrunk (s s' : Store) : Prop :=
  ∀ l, props (node_at s' l) = props (node_at s l)
       ∧ children_list (node_at s' l) `sublist_of` children_list (node_at s l)
       ∧ (children (node_at s' l) = None ↔ children (node_at s l) = None).

(** The schedule of [del_vfs_each] for [n] callbacks: three rounds. *)
Definition in_step (n : nat) : list nat := (seq 0 n ++ seq 0 n ++ seq 0 n)%list.

(** The code of a callback that has ended. *)
Definition del_vfs_code (c : DelCallback) : option Z :=
  match c with
  | Settled code => Some code
  | _ => None
  end.

(** [Promise.all(uris.map(async uri => ...))]: every callback is started
    and runs to its first [await] before any goes on; the resolutions are
    taken to settle in as many turns for one URI as for another, so the
    callbacks go on in step, in the order of the list: all of them get
    their node, then all of them get their parent, then each one reads the
    children of its parent and splices.  Three rounds end every callback
    (see [del_vfs_rounds_settled]), so [None] is never the result. *)
Definition del_vfs_each (uris : list value) (s : Store) : option (list Z) * Store :=
  let '(cs1, s1) := del_vfs_round (del_vfs_start <$> uris) s in
  let '(cs2, s2) := del_vfs_round cs1 s1 in
  let '(cs3, s3) := del_vfs_round cs2 s2 in
  (mapM del_vfs_code cs3, s3).

(** [del_vfs({ uris })]; [uris] is [None] when it is missing or not an
    array.  The value returned is the [errors] list. *)
Definition del_vfs (uris : option (list value)) (s : Store) : outcome (list Z) * Store :=
  match uris with
  | None => (Failed (mkApiError HTTP_BAD_REQUEST (Some "invalid uris")), s)
  | Some uris =>
      match del_vfs_each uris s with
      | (Some errors, s') => (Returned errors, s')
      | (None, s') => (Thrown, s')
      end
  end.

(** ** The tree as sent to the administrator: inheritance and masks *)

Section GetVfs.

Variable PERM_KEYS : list string.

(** [permsFromParent] of module [vfs], which is not under src/: the
    permissions a child takes from its parent chain, [None] ([undefined])
    when there are none. *)
Variable permsFromParent : Obj → Obj → option Obj.

(** A node as [recur] receives it: its own properties, and the objects
    its [original] and [parent] properties refer to, if any. *)
Record ViewNode := mkView {
  own : Obj;
  original : option Obj;
  parent_of : option Obj
}.

(** <<
    const inherited = node.parent && permsFromParent(node.parent, node.original || node)
    >> *)
Definition inherited (node : ViewNode) : option Obj :=
  match parent_of node with
  | Some p => permsFromParent p (default (own node) (original node))
  | None => None
  end.

(** The predicate handed to [_.pickBy]:
    <<
    v !== (node.original as any)[k]          // something is changing me...
    && !(inherited && k in inherited)        // ...and it's not inheritance...
    && PERM_KEYS.includes(k as any)          // ...must be masks
    >> *)
Definition is_mask (orig : Obj) (inh : option Obj) (k : string) (v : value) : bool :=
  negb (bool_decide (v = get orig k))
  && negb (match inh with Some i => bool_decide (is_Some (i !! k)) | None => false end)
  && bool_decide (k ∈ PERM_KEYS).

(** [const byMasks = node.original && _.pickBy(node, ...)] *)
Definition byMasks (node : ViewNode) : option Obj :=
  match original node with
  | Some orig =>
      Some (filter (λ kv, is_mask orig (inherited node) kv.1 kv.2 = true) (own node))
  | None => None
  end.

(** The two fields of the record [recur] returns that report inheritance
    and masks:
    <<
    inherited,
    byMasks: _.isEmpty(byMasks) ? undefined : byMasks,
    >> *)
Record MaskReport := mkReport {
  r_inherited : option Obj;
  r_byMasks : option Obj
}.

Definition get_vfs_masks (node : ViewNode) : MaskReport :=
  mkReport (inherited node)
           (match byMasks node with
            | Some m => if decide (m = ∅) then None else Some m
            | None => None
            end).

(** [k] is reported as a mask of [node]. *)
Definition reported_mask (node : ViewNode) (k : string) : Prop :=
  ∃ m, r_byMasks (get_vfs_masks node) = Some m ∧ is_Some (m !! k).

End GetVfs.

(** ** The directory lister *)

Record Stats := mkStats {
  st_size : Z;
  st_ctime : Z;
  st_mtime : Z
}.

(** An entry as added to the list: name, size, creation and modification
    time, and the kind, [Some "d"] for a directory and [None] for a file. *)
Record LsEntry := mkLsEntry {
  e_n : string;
  e_s : option Z;
  e_c : option Z;
  e_m : option Z;
  e_k : option string
}.

(** How [doAtStart] leaves the list: closed, in error, or neither (it
    returned without closing it). *)
Inductive ListEnd :=
  | Closed
  | Errored (reason : string)
  | LeftOpen.

Section GetLs.

(** [IS_WINDOWS] of module [const] and [getDrives] of module [util-os]
    ([None] when it throws). *)
Variable IS_WINDOWS : bool.
Variable getDrives : option (list string).
(** [makeMatcher] of module [misc], which is not under src/. *)
Variable makeMatcher : option string → string → bool.
(** [path.resolve] and [path.join] of the platform library. *)
Variable resolve : string → string.
Variable join : string → string → string.
(** [dirStream] of module [misc], which is not under src/: the entries
    [(name, isDir)] of a directory in reading order, and the error the
    stream ends with, if any. *)
Variable dirStream : string → list (string * bool) * option string.
(** [stat] of the file system, [None] when it fails. *)
Variable stat : string → option Stats.
(** [ctx.req.aborted] as read when the entry at a given position of the
    stream is reached. *)
Variable aborted : nat → bool.

(** The body of the [for await] loop; the boolean tells that the loop
    was left by [return] on an aborted request.
    <<
    if (ctx.req.aborted)
        return
    if (!isDir)
        if (!files || fileMask && !matching(name))
            continue
    >> *)
Fixpoint ls_loop (path : string) (files : bool) (fileMask : option string)
    (pos : nat) (entries : list (string * bool)) : list LsEntry * bool :=
  match entries with
  | [] => ([], false)
  | (name, isDir) :: rest =>
      if aborted pos then ([], true)
      else if negb isDir
              && (negb files || truthy_param fileMask && negb (makeMatcher fileMask name))
      then ls_loop path files fileMask (S pos) rest
      else
        let '(more, ret) := ls_loop path files fileMask (S pos) rest in
        match stat (join path name) with
        | Some st =>
            (mkLsEntry name (Some (st_size st)) (Some (st_ctime st)) (Some (st_mtime st))
                       (if isDir then Some "d" else None) :: more, ret)
        | None => (more, ret)      (* just ignore entries we can't stat *)
        end
  end.

(** [get_ls({ path, files=true, fileMask })]: what [doAtStart] adds to
    the list and how it leaves it. *)
Definition get_ls (path : option string) (files : option bool) (fileMask : option string)
    : list LsEntry * ListEnd :=
  let files := default true files in
  if negb (truthy_param path) && IS_WINDOWS then
    match getDrives with
    | Some drives => (map (λ n, mkLsEntry n None None None (Some "d")) drives, LeftOpen)
    | None => ([], LeftOpen)
    end
  else
    let path := if isWindowsDrive path then default "" path +:+ "\"
                else resolve (if truthy_param path then default "" path else "/") in
    let '(entries, err) := dirStream path in
    let '(added, ret) := ls_loop path files fileMask 0 entries in
    if ret then (added, LeftOpen)
    else match err with
         | Some e => (added, Errored e)
         | None => (added, Closed)
         end.

Definition is_dir_entry (e : LsEntry) : bool := bool_decide (e_k e = Some "d").

End GetLs.

(** ** Sibling names *)

(** The effective names of the children of a node, in order. *)
Definition child_names (s : Store) (l : loc) : list string :=
  (λ c, getNodeName (props (node_at s c))) <$> children_list (node_at s l).

(** No two children of a node share an effective name: for every parent,
    the children are as many as their distinct effective names. *)
Definition siblings_unique (s : Store) : Prop :=
  ∀ l, NoDup (child_names s l).

(** The same, as a check on the nodes of the store. *)
Definition siblings_unique_check (s : Store) : bool :=
  bool_decide (map_Forall (λ l _, NoDup (child_names s l)) s).

(** Every child reference of a node of the store is a node of the store,
    and so is the root. *)
Definition store_closed (s : Store) : Prop :=
  is_Some (s !! vfs)
  ∧ ∀ l n c, s !! l = Some n → c ∈ children_list n → is_Some (s !! c).

(** ** The tree after a move *)

(** [fromNode] pulled out of the children of [oldParent], and that field
    deleted if nothing is left in it. *)
Definition pulled (fromNode oldParent : loc) (s : Store) : Store :=
  let s1 := set_children oldParent (pull fromNode <$> children (node_at s oldParent)) s in
  if bool_decide (children_list (node_at s1 oldParent) = [])
  then set_children oldParent None s1 else s1.

(** The tree a successful [move_vfs] leaves: [fromNode] pulled out of the
    children of [oldParent] and pushed onto those of [parentNode]. *)
Definition moved (fromNode parentNode oldParent : loc) (s : Store) : Store :=
  set_children parentNode
    (Some (children_list (node_at (pulled fromNode oldParent s) parentNode)
           ++ [fromNode])%list)
    (pulled fromNode oldParent s).

(** ** Statements that the code does not meet *)

(** [move_vfs] puts the moved node in front of the children of the
    destination. *)
Definition move_vfs_prepends : Prop :=
  ∀ (f p : string) (s s' : Store) (fromNode parentNode : loc),
    move_vfs (Some f) (Some p) s = (Returned (), s') →
    urlToNodeOriginal s f = Some fromNode →
    urlToNodeOriginal s p = Some parentNode →
    children (node_at s' parentNode)
    = Some (fromNode :: children_list (node_at s parentNode)).

(** [set_vfs] leaves every whitelisted property that the payload does not
    have as it was. *)
Definition set_vfs_keeps_every_absent : Prop :=
  ∀ (PERM_KEYS : list string) (uri : string) (payload : Obj) (s s' : Store)
    (n : loc) (k : string),
    set_vfs PERM_KEYS uri (Some payload) s = (Returned n, s') →
    k ∈ set_vfs_keys PERM_KEYS →
    payload !! k = None →
    props (node_at s' n) !! k = props (node_at s n) !! k.


(** ** Trees and nodes of the examples *)

(** A node whose explicit name is the base name of its source. *)
Definition docs_node : Obj :=
  {[ "name" := VStr "docs"; "source" := VStr "/data/docs/" ]}.

(** Root with the children [a] (named by its source) and [b] (named
    explicitly, its source having the base name [a]). *)
Definition names_store : Store :=
  {[ 0%nat := mkNode ∅ (Some [1%nat; 2%nat]);
     1%nat := mkNode {[ "source" := VStr "/x/a" ]} None;
     2%nat := mkNode {[ "name" := VStr "b"; "source" := VStr "/y/a" ]} None ]}.

(** Root with the folders [a], holding [x], and [b], holding [y] and
    another [x]. *)
Definition move_store : Store :=
  {[ 0%nat := mkNode ∅ (Some [1%nat; 2%nat]);
     1%nat := mkNode {[ "name" := VStr "a" ]} (Some [3%nat]);
     2%nat := mkNode {[ "name" := VStr "b" ]} (Some [4%nat; 5%nat]);
     3%nat := mkNode {[ "source" := VStr "/data/x" ]} None;
     4%nat := mkNode {[ "source" := VStr "/data/y" ]} None;
     5%nat := mkNode {[ "name" := VStr "x"; "source" := VStr "/data/z" ]} None ]}.

(** Root with one child [docs] that has a permission and a default. *)
Definition perms_store : Store :=
  {[ 0%nat := mkNode ∅ (Some [1%nat]);
     1%nat := mkNode {[ "name" := VStr "docs"; "source" := VStr "/data/old";
                        "can_read" := VBool true; "default" := VStr "index.html" ]} None ]}.

Definition perms_payload : Obj :=
  {[ "can_read" := VNull; "default" := VStr ""; "extra" := VNum 1 ]}.

(** Root with one child named [a] whose source has the base name [b]. *)
Definition renamed_store : Store :=
  {[ 0%nat := mkNode ∅ (Some [1%nat]);
     1%nat := mkNode {[ "name" := VStr "a"; "source" := VStr "/x/b" ]} None ]}.

(** Root with three children. *)
Definition del_store : Store :=
  {[ 0%nat := mkNode ∅ (Some [1%nat; 2%nat; 3%nat]);
     1%nat := mkNode {[ "source" := VStr "/x/a" ]} None;
     2%nat := mkNode {[ "name" := VStr "b"; "source" := VStr "/y/a" ]} None;
     3%nat := mkNode {[ "name" := VStr "c" ]} None ]}.

(** A root whose children have all been deleted: the array is empty. *)
Definition emptied_store : Store :=
  {[ 0%nat := mkNode ∅ (Some []) ]}.

(** Root with the child [report.txt], and a file system in which every
    path is a file. *)
Definition report_store : Store :=
  {[ 0%nat := mkNode ∅ (Some [1%nat]);
     1%nat := mkNode {[ "source" := VStr "/data/report.txt" ]} None ]}.

Definition report_fs (path : string) : option bool := Some false.

(** A materialized node with a given [can_read], whose original has none. *)
Definition view_node (can_read : value) : ViewNode :=
  mkView {[ "can_read" := can_read; "source" := VStr "/data" ]}
         (Some {[ "source" := VStr "/data" ]})
         (Some ∅).

(** ** Checks on stores and names *)

(** [store_closed] as a check on the nodes of the store. *)
Definition store_closed_check (s : Store) : bool :=
  bool_decide (is_Some (s !! vfs))
  && bool_decide (map_Forall (λ _ n, Forall (λ c, is_Some (s !! c)) (children_list n)) s).

(** The name has no separator in it. *)
Definition no_slash (name : string) : bool :=
  forallb (λ c, negb (Path.is_slash c)) (String.list_ascii_of_string name).

(** ** Resolving a path to its closest folder *)

Section ResolvePath.

(** [path.resolve] of the platform library (it depends on the working
    directory) and [isDirectory] of module [misc]. *)
Variable resolve : string → string.
Variable isDirectory : string → option bool.

(** The loop of [resolve_path]:
    <<
    while (path && !await isDirectory(path))
        path = dirname(path)
    >>
    [None] when the fuel runs out. *)
Fixpoint closest_folder (fuel : nat) (path : string) : option string :=
  if truthy (VStr path) && negb (bool_decide (isDirectory path = Some true)) then
    match fuel with
    | O => None
    | S fuel' => closest_folder fuel' (Path.dirname path)
    end
  else Some path.

(** [resolve_path({ path, closestFolder })]: the [path] of the reply.  A
    round of the loop that does not leave [path] as it is makes it
    shorter or turns its single character into ["."]; one round more than
    [path] has characters is given, and [None] stands for a loop that does
    not end. *)
Definition resolve_path (path : string) (closestFolder : bool) : option string :=
  let path := resolve path in
  if closestFolder then closest_folder (S (String.length path)) path
  else Some path.

End ResolvePath.

(** [path] is absolute: it starts with a separator. *)
Definition is_absolute (path : string) : bool :=
  match path with
  | String c _ => Path.is_slash c
  | EmptyString => false
  end.

(** The path [get_ls] reads:
    [isWindowsDrive(path) ? path + '\\' : resolve(path || '/')]. *)
Definition ls_path (resolve : string → string) (path : option string) : string :=
  if isWindowsDrive path then default "" path +:+ "\"
  else resolve (if truthy_param path then default "" path else "/").

(** ** The directory lister, further *)

(** What the loop requires of a stream entry to add it. *)
Definition ls_wanted (makeMatcher : option string → string → bool) (files : bool)
    (fileMask : option string) (entry : string * bool) : bool :=
  entry.2 || files && (negb (truthy_param fileMask) || makeMatcher fileMask entry.1).

(** The entry the loop adds for a stream entry with the given stats. *)
Definition ls_entry (entry : string * bool) (st : Stats) : LsEntry :=
  mkLsEntry entry.1 (Some (st_size st)) (Some (st_ctime st)) (Some (st_mtime st))
            (if entry.2 then Some "d" else None).

(** A directory to list: two folders and two files; [stat] fails on the
    last folder, and the matcher accepts one name. *)
Definition ls_stream (path : string) : list (string * bool) * option string :=
  ([("sub", true); ("a.txt", false); ("b.bin", false); ("etc", true)], None).

Definition ls_stat (path : string) : option Stats :=
  if bool_decide (path = "/data/etc") then None else Some (mkStats 1 2 3).

Definition ls_join (path name : string) : string := path +:+ "/" +:+ name.

Definition ls_matcher (mask : option string) (name : string) : bool :=
  bool_decide (name = "a.txt").

(** ** Listing the drives (module util-os) *)

Module UtilOs.

Definition newline : ascii := "010"%char.

(** White space and line ends as [trim] sees them, among the code units
    below 256: tab, line feed, vertical tab, form feed, carriage return,
    space and no-break space. *)
Definition is_space (c : ascii) : bool :=
  let n := nat_of_ascii c in
  ((n =? 9) || (n =? 10) || (n =? 11) || (n =? 12) || (n =? 13) || (n =? 32)
   || (n =? 160))%nat.

(** [s.trim()]. *)
Definition trim (s : string) : string :=
  String.string_of_list_ascii
    (reverse (Path.drop_while is_space
       (reverse (Path.drop_while is_space (String.list_ascii_of_string s))))).

(** [s.split(sep)] for a separator of one character; [acc] holds the
    characters of the piece being read, last first. *)
Fixpoint split_go (sep : ascii) (acc : list ascii) (l : list ascii) : list string :=
  match l with
  | [] => [String.string_of_list_ascii (reverse acc)]
  | c :: l' =>
      if Ascii.eqb c sep then String.string_of_list_ascii (reverse acc) :: split_go sep [] l'
      else split_go sep (c :: acc) l'
  end.

Definition split (sep : ascii) (s : string) : list string :=
  split_go sep [] (String.list_ascii_of_string s).

(** [getDrives], as a function of what [runCmd] gives back:
    [stdout.split('\n').slice(1).map(x => x.trim()).filter(Boolean)]. *)
Definition getDrives (stdout : string) : list string :=
  filter (λ x, x ≠ "") (trim <$> tail (split newline stdout)).

End UtilOs.

(** An output of the command that [getDrives] runs: a header line and one
    line per drive, each padded and ended by a carriage return and a line
    feed. *)
Definition wmic_output : string :=
  let crlf := String "013"%char (String "010"%char "") in
  "Name  " +:+ crlf +:+ "C:    " +:+ crlf +:+ "D:    " +:+ crlf +:+ crlf.


(** ** Picking a file (admin FileField) *)

Module FileField.

(** [s.startsWith(prefix)]. *)
Definition startsWith (s prefix : string) : bool := String.prefix prefix s.

(** [s.slice(k)] for [k >= 0]. *)
Definition slice_from (s : string) (k : nat) : string :=
  String.string_of_list_ascii (drop k (String.list_ascii_of_string s)).

(** [onSelect(sel)] of the picker.  [sel] is the selection ([None] when
    there is none); [reply] is what [apiCall('get_cwd')] gives: [None] when
    the call is rejected, [Some None] for a reply without [path].  The
    value returned is the argument of [onChange], [None] when [onChange] is
    not called.
    <<
    let one = sel?.[0]
    if (!one) return
    const cwd = (await apiCall('get_cwd'))?.path
    if (one.startsWith(cwd))
        one = one.slice(cwd.length+1)
    onChange(one, { was: value, event: 'picker' })
    >>
    [startsWith(undefined)] looks for the string ["undefined"], and
    [cwd.length] then throws. *)
Definition onSelect (sel : option (list string)) (reply : option (option string))
    : outcome (option string) :=
  match sel ≫= head with
  | None => Returned None
  | Some one =>
      if negb (truthy (VStr one)) then Returned None
      else
        match reply with
        | None => Thrown
        | Some (Some cwd) =>
            Returned (Some (if startsWith one cwd
                            then slice_from one (String.length cwd + 1) else one))
        | Some None =>
            if startsWith one "undefined" then Thrown else Returned (Some one)
        end
  end.

End FileField.

(** ** Keeping the session alive (admin LoginForm) *)

Module Session.

(** The part of the client state [sessionRefresher] writes, and the timers
    set so far, latest first: an entry is the delay handed to [setTimeout],
    [None] when it is not a number. *)
Record State := mkState {
  st_username : value;
  st_timers : list (option Z)
}.

(** The response of a login or of a refresh: [exp] and [username]. *)
Record Response := mkResponse {
  r_exp : value;
  r_username : value
}.

Section Refresher.

(** [new Date(exp).getTime()], [None] for an invalid date, and
    [Date.now()]. *)
Variable getTime : value → option Z.
Variable now : Z.

(** <<
    const delta = new Date(exp).getTime() - Date.now()
    const t = Math.min(delta - 30_000, 600_000)
    >> *)
Definition refresh_delay (exp : value) : option Z :=
  match getTime exp with
  | Some e => Some (Z.min (e - now - 30000) 600000)
  | None => None
  end.

(** [sessionRefresher(response)]:
    <<
    if (!response) return
    const { exp, username } = response
    state.username = username
    if (!username || !exp) return
    ...
    setTimeout(() => apiCall('refresh_session').then(sessionRefresher), t)
    >> *)
Definition sessionRefresher (response : option Response) (st : State) : State :=
  match response with
  | None => st
  | Some r =>
      let st1 := mkState (r_username r) (st_timers st) in
      if negb (truthy (r_username r)) || negb (truthy (r_exp r)) then st1
      else mkState (r_username r) (refresh_delay (r_exp r) :: st_timers st)
  end.

End Refresher.

End Session.

(** * Properties *)

(** Closed decidable goals are settled by evaluation. *)
Local Ltac by_evaluation := apply (bool_decide_unpack _); vm_compute; exact I.

(** ** Strings and paths *)

Example basename_file : Path.basename "/data/docs/report.txt" = "report.txt".
Proof. reflexivity. Qed.
Example basename_trailing : Path.basename "/data/docs/" = "docs".
Proof. reflexivity. Qed.
Example basename_root : Path.basename "/" = "".
Proof. reflexivity. Qed.
Example extname_file : Path.extname "report.txt" = ".txt".
Proof. reflexivity. Qed.
Example extname_hidden : Path.extname ".bashrc" = "".
Proof. reflexivity. Qed.
Example extname_dotdot : Path.extname "a.b/.." = "".
Proof. reflexivity. Qed.
Example extname_last_dot : Path.extname "archive.tar.gz" = ".gz".
Proof. reflexivity. Qed.
Example extname_final_dot : Path.extname "name." = ".".
Proof. reflexivity. Qed.
Example extname_trailing : Path.extname "a.txt/" = ".txt".
Proof. reflexivity. Qed.
Example dirname_nested : Path.dirname "/a/b" = "/a".
Proof. reflexivity. Qed.
Example dirname_top : Path.dirname "/a" = "/".
Proof. reflexivity. Qed.
Example dirname_relative : Path.dirname "a" = ".".
Proof. reflexivity. Qed.
Example dirname_slashes : Path.dirname "//" = "/".
Proof. reflexivity. Qed.
Example dirname_trailing : Path.dirname "/a/b/" = "/a".
Proof. reflexivity. Qed.
Example dirname_double : Path.dirname "/a//b" = "/a/".
Proof. reflexivity. Qed.
Example slice_report : slice_off_end "report.txt" 4 = "report".
Proof. reflexivity. Qed.
Example segments_of_uri : segments "/a/b//c/" = ["a"; "b"; "c"].
Proof. reflexivity. Qed.

Lemma string_app_cons (c : ascii) (a b : string) : String c a +:+ b = String c (a +:+ b).
Proof. reflexivity. Qed.

Lemma string_length_app (a b : string) :
  String.length (a +:+ b) = (String.length a + String.length b)%nat.
Proof.
  induction a as [| c a IH]; [done |].
  rewrite string_app_cons. cbn [String.length]. by rewrite IH.
Qed.

Lemma string_app_nil_r (s : string) : s +:+ "" = s.
Proof. induction s as [| c s IH]; [done |]. by rewrite string_app_cons, IH. Qed.

Lemma string_app_inv_tail (a b t : string) : a +:+ t = b +:+ t → a = b.
Proof.
  revert b. induction a as [| c a IH]; intros [| d b] H.
  - done.
  - apply (f_equal String.length) in H.
    rewrite !string_length_app in H. cbn [String.length] in H. lia.
  - apply (f_equal String.length) in H.
    rewrite !string_length_app in H. cbn [String.length] in H. lia.
  - rewrite !string_app_cons in H. injection H as -> H. f_equal. by apply IH.
Qed.

Lemma string_length_of_list (l : list ascii) :
  String.length (String.string_of_list_ascii l) = length l.
Proof. induction l as [| c l IH]; [done |]. cbn. by rewrite IH. Qed.

Lemma string_length_to_list (s : string) :
  length (String.list_ascii_of_string s) = String.length s.
Proof. induction s as [| c s IH]; [done |]. cbn. by rewrite IH. Qed.

Lemma string_of_list_app (a b : list ascii) :
  String.string_of_list_ascii (a ++ b)
  = String.string_of_list_ascii a +:+ String.string_of_list_ascii b.
Proof.
  induction a as [| c a IH]; [done |].
  cbn [app String.string_of_list_ascii]. by rewrite string_app_cons, IH.
Qed.

Lemma take_drop_while (p : ascii → bool) (l : list ascii) :
  (Path.take_while p l ++ Path.drop_while p l)%list = l.
Proof.
  induction l as [| c l IH]; [done |]. cbn. destruct (p c); [| done].
  cbn. by rewrite IH.
Qed.

Lemma drop_while_head (p : ascii → bool) (l : list ascii) (c : ascii) (rest : list ascii) :
  Path.drop_while p l = c :: rest → p c = false.
Proof.
  induction l as [| d l IH]; [done |]. cbn. destruct (p d) eqn:Hd; [done |].
  by intros [= <- _].
Qed.

(** A name that is a single path portion is its part before the extension
    followed by its extension. *)
Lemma no_ext_extname (name : string) :
  Path.basename name = name → no_ext name +:+ Path.extname name = name.
Proof.
  intros Hb.
  assert (Hpart : Path.last_part_rev name = reverse (String.list_ascii_of_string name)).
  { unfold Path.basename in Hb. apply (f_equal String.list_ascii_of_string) in Hb.
    rewrite String.list_ascii_of_string_of_list_ascii in Hb.
    rewrite <- Hb. by rewrite reverse_involutive. }
  unfold no_ext, Path.extname. rewrite Hpart.
  set (r := reverse (String.list_ascii_of_string name)) in *.
  pose proof (take_drop_while (λ c, negb (Ascii.eqb c Path.dot)) r) as Hsplit.
  destruct (Path.drop_while (λ c, negb (Ascii.eqb c Path.dot)) r) as [| d [| d' rest]] eqn:Hd;
    try apply string_app_nil_r.
  case_bool_decide; [apply string_app_nil_r |].
  apply drop_while_head in Hd as Hdot. apply negb_false_iff, Ascii.eqb_eq in Hdot. subst d.
  set (ext_rev := Path.take_while (λ c, negb (Ascii.eqb c Path.dot)) r) in *.
  assert (Hl : String.list_ascii_of_string name
               = (reverse (d' :: rest) ++ reverse (ext_rev ++ [Path.dot]))%list).
  { rewrite <- reverse_app, <- app_assoc. cbn [app]. rewrite Hsplit. unfold r.
    by rewrite reverse_involutive. }
  assert (Ht : truthy (VStr (String.string_of_list_ascii (reverse (ext_rev ++ [Path.dot]))))
               = true).
  { rewrite reverse_app. by cbn. }
  rewrite Ht. unfold slice_off_end. rewrite string_length_of_list, Hl, length_app.
  replace (length (reverse (d' :: rest)) + length (reverse (ext_rev ++ [Path.dot]))
           - length (reverse (ext_rev ++ [Path.dot])))%nat
    with (length (reverse (d' :: rest))) by lia.
  rewrite take_app_length, <- string_of_list_app, <- Hl.
  apply String.string_of_list_ascii_of_string.
Qed.

(** ** Store updates *)

Lemma node_at_unallocated (s : Store) (l : loc) : s !! l = None → node_at s l = empty_node.
Proof. intros H. unfold node_at. by rewrite H. Qed.

Lemma node_at_insert_eq (s : Store) (l : loc) (n : VfsNode) :
  node_at (<[l := n]> s) l = n.
Proof. unfold node_at. by rewrite lookup_insert_eq. Qed.

Lemma node_at_insert_ne (s : Store) (l l' : loc) (n : VfsNode) :
  l ≠ l' → node_at (<[l := n]> s) l' = node_at s l'.
Proof. intros. unfold node_at. by rewrite lookup_insert_ne. Qed.

Lemma node_at_set_children (s : Store) (l l' : loc) (c : option (list loc)) :
  node_at (set_children l c s) l'
  = if decide (l = l') then mkNode (props (node_at s l)) c else node_at s l'.
Proof.
  unfold node_at at 1, set_children. rewrite lookup_insert.
  by case_decide.
Qed.

Lemma node_at_set_children_eq (s : Store) (l : loc) (c : option (list loc)) :
  node_at (set_children l c s) l = mkNode (props (node_at s l)) c.
Proof. by rewrite node_at_set_children, decide_True. Qed.

Lemma node_at_set_children_ne (s : Store) (l l' : loc) (c : option (list loc)) :
  l ≠ l' → node_at (set_children l c s) l' = node_at s l'.
Proof. intros. by rewrite node_at_set_children, decide_False. Qed.

Lemma props_set_children (s : Store) (l l' : loc) (c : option (list loc)) :
  props (node_at (set_children l c s) l') = props (node_at s l').
Proof. rewrite node_at_set_children. case_decide; by subst. Qed.

Lemma node_at_set_props (s : Store) (l : loc) (p : Obj) :
  props (node_at (set_props l p s) l) = p.
Proof. unfold set_props. by rewrite node_at_insert_eq. Qed.

Lemma children_list_some (p : Obj) (c : list loc) : children_list (mkNode p (Some c)) = c.
Proof. reflexivity. Qed.

Lemma has_child_false (s : Store) (parent : loc) (pred : Obj → bool) (x : loc) :
  has_child s parent pred = false →
  x ∈ children_list (node_at s parent) →
  pred (props (node_at s x)) = false.
Proof.
  unfold has_child. intros H Hx.
  destruct (pred (props (node_at s x))) eqn:Hp; [| done].
  assert (existsb (λ x, pred (props (node_at s x))) (children_list (node_at s parent)) = true)
    as Ht; [| congruence].
  apply existsb_exists. exists x. split; [by apply list_elem_of_In | exact Hp].
Qed.

Lemma has_child_names (s : Store) (parent : loc) (name : string) :
  has_child s parent (isSameFilenameAs name) = true →
  name ∈ child_names s parent.
Proof.
  unfold has_child, child_names. intros (x & Hx & Hp)%existsb_exists.
  apply bool_decide_eq_true in Hp. apply list_elem_of_fmap. exists x.
  split; [done | by apply list_elem_of_In].
Qed.
(** ** The node namer *)

Lemma get_delete_name (node : Obj) : get (delete "name" node) "name" = VUndefined.
Proof. unfold get. by rewrite lookup_delete_eq. Qed.

Lemma getNodeName_no_name (node : Obj) :
  node !! "name" = None →
  getNodeName node = match node !! "source" with
                     | Some (VStr src) => Path.basename src
                     | _ => ""
                     end.
Proof. intros H. unfold getNodeName. by rewrite H. Qed.

Lemma simplifyName_other (node : Obj) (k : string) :
  k ≠ "name" → simplifyName node !! k = node !! k.
Proof.
  intros Hk. unfold simplifyName. case_decide; [|done].
  by rewrite lookup_delete_ne.
Qed.

Lemma simplifyName_dropped (node : Obj) :
  get node "name" = VStr (getNodeName (delete "name" node)) →
  simplifyName node = delete "name" node.
Proof. intros H. unfold simplifyName. rewrite H. by rewrite decide_True. Qed.

Lemma simplifyName_kept (node : Obj) :
  get node "name" ≠ VStr (getNodeName (delete "name" node)) →
  simplifyName node = node.
Proof. intros H. unfold simplifyName. rewrite decide_False; [done | congruence]. Qed.

(** C7: [simplifyName] is idempotent; it drops a stored explicit name
    exactly when that name equals the effective name of the node without
    its name, which is the base name of the source when the node has one;
    and it touches no other property. *)
Theorem simplifyName_idempotent_drops_redundant (node : Obj) :
  simplifyName (simplifyName node) = simplifyName node
  ∧ (∀ name, node !! "name" = Some name →
       (simplifyName node !! "name" = None
        ↔ name = VStr (getNodeName (delete "name" node))))
  ∧ (∀ src, node !! "source" = Some (VStr src) →
       getNodeName (delete "name" node) = Path.basename src)
  ∧ (∀ k, k ≠ "name" → simplifyName node !! k = node !! k).
Proof.
  repeat split.
  - destruct (decide (get node "name" = VStr (getNodeName (delete "name" node))))
      as [Heq | Hne].
    + rewrite (simplifyName_dropped _ Heq).
      apply simplifyName_kept. by rewrite get_delete_name.
    + by rewrite !(simplifyName_kept _ Hne).
  - intros Hnone.
    destruct (decide (get node "name" = VStr (getNodeName (delete "name" node))))
      as [Heq | Hne].
    + unfold get in Heq. rewrite H in Heq. exact Heq.
    + rewrite (simplifyName_kept _ Hne) in Hnone. congruence.
  - intros ->. rewrite simplifyName_dropped.
    + apply lookup_delete_eq.
    + unfold get. by rewrite H.
  - intros src Hsrc. rewrite getNodeName_no_name by apply lookup_delete_eq.
    rewrite lookup_delete_ne by done. by rewrite Hsrc.
  - apply simplifyName_other.
Qed.

Lemma simplifyName_idempotent_drops_redundant_witness :
  simplifyName docs_node !! "name" = None
  ∧ getNodeName (delete "name" docs_node) = "docs"
  ∧ simplifyName docs_node !! "source" = Some (VStr "/data/docs/").
Proof.
  destruct (simplifyName_idempotent_drops_redundant docs_node) as (_ & Hdrop & Hsrc & Hoth).
  split; [| split].
  - apply (Hdrop (VStr "docs")); reflexivity.
  - apply (Hsrc "/data/docs/"). reflexivity.
  - rewrite Hoth; [reflexivity | discriminate].
Defined.

Lemma getNodeName_simplifyName (node : Obj) :
  getNodeName (simplifyName node) = getNodeName node.
Proof.
  destruct (decide (get node "name" = VStr (getNodeName (delete "name" node))))
    as [Heq | Hne]; [| by rewrite simplifyName_kept].
  rewrite (simplifyName_dropped _ Heq). unfold get in Heq.
  unfold getNodeName at 2. destruct (node !! "name") as [v|] eqn:Hn; [| done].
  cbn in Heq. subst v.
  destruct (getNodeName (delete "name" node)) eqn:Hd; [| done].
  unfold getNodeName in Hd. rewrite lookup_delete_eq in Hd.
  rewrite lookup_delete_ne in Hd by done. by rewrite Hd.
Qed.

Lemma getNodeName_named (node : Obj) (name : string) :
  name ≠ "" → getNodeName (<["name" := VStr name]> node) = name.
Proof.
  intros Hn. unfold getNodeName. rewrite lookup_insert_eq. by destruct name.
Qed.

Lemma getNodeName_renamed_same (node : Obj) :
  getNodeName (<["name" := VStr (getNodeName node)]> node) = getNodeName node.
Proof.
  destruct (getNodeName node) eqn:Hn; [| by apply getNodeName_named].
  unfold getNodeName in *. rewrite lookup_insert_eq.
  rewrite lookup_insert_ne by done.
  destruct (node !! "name") as [[| | | | [|] |]|]; done.
Qed.

(** ** Sanitizing and merging properties *)

Lemma pickProps_fold_lookup (o acc : Obj) (keys : list string) (k : string) :
  foldl (λ ret k, match o !! k with
                  | Some v => <[k := clean v]> ret
                  | None => ret
                  end) acc keys !! k
  = if decide (k ∈ keys) then
      match o !! k with Some v => Some (clean v) | None => acc !! k end
    else acc !! k.
Proof.
  revert acc. induction keys as [| k' keys IH]; intros acc; cbn [foldl].
  - destruct (decide (k ∈ [])) as [Hin | _]; [set_solver | done].
  - rewrite IH. destruct (decide (k = k')) as [-> | Hne].
    + rewrite (decide_True (P := k' ∈ k' :: keys)) by set_solver.
      destruct (o !! k') as [v|] eqn:Hv.
      * destruct (decide (k' ∈ keys)); [done | apply lookup_insert_eq].
      * by destruct (decide (k' ∈ keys)).
    + destruct (decide (k ∈ keys)) as [Hin | Hnin].
      * rewrite (decide_True (P := k ∈ k' :: keys)) by set_solver.
        destruct (o !! k); [done |].
        destruct (o !! k'); [by rewrite lookup_insert_ne | done].
      * rewrite (decide_False (P := k ∈ k' :: keys))
          by (intros [? | ?]%elem_of_cons; done).
        destruct (o !! k'); [by rewrite lookup_insert_ne | done].
Qed.

Lemma pickProps_lookup (o : Obj) (keys : list string) (k : string) :
  pickProps (Some o) keys !! k
  = if decide (k ∈ keys) then clean <$> o !! k else None.
Proof.
  unfold pickProps. rewrite pickProps_fold_lookup.
  case_decide; [| done]. by destruct (o !! k).
Qed.

Lemma drop_bad_masks_undefined (p : Obj) (k : string) :
  p !! k = Some VUndefined → drop_bad_masks p !! k = Some VUndefined.
Proof.
  intros H. unfold drop_bad_masks.
  destruct (decide (k = "masks")) as [-> | Hne].
  - unfold get. by rewrite H.
  - case_match; [by rewrite lookup_delete_ne | done].
Qed.

Lemma drop_bad_masks_none (p : Obj) (k : string) :
  p !! k = None → drop_bad_masks p !! k = None.
Proof.
  intros H. unfold drop_bad_masks. case_match; [| done].
  rewrite lookup_delete. by case_decide.
Qed.

(** What a successful [set_vfs] leaves on the node: the sanitized payload
    merged over the old properties, then [simplifyName]. *)
Lemma set_vfs_returned (PERM_KEYS : list string) (uri : string)
    (payload : option Obj) (s s' : Store) (n : loc) :
  set_vfs PERM_KEYS uri payload s = (Returned n, s') →
  props (node_at s' n)
  = simplifyName (drop_bad_masks (pickProps payload (set_vfs_keys PERM_KEYS))
                  ∪ props (node_at s n)).
Proof.
  unfold set_vfs. intros H.
  destruct (urlToNodeOriginal s uri) as [n0|]; [| done].
  match type of H with (if ?c then _ else _) = _ => destruct c end; [done |].
  injection H as <- <-. by rewrite node_at_set_props.
Qed.

Lemma delete_name_simplifyName (node : Obj) :
  delete "name" (simplifyName node) = delete "name" node.
Proof.
  unfold simplifyName. case_decide; [| done].
  apply map_eq. intros k. destruct (decide (k = "name")) as [-> | Hk].
  - by rewrite !lookup_delete_eq.
  - by rewrite !lookup_delete_ne.
Qed.

(** C10 (as amended): in a [set_vfs] call that succeeds, a whitelisted
    property whose payload value is [null] or the empty string is stored on
    the node as [undefined]; a whitelisted property other than [name] that
    the payload does not have keeps the value the node had; and [name],
    when the payload does not have it, is dropped when the stored name is
    the name the node has without it, the base name of its source as the
    call leaves it, and keeps the value the node had otherwise. *)
Theorem set_vfs_clears_null_keeps_absent (PERM_KEYS : list string) (uri : string)
    (payload : Obj) (s s' : Store) (n : loc) (k : string) :
  set_vfs PERM_KEYS uri (Some payload) s = (Returned n, s') →
  k ∈ set_vfs_keys PERM_KEYS →
  (payload !! k = Some VNull ∨ payload !! k = Some (VStr "") →
     props (node_at s' n) !! k = Some VUndefined)
  ∧ (payload !! k = None → k ≠ "name" →
     props (node_at s' n) !! k = props (node_at s n) !! k)
  ∧ (payload !! k = None → k = "name" →
     let derived := getNodeName (delete "name" (props (node_at s' n))) in
     derived = match props (node_at s' n) !! "source" with
               | Some (VStr src) => Path.basename src
               | _ => ""
               end
     ∧ (props (node_at s n) !! "name" = Some (VStr derived) →
        props (node_at s' n) !! "name" = None)
     ∧ (props (node_at s n) !! "name" ≠ Some (VStr derived) →
        props (node_at s' n) !! "name" = props (node_at s n) !! "name")).
Proof.
  intros Hset Hk. rewrite (set_vfs_returned _ _ _ _ _ _ Hset).
  set (picked := pickProps (Some payload) (set_vfs_keys PERM_KEYS)).
  set (assigned := drop_bad_masks picked ∪ props (node_at s n)).
  assert (Hnull : payload !! k = Some VNull ∨ payload !! k = Some (VStr "") →
                  assigned !! k = Some VUndefined).
  { intros Hv. apply lookup_union_Some_l, drop_bad_masks_undefined.
    unfold picked. rewrite pickProps_lookup, decide_True by done.
    by destruct Hv as [-> | ->]. }
  assert (Habs : payload !! k = None → assigned !! k = props (node_at s n) !! k).
  { intros Hv. apply lookup_union_r, drop_bad_masks_none.
    unfold picked. rewrite pickProps_lookup, decide_True by done. by rewrite Hv. }
  split; [| split].
  - intros Hv. specialize (Hnull Hv).
    destruct (decide (k = "name")) as [-> | Hne].
    + rewrite simplifyName_kept; [done |]. unfold get. by rewrite Hnull.
    + by rewrite simplifyName_other.
  - intros Hv Hne. rewrite simplifyName_other by done. auto.
  - intros Hv ->. specialize (Habs Hv). cbv zeta.
    rewrite delete_name_simplifyName.
    split; [| split].
    + rewrite getNodeName_no_name by apply lookup_delete_eq.
      rewrite lookup_delete_ne by done. by rewrite simplifyName_other.
    + intros Hname. rewrite simplifyName_dropped; [apply lookup_delete_eq |].
      unfold get. by rewrite Habs, Hname.
    + intros Hname. rewrite simplifyName_kept; [done |].
      unfold get. rewrite Habs.
      destruct (props (node_at s n) !! "name") as [v|]; [| done].
      change (default VUndefined (Some v)) with v. intros ->. by apply Hname.
Qed.

Lemma set_vfs_clears_null_keeps_absent_witness :
  props (node_at (set_vfs ["can_read"] "/docs" (Some perms_payload) perms_store).2 1%nat)
    !! "can_read" = Some VUndefined
  ∧ props (node_at (set_vfs ["can_read"] "/docs" (Some perms_payload) perms_store).2 1%nat)
      !! "source" = Some (VStr "/data/old")
  ∧ props (node_at (set_vfs [] "/a" (Some {[ "source" := VStr "/y/a" ]}) renamed_store).2
             1%nat) !! "name" = None.
Proof.
  split; [| split].
  - apply (set_vfs_clears_null_keeps_absent ["can_read"] "/docs" perms_payload perms_store
             _ 1%nat "can_read").
    + reflexivity.
    + by_evaluation.
    + left. reflexivity.
  - refine (proj1 (proj2 (set_vfs_clears_null_keeps_absent ["can_read"] "/docs" perms_payload
             perms_store _ 1%nat "source" _ _)) _ _).
    + reflexivity.
    + by_evaluation.
    + reflexivity.
    + discriminate.
  - refine (proj1 (proj2 (proj2 (proj2 (set_vfs_clears_null_keeps_absent [] "/a"
             {[ "source" := VStr "/y/a" ]} renamed_store _ 1%nat "name" _ _)) _ _)) _).
    + reflexivity.
    + by_evaluation.
    + reflexivity.
    + reflexivity.
    + reflexivity.
Defined.

(** The name of a node is dropped although the payload has no name: the
    new source has the base name the node was named with. *)
Lemma set_vfs_absent_name_dropped :
  set_vfs [] "/a" (Some {[ "source" := VStr "/y/a" ]}) renamed_store
  = (Returned 1%nat, set_props 1%nat {[ "source" := VStr "/y/a" ]} renamed_store)
  ∧ ({[ "source" := VStr "/y/a" ]} : Obj) !! "name" = None
  ∧ props (node_at renamed_store 1%nat) !! "name" = Some (VStr "a")
  ∧ props (node_at (set_props 1%nat {[ "source" := VStr "/y/a" ]} renamed_store) 1%nat)
      !! "name" = None
  ∧ ¬ set_vfs_keeps_every_absent.
Proof.
  assert (H : set_vfs [] "/a" (Some {[ "source" := VStr "/y/a" ]}) renamed_store
  = (Returned 1%nat, set_props 1%nat {[ "source" := VStr "/y/a" ]} renamed_store)).
  { by vm_compute. }
  split; [exact H |]. split; [reflexivity |]. split; [reflexivity |].
  split; [reflexivity |].
  intros Hc. specialize (Hc [] "/a" _ _ _ _ "name" H).
  assert (Hin : "name" ∈ set_vfs_keys []) by by_evaluation.
  specialize (Hc Hin eq_refl). vm_compute in Hc. discriminate.
Qed.

(** ** Masks *)

Section Masks.

Variable PERM_KEYS : list string.
Variable permsFromParent : Obj → Obj → option Obj.

Lemma is_mask_spec (orig : Obj) (inh : option Obj) (k : string) (v : value) :
  is_mask PERM_KEYS orig inh k v = true
  ↔ v ≠ get orig k ∧ (∀ i, inh = Some i → i !! k = None) ∧ k ∈ PERM_KEYS.
Proof.
  unfold is_mask. rewrite !andb_true_iff, !negb_true_iff, !bool_decide_eq_false,
    bool_decide_eq_true.
  split.
  - intros [[Hv Hi] Hk]. repeat split; [done | | done].
    intros i ->. apply bool_decide_eq_false in Hi.
    by apply eq_None_not_Some.
  - intros (Hv & Hi & Hk). repeat split; [done | | done].
    destruct inh as [i|]; [| done].
    apply bool_decide_eq_false. rewrite (Hi i eq_refl). by intros [? ?].
Qed.

Lemma reported_mask_spec (node : ViewNode) (orig : Obj) (k : string) :
  original node = Some orig →
  reported_mask PERM_KEYS permsFromParent node k
  ↔ ∃ v, own node !! k = Some v
         ∧ is_mask PERM_KEYS orig (inherited permsFromParent node) k v = true.
Proof.
  intros Ho. unfold reported_mask, get_vfs_masks, byMasks. rewrite Ho. simpl.
  split.
  - intros (m & Hm & [v Hv]). case_decide; [done |].
    injection Hm as <-. apply map_lookup_filter_Some in Hv as [Hv Hp].
    by exists v.
  - intros (v & Hv & Hp).
    assert (Hl : filter (λ kv, is_mask PERM_KEYS orig (inherited permsFromParent node)
                                 kv.1 kv.2 = true) (own node) !! k = Some v).
    { by apply map_lookup_filter_Some. }
    eexists. split.
    + rewrite decide_False; [done |]. intros He. rewrite He in Hl. done.
    + by exists v.
Qed.

End Masks.

(** C3 (as amended): for a node that has an original counterpart and an
    inherited-permission snapshot, [get_vfs] reports a field as a mask
    exactly when its value differs from the value of the original node for
    that key, the key is not in the inherited snapshot, and the key is a
    recognized permission key.  So a field whose value equals its inherited
    value is never reported, and a field that differs from the original
    value is reported when it is a permission key for which inheritance
    supplies no value. *)
Theorem get_vfs_mask_classification (PERM_KEYS : list string)
    (permsFromParent : Obj → Obj → option Obj) (node : ViewNode) (orig inh : Obj)
    (k : string) :
  original node = Some orig →
  inherited permsFromParent node = Some inh →
  (reported_mask PERM_KEYS permsFromParent node k
   ↔ ∃ v, own node !! k = Some v ∧ v ≠ get orig k ∧ inh !! k = None ∧ k ∈ PERM_KEYS)
  ∧ (∀ v, own node !! k = Some v → inh !! k = Some v →
       ¬ reported_mask PERM_KEYS permsFromParent node k)
  ∧ (∀ v, own node !! k = Some v → v ≠ get orig k → inh !! k = None → k ∈ PERM_KEYS →
       reported_mask PERM_KEYS permsFromParent node k).
Proof.
  intros Ho Hi.
  assert (Hiff : reported_mask PERM_KEYS permsFromParent node k
   ↔ ∃ v, own node !! k = Some v ∧ v ≠ get orig k ∧ inh !! k = None ∧ k ∈ PERM_KEYS).
  { rewrite (reported_mask_spec _ _ _ _ _ Ho), Hi.
    split; intros (v & Hv & Hm); exists v; (split; [done |]).
    - apply is_mask_spec in Hm as (? & Hn & ?). auto.
    - apply is_mask_spec. destruct Hm as (? & ? & ?).
      repeat split; [done | | done]. by intros ? [= <-]. }
  split; [exact Hiff | split].
  - intros v Hv Hin Hr. apply Hiff in Hr as (? & _ & _ & Hn & _). congruence.
  - intros v Hv Hne Hn Hk. apply Hiff. eauto.
Qed.

Lemma get_vfs_mask_classification_witness :
  reported_mask ["can_read"; "can_see"] (λ _ _, Some {[ "can_see" := VBool false ]})
    (view_node (VBool false)) "can_read".
Proof.
  refine (proj2 (proj2 (get_vfs_mask_classification ["can_read"; "can_see"]
            (λ _ _, Some {[ "can_see" := VBool false ]}) (view_node (VBool false))
            {[ "source" := VStr "/data" ]} {[ "can_see" := VBool false ]} "can_read"
            eq_refl eq_refl)) (VBool false) _ _ _ _).
  - reflexivity.
  - discriminate.
  - reflexivity.
  - by_evaluation.
Defined.

(** A field that differs from both its inherited and its original value is
    not reported: the key is in the inherited snapshot. *)
Lemma get_vfs_mask_inherited_key_not_reported :
  let pfp : Obj → Obj → option Obj := λ _ _, Some {[ "can_read" := VBool true ]} in
  let node := view_node (VBool false) in
  original node = Some {[ "source" := VStr "/data" ]}
  ∧ inherited pfp node = Some {[ "can_read" := VBool true ]}
  ∧ own node !! "can_read" = Some (VBool false)
  ∧ "can_read" ∈ ["can_read"]
  ∧ VBool false ≠ get ({[ "source" := VStr "/data" ]} : Obj) "can_read"
  ∧ VBool false ≠ get ({[ "can_read" := VBool true ]} : Obj) "can_read"
  ∧ ¬ reported_mask ["can_read"] pfp node "can_read".
Proof.
  cbv zeta. repeat split; try done; try by_evaluation.
  intros (m & Hm & Hk). vm_compute in Hm. by destruct Hk.
Qed.

(** ** The directory lister *)

Section Lister.

Variable makeMatcher : option string → string → bool.
Variable join : string → string → string.
Variable stat : string → option Stats.
Variable aborted : nat → bool.

Abbreviation loop := (ls_loop makeMatcher join stat aborted).
Abbreviation dirs := (filter (λ e, is_dir_entry e = true)).

(** The directories the loop adds, and whether it is left by [return],
    depend on neither the [files] toggle nor the mask. *)
Lemma ls_loop_dirs (path : string) (files files' : bool) (mask mask' : option string)
    (pos : nat) (entries : list (string * bool)) :
  dirs (loop path files mask pos entries).1 = dirs (loop path files' mask' pos entries).1
  ∧ (loop path files mask pos entries).2 = (loop path files' mask' pos entries).2.
Proof.
  revert pos. induction entries as [| [name isDir] rest IH]; intros pos; [done |].
  cbn [ls_loop]. destruct (aborted pos); [done |].
  specialize (IH (S pos)).
  destruct (loop path files mask (S pos) rest) as [more ret].
  destruct (loop path files' mask' (S pos) rest) as [more' ret'].
  cbn [fst snd] in IH. destruct IH as [IHd IHr].
  destruct isDir; cbn [negb andb].
  - destruct (stat (join path name)); cbn [fst snd]; [| done].
    rewrite !filter_cons_True by done. by rewrite IHd.
  - repeat case_match; simplify_eq/=; try done;
      rewrite ?filter_cons_False by done; done.
Qed.

(** With [files = false] the loop adds directories only. *)
Lemma ls_loop_no_files (path : string) (mask : option string)
    (pos : nat) (entries : list (string * bool)) :
  Forall (λ e, is_dir_entry e = true) (loop path false mask pos entries).1.
Proof.
  revert pos. induction entries as [| [name isDir] rest IH]; intros pos;
    [by constructor |].
  cbn [ls_loop]. destruct (aborted pos); [by constructor |].
  specialize (IH (S pos)).
  destruct (loop path false mask (S pos) rest) as [more ret].
  destruct isDir; cbn [negb andb orb]; [| done].
  destruct (stat (join path name)); cbn [fst]; [| done].
  by constructor.
Qed.

(** One round of the loop when the request is not aborted. *)
Lemma ls_loop_step (path : string) (files : bool) (mask : option string) (pos : nat)
    (entry : string * bool) (rest : list (string * bool)) :
  aborted pos = false →
  loop path files mask pos (entry :: rest)
  = (match (if ls_wanted makeMatcher files mask entry then stat (join path entry.1) else None)
     with
     | Some st => ls_entry entry st :: (loop path files mask (S pos) rest).1
     | None => (loop path files mask (S pos) rest).1
     end, (loop path files mask (S pos) rest).2).
Proof.
  intros Hab. destruct entry as [name isDir]. cbn [ls_loop]. rewrite Hab.
  unfold ls_wanted, ls_entry. cbn [fst snd].
  destruct (loop path files mask (S pos) rest) as [more ret].
  destruct isDir, files; cbn [negb andb orb fst snd].
  - by destruct (stat _).
  - by destruct (stat _).
  - destruct (truthy_param mask); cbn [negb andb orb]; [| by destruct (stat _)].
    destruct (makeMatcher mask name); cbn [negb]; [by destruct (stat _) | done].
  - done.
Qed.

(** A stream entry that the loop wants and can [stat] is added, when the
    request is not aborted by the time the loop gets to it. *)
Lemma ls_loop_lists (path : string) (files : bool) (mask : option string)
    (entries : list (string * bool)) :
  ∀ (pos i : nat) (entry : string * bool) (st : Stats),
    entries !! i = Some entry →
    (∀ j, (j ≤ i)%nat → aborted (pos + j) = false) →
    ls_wanted makeMatcher files mask entry = true →
    stat (join path entry.1) = Some st →
    ls_entry entry st ∈ (loop path files mask pos entries).1.
Proof.
  induction entries as [| e rest IH]; intros pos i entry st Hi Hab Hw Hst; [done |].
  assert (Hpos : aborted pos = false).
  { rewrite <- (Nat.add_0_r pos). apply Hab. lia. }
  rewrite ls_loop_step by done. cbn [fst].
  destruct i as [| i].
  - injection Hi as ->. rewrite Hw, Hst. by left.
  - assert (Hin : ls_entry entry st ∈ (loop path files mask (S pos) rest).1).
    { apply (IH (S pos) i); try done.
      intros j Hj. replace (S pos + j)%nat with (pos + S j)%nat by lia. apply Hab. lia. }
    destruct (if ls_wanted makeMatcher files mask e then _ else _); [by right | done].
Qed.

End Lister.

(** C8: in [get_ls] the mask filters non-directory entries only: the
    directory entries of the listing are the same whatever the mask is (and
    whatever the matcher built from it accepts), in particular the same as
    with no mask at all; with [files = false] every entry of the listing is
    a directory, whatever the mask; and the directories are there: outside
    the listing of drives, every directory of the stream that the loop gets
    to before the request is aborted and that [stat] accepts is in the
    listing, whatever the mask, the matcher and the [files] toggle. *)
Theorem get_ls_mask_spares_directories (IS_WINDOWS : bool)
    (getDrives : option (list string)) (makeMatcher : option string → string → bool)
    (resolve : string → string) (join : string → string → string)
    (dirStream : string → list (string * bool) * option string)
    (stat : string → option Stats) (aborted : nat → bool)
    (path : option string) (files : option bool) (fileMask : option string) :
  let ls := get_ls IS_WINDOWS getDrives makeMatcher resolve join dirStream stat aborted in
  filter (λ e, is_dir_entry e = true) (ls path files fileMask).1
  = filter (λ e, is_dir_entry e = true) (ls path files None).1
  ∧ Forall (λ e, is_dir_entry e = true) (ls path (Some false) fileMask).1
  ∧ (negb (truthy_param path) && IS_WINDOWS = false →
     ∀ (i : nat) (name : string) (st : Stats),
       (dirStream (ls_path resolve path)).1 !! i = Some (name, true) →
       (∀ j, (j ≤ i)%nat → aborted j = false) →
       stat (join (ls_path resolve path) name) = Some st →
       ls_entry (name, true) st ∈ (ls path files fileMask).1
       ∧ is_dir_entry (ls_entry (name, true) st) = true).
Proof.
  cbv zeta. unfold get_ls.
  destruct (negb (truthy_param path) && IS_WINDOWS).
  - split; [done |]. split; [| done].
    destruct getDrives as [drives|]; cbn [fst]; [| by constructor].
    induction drives; by constructor.
  - fold (ls_path resolve path). set (p := ls_path resolve path).
    destruct (dirStream p) as [entries err].
    split; [| split].
    + pose proof (ls_loop_dirs makeMatcher join stat aborted p (default true files)
                    (default true files) fileMask None 0 entries) as [Hd Hr].
      destruct (ls_loop _ _ _ _ p (default true files) fileMask 0 entries) as [a r].
      destruct (ls_loop _ _ _ _ p (default true files) None 0 entries) as [a' r'].
      cbn [fst snd] in *. subst r'.
      destruct r, err; exact Hd.
    + pose proof (ls_loop_no_files makeMatcher join stat aborted p fileMask 0 entries) as H.
      change (default true (Some false)) with false.
      destruct (ls_loop _ _ _ _ p false fileMask 0 entries) as [a r].
      destruct r, err; exact H.
    + intros _ i name st Hi Hab Hst. split; [| done].
      pose proof (ls_loop_lists makeMatcher join stat aborted p (default true files)
                    fileMask entries 0 i (name, true) st Hi Hab eq_refl Hst) as Hin.
      destruct (ls_loop _ _ _ _ p (default true files) fileMask 0 entries) as [a r].
      destruct r, err; exact Hin.
Qed.

Lemma get_ls_mask_spares_directories_witness :
  let ls := get_ls false None (λ _ _, false) id ls_join ls_stream ls_stat (λ _, false) in
  ls_entry ("sub", true) (mkStats 1 2 3) ∈ (ls (Some "/data") None (Some "*.none")).1
  ∧ e_n <$> (ls (Some "/data") None (Some "*.none")).1 = ["sub"].
Proof.
  split; [| reflexivity].
  apply (proj2 (proj2 (get_ls_mask_spares_directories false None (λ _ _, false) id ls_join
                         ls_stream ls_stat (λ _, false) (Some "/data") None
                         (Some "*.none")))
           eq_refl 0%nat "sub" (mkStats 1 2 3) eq_refl (λ _ _, eq_refl) eq_refl).
Defined.

(** A listing with two directories and two files, one of which the mask
    accepts. *)
Example get_ls_example :
  let ls := get_ls false None (λ _ name, bool_decide (name = "a.txt")) id
              (λ p n, p +:+ "/" +:+ n)
              (λ _, ([("sub", true); ("a.txt", false); ("b.bin", false); ("etc", true)], None))
              (λ _, Some (mkStats 1 2 3)) (λ _, false) in
  e_n <$> (ls (Some "/data") None (Some "*.txt")).1 = ["sub"; "a.txt"; "etc"]
  ∧ e_n <$> (ls (Some "/data") (Some false) (Some "*.txt")).1 = ["sub"; "etc"]
  ∧ e_n <$> (ls (Some "/data") None None).1 = ["sub"; "a.txt"; "b.bin"; "etc"].
Proof. cbv zeta. repeat split; reflexivity. Qed.

(** ** Arrays *)

Lemma indexOf_not_elem (x : loc) (l : list loc) : x ∉ l → indexOf x l = -1.
Proof.
  induction l as [| y l IH]; [done |]. intros Hx. apply not_elem_of_cons in Hx as [Hne Hx].
  cbn [indexOf]. rewrite decide_False by done. by rewrite (IH Hx).
Qed.

Lemma indexOf_elem (x : loc) (l : list loc) :
  x ∈ l →
  ∃ i : nat, indexOf x l = Z.of_nat i ∧ l !! i = Some x ∧ x ∉ take i l.
Proof.
  induction l as [| y l IH]; [by intros ?%elem_of_nil |].
  intros Hx. cbn [indexOf]. destruct (decide (y = x)) as [-> | Hne].
  - exists 0%nat. repeat split. cbn. apply not_elem_of_nil.
  - apply elem_of_cons in Hx as [-> | Hx]; [done |].
    destruct (IH Hx) as (i & Hi & Hl & Ht). exists (S i). rewrite Hi.
    destruct (Z.ltb_spec (Z.of_nat i) 0); [lia |].
    repeat split; [lia | done |]. cbn. by apply not_elem_of_cons.
Qed.

Lemma splice_last (l : list loc) : splice (-1) 1 l = take (length l - 1) l.
Proof.
  unfold splice. cbn [Z.ltb Z.compare].
  destruct l as [| x l]; [done |].
  rewrite Z.max_l by (cbn [length]; lia).
  rewrite Z.max_l by lia.
  rewrite Z.min_l by (cbn [length]; lia).
  replace (Z.to_nat (Z.of_nat (length (x :: l)) + -1)) with (length (x :: l) - 1)%nat by lia.
  replace (Z.to_nat (Z.of_nat (length (x :: l)) + -1 + 1)) with (length (x :: l)) by lia.
  by rewrite drop_all, app_nil_r.
Qed.

Lemma splice_at (i : nat) (l : list loc) :
  (i < length l)%nat → splice (Z.of_nat i) 1 l = delete i l.
Proof.
  intros Hi. unfold splice.
  destruct (Z.ltb_spec (Z.of_nat i) 0) as [Hlt | Hge]; [lia |].
  rewrite Z.min_l by lia. rewrite Z.max_l by lia. rewrite Z.min_l by lia.
  rewrite Nat2Z.id. replace (Z.to_nat (Z.of_nat i + 1)) with (S i) by lia.
  clear Hge. revert i Hi. induction l as [| x l IH]; intros i Hi; [cbn in Hi; lia |].
  destruct i as [| i]; [done |]. cbn. f_equal. apply IH. cbn in Hi. lia.
Qed.

(** ** Deleting *)


Lemma splice_sublist (start deleteCount : Z) (l : list loc) :
  splice start deleteCount l `sublist_of` l.
Proof.
  unfold splice. cbv zeta.
  set (a := if start <? 0 then _ else _).
  assert (Ha : 0 ≤ a ≤ Z.of_nat (length l)) by (unfold a; destruct (Z.ltb_spec start 0); lia).
  set (i := Z.to_nat a). set (j := Z.to_nat _).
  assert (Hij : (i ≤ j)%nat) by (unfold i, j; lia).
  rewrite <- (take_drop i l) at 3. apply sublist_app; [done |].
  replace j with (i + (j - i))%nat by lia. rewrite <- drop_drop. apply sublist_drop.
Qed.

Lemma shrunk_refl (s : Store) : shrunk s s.
Proof. intros l. done. Qed.

Lemma shrunk_trans (s1 s2 s3 : Store) : shrunk s1 s2 → shrunk s2 s3 → shrunk s1 s3.
Proof.
  intros H12 H23 l. destruct (H12 l) as (Hp & Hs & Hn), (H23 l) as (Hp' & Hs' & Hn').
  split; [congruence |]. split; [by etrans |]. by rewrite Hn'.
Qed.

(** What one turn of a callback does to the tree: it takes children away,
    if anything. *)
Lemma del_vfs_turn_shrunk (c : DelCallback) (s : Store) : shrunk s (del_vfs_turn c s).2.
Proof.
  destruct c as [uri | uri node | node p | code]; cbn [del_vfs_turn].
  - destruct (urlToNodeOriginal s uri); apply shrunk_refl.
  - destruct (urlToNodeOriginal s (Path.dirname uri)); apply shrunk_refl.
  - destruct (children (node_at s p)) as [cs|] eqn:Hc; [| apply shrunk_refl].
    intros l. cbn [snd]. rewrite node_at_set_children. case_decide as Hpl; [subst l | done].
    cbn [props children]. split; [done |]. split.
    + rewrite children_list_some. unfold children_list. rewrite Hc. apply splice_sublist.
    + by rewrite Hc.
  - apply shrunk_refl.
Qed.

(** Only the last turn of a callback writes. *)
Lemma del_vfs_turn_reads (c : DelCallback) (s : Store) :
  is_resumed c = false → (del_vfs_turn c s).2 = s.
Proof.
  destruct c as [uri | uri node | node p | code]; cbn [del_vfs_turn is_resumed]; try done.
  - by destruct (urlToNodeOriginal s uri).
  - by destruct (urlToNodeOriginal s (Path.dirname uri)).
Qed.

Lemma del_vfs_run_shrunk (sched : list nat) (cs : list DelCallback) (s : Store) :
  shrunk s (del_vfs_run sched cs s).2.
Proof.
  revert cs s. induction sched as [| i sched IH]; intros cs s; [apply shrunk_refl |].
  cbn [del_vfs_run]. destruct (cs !! i) as [c|]; [| apply IH].
  pose proof (del_vfs_turn_shrunk c s) as Hturn.
  destruct (del_vfs_turn c s) as [c' s1]. cbn [snd] in Hturn.
  eapply shrunk_trans; [exact Hturn | apply IH].
Qed.

Lemma del_vfs_round_shrunk (cs : list DelCallback) (s : Store) :
  shrunk s (del_vfs_round cs s).2.
Proof.
  revert s. induction cs as [| c cs IH]; intros s; [apply shrunk_refl |].
  cbn [del_vfs_round]. pose proof (del_vfs_turn_shrunk c s) as Hturn.
  destruct (del_vfs_turn c s) as [c' s1]. cbn [snd] in Hturn.
  specialize (IH s1). destruct (del_vfs_round cs s1) as [cs' s2]. cbn [snd] in *.
  by eapply shrunk_trans.
Qed.

Lemma del_vfs_round_length (cs : list DelCallback) (s : Store) :
  length (del_vfs_round cs s).1 = length cs.
Proof.
  revert s. induction cs as [| c cs IH]; intros s; [done |].
  cbn [del_vfs_round]. destruct (del_vfs_turn c s) as [c' s1].
  specialize (IH s1). destruct (del_vfs_round cs s1) as [cs' s2]. cbn in *. by rewrite IH.
Qed.

(** A round in which no callback is at its last turn reads the tree and
    leaves it as it is. *)
Lemma del_vfs_round_reads (cs : list DelCallback) (s : Store) :
  Forall (λ c, is_resumed c = false) cs →
  del_vfs_round cs s = ((λ c, (del_vfs_turn c s).1) <$> cs, s).
Proof.
  induction 1 as [| c cs Hc _ IH]; [done |].
  cbn [del_vfs_round fmap list_fmap]. pose proof (del_vfs_turn_reads c s Hc) as Hs.
  destruct (del_vfs_turn c s) as [c' s1]. cbn [fst snd] in *. subst s1.
  rewrite IH. reflexivity.
Qed.

Lemma del_vfs_start_awaits (uri : value) (s : Store) :
  is_resumed (del_vfs_start uri) = false
  ∧ is_resumed (del_vfs_turn (del_vfs_start uri) s).1 = false.
Proof.
  destruct uri as [| | b | z | u | r]; try done.
  cbn [del_vfs_start]. destruct (decide (u = "/")); [done |].
  cbn [del_vfs_turn]. by destruct (urlToNodeOriginal s u).
Qed.

(** The last turn of a callback whose resolutions were read on [s], taken
    on [s], is the callback run alone on [s]. *)
Lemma del_vfs_uri_turn (uri : value) (s : Store) :
  is_resolved (del_vfs_resolved s uri) = true
  ∧ del_vfs_turn (del_vfs_resolved s uri) s
    = (Settled (del_vfs_uri uri s).1, (del_vfs_uri uri s).2).
Proof.
  unfold del_vfs_resolved.
  destruct uri as [| | b | z | u | r]; try done.
  cbn [del_vfs_start del_vfs_uri]. destruct (decide (u = "/")); [done |].
  cbn [del_vfs_turn]. destruct (urlToNodeOriginal s u) as [node|]; [| done].
  cbn [del_vfs_turn fst]. destruct (urlToNodeOriginal s (Path.dirname u)) as [p|]; [| done].
  cbn [del_vfs_turn fst is_resolved]. split; [done |].
  by destruct (children (node_at s p)).
Qed.

(** The rounds of [del_vfs_each]: the first two read the tree as it was,
    the third does the splices. *)
Lemma del_vfs_each_resolved (uris : list value) (s : Store) :
  del_vfs_each uris s
  = (mapM del_vfs_code (del_vfs_round (del_vfs_resolved s <$> uris) s).1,
     (del_vfs_round (del_vfs_resolved s <$> uris) s).2).
Proof.
  unfold del_vfs_each.
  rewrite del_vfs_round_reads
    by (apply Forall_fmap, Forall_true; intros u; apply (del_vfs_start_awaits u s)).
  rewrite <- list_fmap_compose.
  rewrite del_vfs_round_reads
    by (apply Forall_fmap, Forall_true; intros u; apply (del_vfs_start_awaits u s)).
  rewrite <- list_fmap_compose.
  change ((λ c, (del_vfs_turn c s).1) ∘ ((λ c, (del_vfs_turn c s).1) ∘ del_vfs_start))
    with (del_vfs_resolved s).
  by destruct (del_vfs_round (del_vfs_resolved s <$> uris) s).
Qed.

(** In the last round a callback ends with the code of its turn on the
    tree as it was: the splices of the callbacks before it neither make
    nor delete a [children] field. *)
Lemma del_vfs_round_codes (s : Store) (cs : list DelCallback) (t : Store) :
  Forall (λ c, is_resolved c = true) cs →
  shrunk s t →
  (del_vfs_round cs t).1 = (λ c, (del_vfs_turn c s).1) <$> cs.
Proof.
  intros Hcs. revert t. induction Hcs as [| c cs Hc _ IH]; intros t Hst; [done |].
  cbn [del_vfs_round fmap list_fmap].
  pose proof (del_vfs_turn_shrunk c t) as Hturn.
  assert (Hcode : (del_vfs_turn c t).1 = (del_vfs_turn c s).1).
  { destruct c as [uri | uri node | node p | code]; try done. cbn [del_vfs_turn].
    destruct (Hst p) as (_ & _ & Hn).
    destruct (children (node_at s p)) as [cs0|] eqn:Hs,
             (children (node_at t p)) as [cs1|] eqn:Ht; try done.
    - by pose proof (proj1 Hn eq_refl).
    - by pose proof (proj2 Hn eq_refl). }
  destruct (del_vfs_turn c t) as [c' t1]. cbn [fst snd] in *.
  specialize (IH t1 (shrunk_trans _ _ _ Hst Hturn)).
  destruct (del_vfs_round cs t1) as [cs' t2]. cbn [fst] in *. by rewrite Hcode, IH.
Qed.

Lemma mapM_settled (codes : list Z) : mapM del_vfs_code (Settled <$> codes) = Some codes.
Proof. by apply mapM_fmap_Some. Qed.

(** Every entry is answered, with the code it would get alone on the tree
    as it was before the call. *)
Lemma del_vfs_each_codes (uris : list value) (s : Store) :
  (del_vfs_each uris s).1 = Some ((λ uri, (del_vfs_uri uri s).1) <$> uris).
Proof.
  rewrite del_vfs_each_resolved. cbn [fst].
  rewrite (del_vfs_round_codes s _ s);
    [| apply Forall_fmap, Forall_true; intros u; apply del_vfs_uri_turn | apply shrunk_refl].
  rewrite <- list_fmap_compose.
  rewrite (list_fmap_ext _ (Settled ∘ (λ uri, (del_vfs_uri uri s).1)) uris)
    by (intros i u _; cbn; by rewrite (proj2 (del_vfs_uri_turn u s))).
  rewrite list_fmap_compose. apply mapM_settled.
Qed.

(** Three rounds end every callback. *)
Lemma del_vfs_rounds_settled (uris : list value) (s : Store) :
  del_vfs (Some uris) s
  = (Returned ((λ uri, (del_vfs_uri uri s).1) <$> uris), (del_vfs_each uris s).2).
Proof.
  unfold del_vfs. pose proof (del_vfs_each_codes uris s) as H.
  destruct (del_vfs_each uris s) as [codes s']. cbn [fst snd] in *. by subst codes.
Qed.

(** A batch of one entry is that callback run alone. *)
Lemma del_vfs_single (uri : value) (s : Store) :
  del_vfs (Some [uri]) s = (Returned [(del_vfs_uri uri s).1], (del_vfs_uri uri s).2).
Proof.
  rewrite del_vfs_rounds_settled. cbn [fmap list_fmap]. f_equal.
  rewrite del_vfs_each_resolved. cbn [snd fmap list_fmap del_vfs_round].
  rewrite (proj2 (del_vfs_uri_turn uri s)). reflexivity.
Qed.

Lemma del_vfs_shrunk (uris : list value) (s : Store) :
  shrunk s (del_vfs (Some uris) s).2.
Proof.
  rewrite del_vfs_rounds_settled, del_vfs_each_resolved. cbn [snd].
  apply del_vfs_round_shrunk.
Qed.

(** The rounds are one of the orders in which the callbacks can take
    their turns. *)
Lemma del_vfs_run_app (sched1 sched2 : list nat) (cs : list DelCallback) (s : Store) :
  del_vfs_run (sched1 ++ sched2) cs s
  = del_vfs_run sched2 (del_vfs_run sched1 cs s).1 (del_vfs_run sched1 cs s).2.
Proof.
  revert cs s. induction sched1 as [| i sched1 IH]; intros cs s; [done |].
  cbn [app del_vfs_run]. destruct (cs !! i) as [c|]; [| apply IH].
  destruct (del_vfs_turn c s) as [c' s1]. apply IH.
Qed.

Lemma del_vfs_round_run_from (pre cs : list DelCallback) (s : Store) :
  del_vfs_run (seq (length pre) (length cs)) (pre ++ cs) s
  = ((pre ++ (del_vfs_round cs s).1)%list, (del_vfs_round cs s).2).
Proof.
  revert pre s. induction cs as [| c cs IH]; intros pre s; [done |].
  cbn [length seq del_vfs_run del_vfs_round].
  rewrite lookup_app_r, Nat.sub_diag by done. cbn [lookup list_lookup].
  destruct (del_vfs_turn c s) as [c' s1].
  replace (<[length pre := c']> (pre ++ c :: cs)%list) with ((pre ++ [c']) ++ cs)%list.
  - specialize (IH (pre ++ [c'])%list s1). rewrite length_app in IH. cbn [length] in IH.
    rewrite Nat.add_1_r in IH. rewrite IH.
    destruct (del_vfs_round cs s1) as [cs' s2]. cbn [fst snd]. by rewrite <- app_assoc.
  - rewrite insert_app_r_alt, Nat.sub_diag by done. cbn. by rewrite <- app_assoc.
Qed.

Lemma del_vfs_round_run (cs : list DelCallback) (s : Store) :
  del_vfs_round cs s = del_vfs_run (seq 0 (length cs)) cs s.
Proof.
  pose proof (del_vfs_round_run_from [] cs s) as H. cbn [length app] in H.
  rewrite H. by destruct (del_vfs_round cs s).
Qed.

Lemma del_vfs_run_round (n : nat) (cs : list DelCallback) (s : Store) :
  length cs = n → del_vfs_run (seq 0 n) cs s = del_vfs_round cs s.
Proof. intros <-. by rewrite del_vfs_round_run. Qed.

Lemma del_vfs_each_run (uris : list value) (s : Store) :
  del_vfs_each uris s
  = (mapM del_vfs_code
       (del_vfs_run (in_step (length uris)) (del_vfs_start <$> uris) s).1,
     (del_vfs_run (in_step (length uris)) (del_vfs_start <$> uris) s).2).
Proof.
  unfold del_vfs_each, in_step. rewrite !del_vfs_run_app.
  set (cs0 := del_vfs_start <$> uris).
  assert (H0 : length cs0 = length uris) by (unfold cs0; by rewrite length_fmap).
  rewrite (del_vfs_run_round _ cs0 s H0).
  pose proof (del_vfs_round_length cs0 s) as H1. rewrite H0 in H1.
  destruct (del_vfs_round cs0 s) as [cs1 s1]. cbn [fst snd] in *.
  rewrite (del_vfs_run_round _ cs1 s1 H1).
  pose proof (del_vfs_round_length cs1 s1) as H2. rewrite H1 in H2.
  destruct (del_vfs_round cs1 s1) as [cs2 s2]. cbn [fst snd] in *.
  rewrite (del_vfs_run_round _ cs2 s2 H2).
  by destruct (del_vfs_round cs2 s2).
Qed.





(** The test of the spec: a valid and an invalid URI give one success code
    and one error code, and only the valid node disappears. *)
Example del_vfs_mixed :
  (del_vfs (Some [VStr "/b"; VStr "/nothing"]) del_store).1 = Returned [0; HTTP_NOT_FOUND]
  ∧ children (node_at (del_vfs (Some [VStr "/b"; VStr "/nothing"]) del_store).2 vfs)
    = Some [1%nat; 3%nat].
Proof. split; reflexivity. Qed.

(** Two entries for one node: both callbacks get the node before either
    splices, both are answered [0], and the second splice, not finding the
    node, takes the last child away. *)
Example del_vfs_same_twice :
  del_vfs (Some [VStr "/b"; VStr "/b"]) del_store
  = (Returned [0; 0], set_children vfs (Some [1%nat]) del_store).
Proof. reflexivity. Qed.



(** ** Moving *)

Lemma pull_not_elem (x : loc) (l : list loc) : x ∉ l → pull x l = l.
Proof.
  intros Hx. unfold pull. induction l as [| y l IH]; [done |].
  apply not_elem_of_cons in Hx as [Hne Hx].
  rewrite filter_cons_True by done. by rewrite IH.
Qed.

Lemma not_elem_of_pull (x : loc) (l : list loc) : x ∉ pull x l.
Proof. unfold pull. intros [H _]%list_elem_of_filter. done. Qed.

Section Pulled.

Variables (s : Store) (fromNode oldParent : loc).

Lemma pulled_first_step :
  children (node_at (set_children oldParent
                       (pull fromNode <$> children (node_at s oldParent)) s) oldParent)
  = pull fromNode <$> children (node_at s oldParent).
Proof. by rewrite node_at_set_children_eq. Qed.

Lemma pulled_first_step_list :
  children_list (node_at (set_children oldParent
                            (pull fromNode <$> children (node_at s oldParent)) s) oldParent)
  = pull fromNode (children_list (node_at s oldParent)).
Proof.
  unfold children_list. rewrite pulled_first_step.
  by destruct (children (node_at s oldParent)).
Qed.

Lemma pulled_old_parent_list :
  children_list (node_at (pulled fromNode oldParent s) oldParent)
  = pull fromNode (children_list (node_at s oldParent)).
Proof.
  pose proof pulled_first_step_list as H1.
  unfold pulled. cbv zeta. case_bool_decide as He.
  - rewrite node_at_set_children_eq. cbn. by rewrite <- H1, He.
  - exact H1.
Qed.

Lemma pulled_old_parent_deleted :
  pull fromNode (children_list (node_at s oldParent)) = [] →
  children (node_at (pulled fromNode oldParent s) oldParent) = None.
Proof.
  intros He. unfold pulled. cbv zeta. rewrite bool_decide_eq_true_2.
  - by rewrite node_at_set_children_eq.
  - by rewrite pulled_first_step_list.
Qed.

Lemma pulled_old_parent_kept :
  pull fromNode (children_list (node_at s oldParent)) ≠ [] →
  children (node_at (pulled fromNode oldParent s) oldParent)
  = Some (pull fromNode (children_list (node_at s oldParent))).
Proof.
  intros Hne. unfold pulled. cbv zeta. rewrite bool_decide_eq_false_2.
  - rewrite pulled_first_step. unfold children_list in *.
    by destruct (children (node_at s oldParent)).
  - by rewrite pulled_first_step_list.
Qed.

Lemma pulled_other (l : loc) :
  l ≠ oldParent → node_at (pulled fromNode oldParent s) l = node_at s l.
Proof.
  intros Hl. unfold pulled. cbv zeta. case_bool_decide;
    by rewrite ?node_at_set_children_ne by done.
Qed.

Lemma pulled_props (l : loc) :
  props (node_at (pulled fromNode oldParent s) l) = props (node_at s l).
Proof.
  unfold pulled. cbv zeta. case_bool_decide; by rewrite ?props_set_children.
Qed.

End Pulled.

(** The children after a move that passed the name check. *)
Lemma moved_children (s : Store) (fromNode parentNode oldParent : loc) :
  has_child s parentNode
    (λ x, bool_decide (getNodeName (props (node_at s fromNode)) = getNodeName x)) = false →
  children (node_at (moved fromNode parentNode oldParent s) parentNode)
  = Some ((children_list (node_at s parentNode) ++ [fromNode])%list)
  ∧ (oldParent ≠ parentNode →
     node_at (moved fromNode parentNode oldParent s) oldParent
     = node_at (pulled fromNode oldParent s) oldParent)
  ∧ (∀ l, l ≠ oldParent → l ≠ parentNode →
          node_at (moved fromNode parentNode oldParent s) l = node_at s l)
  ∧ (∀ l, props (node_at (moved fromNode parentNode oldParent s) l) = props (node_at s l)).
Proof.
  intros Hc. unfold moved. split; [| split; [| split]].
  - rewrite node_at_set_children_eq. cbn [children]. do 2 f_equal.
    destruct (decide (parentNode = oldParent)) as [-> | Hne].
    + rewrite pulled_old_parent_list. apply pull_not_elem. intros Hin.
      pose proof (has_child_false _ _ _ _ Hc Hin) as Hb. cbn in Hb.
      by apply bool_decide_eq_false in Hb.
    + by rewrite pulled_other.
  - intros Hne. by rewrite node_at_set_children_ne.
  - intros l Hlo Hlp. rewrite node_at_set_children_ne by done. by apply pulled_other.
  - intros l. rewrite props_set_children. apply pulled_props.
Qed.

(** Every way [move_vfs] ends. *)
Lemma move_vfs_cases (from parent : option string) (s : Store) :
  ((truthy_param from = false ∨ truthy_param parent = false)
   ∧ move_vfs from parent s = (Failed (mkApiError HTTP_BAD_REQUEST None), s))
  ∨ ∃ f p, from = Some f ∧ parent = Some p ∧
    ((urlToNodeOriginal s f = None
      ∧ move_vfs from parent s
        = (Failed (mkApiError HTTP_NOT_FOUND (Some "from not found")), s))
     ∨ (urlToNodeOriginal s f = Some vfs
        ∧ move_vfs from parent s
          = (Failed (mkApiError HTTP_BAD_REQUEST (Some "from is root")), s))
     ∨ ∃ fromNode, urlToNodeOriginal s f = Some fromNode ∧ fromNode ≠ vfs ∧
       ((urlToNodeOriginal s p = None
         ∧ move_vfs from parent s
           = (Failed (mkApiError HTTP_NOT_FOUND (Some "parent not found")), s))
        ∨ ∃ parentNode, urlToNodeOriginal s p = Some parentNode ∧
          ((has_child s parentNode
              (λ x, bool_decide (getNodeName (props (node_at s fromNode)) = getNodeName x))
            = true
            ∧ move_vfs from parent s
              = (Failed (mkApiError HTTP_CONFLICT
                   (Some "item with same name already present in destination")), s))
           ∨ (has_child s parentNode
                (λ x, bool_decide (getNodeName (props (node_at s fromNode)) = getNodeName x))
              = false
              ∧ ((urlToNodeOriginal s (Path.dirname f) = None
                  ∧ move_vfs from parent s = (Thrown, s))
                 ∨ ∃ oldParent, urlToNodeOriginal s (Path.dirname f) = Some oldParent
                     ∧ move_vfs from parent s
                       = (Returned (), moved fromNode parentNode oldParent s)))))).
Proof.
  unfold move_vfs.
  destruct (truthy_param from) eqn:Hf; [| left; by auto].
  destruct (truthy_param parent) eqn:Hp; [| left; by auto].
  right. destruct from as [f|]; [| done]. destruct parent as [p|]; [| done].
  exists f, p. split; [done |]. split; [done |]. cbn [negb orb].
  change (default "" (Some f)) with f. change (default "" (Some p)) with p.
  destruct (urlToNodeOriginal s f) as [fromNode|]; [| left; by auto].
  right. destruct (decide (fromNode = vfs)) as [-> | Hroot]; [left; by auto |].
  right. exists fromNode. split; [done |]. split; [done |].
  destruct (urlToNodeOriginal s p) as [parentNode|]; [| left; by auto].
  right. exists parentNode. split; [done |].
  destruct (has_child s parentNode _) eqn:Hc; [left; by auto |].
  right. split; [done |].
  destruct (urlToNodeOriginal s (Path.dirname f)) as [oldParent|]; [| left; by auto].
  right. exists oldParent. auto.
Qed.

Lemma move_vfs_returned (from parent : option string) (s s' : Store) :
  move_vfs from parent s = (Returned (), s') →
  ∃ f p fromNode parentNode oldParent,
    from = Some f ∧ parent = Some p
    ∧ urlToNodeOriginal s f = Some fromNode
    ∧ urlToNodeOriginal s p = Some parentNode
    ∧ urlToNodeOriginal s (Path.dirname f) = Some oldParent
    ∧ has_child s parentNode
        (λ x, bool_decide (getNodeName (props (node_at s fromNode)) = getNodeName x)) = false
    ∧ s' = moved fromNode parentNode oldParent s.
Proof.
  intros Hmove.
  destruct (move_vfs_cases from parent s)
    as [[_ H] | (f & p & -> & -> & [[_ H] | [[_ H] | (fromNode & Hf & _ &
         [[_ H] | (parentNode & Hp & [[_ H] | (Hc & [[_ H] | (o & Ho & H)])])])]])];
    rewrite H in Hmove; try discriminate.
  injection Hmove as <-. exists f, p, fromNode, parentNode, o. auto 10.
Qed.

(** C5: a [move_vfs] call that does not succeed leaves the tree as it was.
    It is answered with bad-request when [from] or [parent] is missing and
    when [from] resolves to the root, with not-found when [from] or
    [parent] does not resolve, and with conflict when the destination
    already has a child with the effective name of the moved node. *)
Theorem move_vfs_failure_leaves_tree (from parent : option string) (s : Store) :
  (is_returned (move_vfs from parent s).1 = false → (move_vfs from parent s).2 = s)
  ∧ (truthy_param from = false ∨ truthy_param parent = false →
     move_vfs from parent s = (Failed (mkApiError HTTP_BAD_REQUEST None), s))
  ∧ (∀ f p, from = Some f → parent = Some p → f ≠ "" → p ≠ "" →
     (urlToNodeOriginal s f = None →
      ∃ e, move_vfs from parent s = (Failed e, s) ∧ status e = HTTP_NOT_FOUND)
     ∧ (urlToNodeOriginal s f = Some vfs →
        ∃ e, move_vfs from parent s = (Failed e, s) ∧ status e = HTTP_BAD_REQUEST)
     ∧ (∀ fromNode, urlToNodeOriginal s f = Some fromNode → fromNode ≠ vfs →
        (urlToNodeOriginal s p = None →
         ∃ e, move_vfs from parent s = (Failed e, s) ∧ status e = HTTP_NOT_FOUND)
        ∧ (∀ parentNode, urlToNodeOriginal s p = Some parentNode →
           has_child s parentNode
             (λ x, bool_decide (getNodeName (props (node_at s fromNode)) = getNodeName x))
           = true →
           ∃ e, move_vfs from parent s = (Failed e, s) ∧ status e = HTTP_CONFLICT))).
Proof.
  split; [| split].
  - destruct (move_vfs_cases from parent s)
      as [[_ ->] | (f & p & -> & -> & [[_ ->] | [[_ ->] | (fromNode & _ & _ &
           [[_ ->] | (parentNode & _ & [[_ ->] | (_ & [[_ ->] | (o & _ & ->)])])])]])];
      done.
  - intros H. unfold move_vfs. by destruct H as [-> | ->]; rewrite ?orb_true_r.
  - intros f p -> -> Hf Hp.
    assert (Htf : truthy_param (Some f) = true).
    { unfold truthy_param. cbn. by destruct f. }
    assert (Htp : truthy_param (Some p) = true).
    { unfold truthy_param. cbn. by destruct p. }
    unfold move_vfs. rewrite Htf, Htp. cbn [negb orb].
    change (default "" (Some f)) with f. change (default "" (Some p)) with p.
    split; [| split].
    + intros ->. eauto.
    + intros ->. rewrite decide_True by done. eauto.
    + intros fromNode -> Hroot. rewrite decide_False by done. split.
      * intros ->. eauto.
      * intros parentNode -> ->. eauto.
Qed.

Lemma move_vfs_failure_leaves_tree_witness :
  (move_vfs (Some "/a/x") (Some "/b") move_store).2 = move_store
  ∧ (∃ e, move_vfs (Some "/a/x") (Some "/b") move_store = (Failed e, move_store)
          ∧ status e = HTTP_CONFLICT)
  ∧ (∃ e, move_vfs (Some "/") (Some "/b") move_store = (Failed e, move_store)
          ∧ status e = HTTP_BAD_REQUEST).
Proof.
  split; [| split].
  - apply (move_vfs_failure_leaves_tree (Some "/a/x") (Some "/b") move_store).
    reflexivity.
  - refine (proj2 (proj2 (proj2 (proj2 (proj2
      (move_vfs_failure_leaves_tree (Some "/a/x") (Some "/b") move_store))
        "/a/x" "/b" eq_refl eq_refl _ _)) 3%nat _ _) 2%nat _ _);
      (discriminate || reflexivity).
  - refine (proj1 (proj2 (proj2 (proj2
      (move_vfs_failure_leaves_tree (Some "/") (Some "/b") move_store))
        "/" "/b" eq_refl eq_refl _ _)) _); (discriminate || reflexivity).
Defined.

(** C2 (as amended): a successful [move_vfs] removes the moved node from
    the children of its old parent, deletes that [children] field when
    nothing is left in it, and appends the moved node at the end of the
    children of the destination; no other node changes, and no property of
    any node changes. *)
Theorem move_vfs_detaches_and_appends (from parent : option string) (s s' : Store) :
  move_vfs from parent s = (Returned (), s') →
  ∃ f p fromNode parentNode oldParent,
    from = Some f ∧ parent = Some p
    ∧ urlToNodeOriginal s f = Some fromNode
    ∧ urlToNodeOriginal s p = Some parentNode
    ∧ urlToNodeOriginal s (Path.dirname f) = Some oldParent
    ∧ children (node_at s' parentNode)
      = Some ((children_list (node_at s parentNode) ++ [fromNode])%list)
    ∧ (oldParent ≠ parentNode →
       (fromNode ∉ children_list (node_at s' oldParent))
       ∧ children_list (node_at s' oldParent)
         = pull fromNode (children_list (node_at s oldParent))
       ∧ (children (node_at s' oldParent) = None
          ↔ pull fromNode (children_list (node_at s oldParent)) = []))
    ∧ (∀ l, l ≠ oldParent → l ≠ parentNode → node_at s' l = node_at s l)
    ∧ (∀ l, props (node_at s' l) = props (node_at s l)).
Proof.
  intros Hmove.
  destruct (move_vfs_returned _ _ _ _ Hmove)
    as (f & p & fromNode & parentNode & o & -> & -> & Hf & Hp & Ho & Hc & ->).
  destruct (moved_children s fromNode parentNode o Hc) as (Hdst & Hold & Hoth & Hprops).
  exists f, p, fromNode, parentNode, o. repeat (split; [done |]).
  split; [| done]. intros Hne. rewrite (Hold Hne), pulled_old_parent_list.
  split; [apply not_elem_of_pull |]. split; [done |]. split.
  - intros Hnone.
    destruct (decide (pull fromNode (children_list (node_at s o)) = [])) as [He | He];
      [done |].
    rewrite (pulled_old_parent_kept _ _ _ He) in Hnone. done.
  - apply pulled_old_parent_deleted.
Qed.

Lemma move_vfs_detaches_and_appends_witness :
  ∃ s', move_vfs (Some "/a/x") (Some "/") move_store = (Returned (), s')
        ∧ children (node_at s' vfs) = Some [1%nat; 2%nat; 3%nat]
        ∧ children (node_at s' 1%nat) = None.
Proof.
  eexists. split; [reflexivity |].
  destruct (move_vfs_detaches_and_appends (Some "/a/x") (Some "/") move_store _ eq_refl)
    as (f & p & fromNode & parentNode & o & [= <-] & [= <-] & [= <-] & [= <-] & [= <-]
        & Hdst & Hold & _).
  split; [exact Hdst |]. apply Hold; [discriminate | reflexivity].
Defined.

(** The moved node is not put in front: moving [x] out of [a] into the root,
    which holds [a] and [b], leaves the root with [a], [b], [x]. *)
Lemma move_vfs_does_not_prepend :
  (move_vfs (Some "/a/x") (Some "/") move_store).1 = Returned ()
  ∧ urlToNodeOriginal move_store "/a/x" = Some 3%nat
  ∧ urlToNodeOriginal move_store "/" = Some vfs
  ∧ children (node_at move_store vfs) = Some [1%nat; 2%nat]
  ∧ children (node_at (move_vfs (Some "/a/x") (Some "/") move_store).2 vfs)
    = Some [1%nat; 2%nat; 3%nat]
  ∧ ¬ move_vfs_prepends.
Proof.
  repeat (split; [reflexivity |]).
  intros H.
  specialize (H "/a/x" "/" move_store _ 3%nat vfs eq_refl eq_refl eq_refl).
  vm_compute in H. discriminate.
Qed.

(** ** Free names *)

Lemma candidate_inj (noExt ext : string) : Inj (=) (=) (candidate noExt ext).
Proof.
  intros i j H. unfold candidate in H.
  apply String.app_inj in H. apply (String.app_inj " ") in H.
  apply string_app_inv_tail in H. by apply pretty_nat_inj in H.
Qed.

Lemma candidate_length (noExt ext : string) (idx : nat) :
  (String.length noExt + String.length ext < String.length (candidate noExt ext idx))%nat.
Proof. unfold candidate. rewrite !string_length_app. cbn. lia. Qed.

Lemma no_ext_length (name : string) :
  (String.length name
   ≤ String.length (no_ext name) + String.length (Path.extname name))%nat.
Proof.
  unfold no_ext. destruct (truthy _); [| lia].
  unfold slice_off_end. rewrite string_length_of_list, length_take, string_length_to_list.
  lia.
Qed.

Lemma candidate_not_name (name : string) (idx : nat) :
  candidate (no_ext name) (Path.extname name) idx ≠ name.
Proof.
  intros H. pose proof (candidate_length (no_ext name) (Path.extname name) idx) as Hl.
  rewrite H in Hl. pose proof (no_ext_length name). lia.
Qed.

Section FreeName.

Variables (taken : string → bool) (noExt ext : string).

(** The loop stops within as many rounds as there are taken names: each
    round tries a name it has not tried before. *)
Lemma free_name_terminates (fuel : nat) :
  ∀ (l : list string) (idx : nat) (name : string),
    (length l ≤ fuel)%nat →
    (taken name = true → name ∈ l) →
    (∀ j, (idx ≤ j)%nat → taken (candidate noExt ext j) = true →
          candidate noExt ext j ∈ l) →
    (∀ j, (idx ≤ j)%nat → candidate noExt ext j ≠ name) →
    is_Some (free_name fuel taken noExt ext idx name).
Proof.
  induction fuel as [| fuel IH]; intros l idx name Hlen Hname Hcand Hfresh;
    cbn [free_name]; destruct (taken name) eqn:Ht; try by eexists.
  - specialize (Hname eq_refl). destruct l; [by apply elem_of_nil in Hname |].
    cbn in Hlen. lia.
  - specialize (Hname eq_refl).
    apply (IH (filter (λ x, x ≠ name) l)).
    + pose proof (length_filter_lt (λ x, x ≠ name) l name Hname) as Hlt.
      assert (¬ name ≠ name) as Hnn by (intros Hn; by apply Hn).
      specialize (Hlt Hnn). lia.
    + intros Hc. apply list_elem_of_filter. split; [by apply Hfresh | by apply Hcand].
    + intros j Hj Hc. apply list_elem_of_filter.
      split; [apply Hfresh; lia | apply Hcand; [lia | done]].
    + intros j Hj He. apply candidate_inj in He. lia.
Qed.

(** What the loop returns: the first of [name], [candidate idx],
    [candidate (idx + 1)], ... that is not taken. *)
Lemma free_name_spec (fuel : nat) :
  ∀ (idx : nat) (name r : string),
    free_name fuel taken noExt ext idx name = Some r →
    taken r = false
    ∧ ((taken name = false ∧ r = name)
       ∨ (taken name = true
          ∧ ∃ k, (idx ≤ k)%nat ∧ r = candidate noExt ext k
                 ∧ ∀ j, (idx ≤ j < k)%nat → taken (candidate noExt ext j) = true)).
Proof.
  induction fuel as [| fuel IH]; intros idx name r; cbn [free_name];
    destruct (taken name) eqn:Ht; try done.
  - intros [= <-]. auto.
  - intros H. destruct (IH _ _ _ H) as [Hr [[Hc ->] | [Hc (k & Hk & -> & Hbelow)]]].
    + split; [done |]. right. split; [done |]. exists idx.
      split; [done |]. split; [done |]. intros j Hj. lia.
    + split; [done |]. right. split; [done |]. exists k.
      split; [lia |]. split; [done |]. intros j Hj.
      destruct (decide (j = idx)) as [-> | Hne]; [done |]. apply Hbelow. lia.
  - intros [= <-]. auto.
Qed.

End FreeName.

Lemma candidate_not_empty (noExt ext : string) (idx : nat) : candidate noExt ext idx ≠ "".
Proof.
  intros H. apply (f_equal String.length) in H.
  pose proof (candidate_length noExt ext idx). rewrite H in *. cbn in *. lia.
Qed.

(** ** Adding *)

(** The node that [add_vfs] makes goes by the name the loop found. *)
Lemma new_child_name (fuel : nat) (taken : string → bool) (child : Obj) (name1 : string) :
  free_name fuel taken (no_ext (getNodeName child)) (Path.extname (getNodeName child)) 2
    (getNodeName child) = Some name1 →
  getNodeName (simplifyName (<["name" := VStr name1]> child)) = name1.
Proof.
  intros [_ Hwhich]%free_name_spec. rewrite getNodeName_simplifyName.
  destruct Hwhich as [[_ ->] | [_ (k & _ & -> & _)]].
  - apply getNodeName_renamed_same.
  - apply getNodeName_named, candidate_not_empty.
Qed.

Section Adding.

Variable isDirectory : string → option bool.
Variable baseUrl : string.
Variable encodeURIComponent : string → option string.

Abbreviation add := (add_vfs isDirectory baseUrl encodeURIComponent).

(** The loop of [add_vfs] always finds a name. *)
Lemma add_vfs_free_name (s : Store) (parentNode : loc) (name0 : string) :
  is_Some (free_name (S (length (children_list (node_at s parentNode))))
             (λ nm, has_child s parentNode (isSameFilenameAs nm))
             (no_ext name0) (Path.extname name0) 2 name0).
Proof.
  apply (free_name_terminates _ _ _ _ (child_names s parentNode)).
  - unfold child_names. rewrite length_fmap. lia.
  - apply has_child_names.
  - intros j _. apply has_child_names.
  - intros j _. apply candidate_not_name.
Qed.

(** A call of [add_vfs] that is not answered with an error has put the new
    node in front of the children of the parent, under the name the loop
    found; it returns when [encodeURIComponent] does, and throws when that
    throws. *)
Lemma add_vfs_not_failed (parent source name : option string) (s s' : Store)
    (r : outcome AddResult) :
  add parent source name s = (r, s') →
  (∀ e, r ≠ Failed e) →
  let name0 := getNodeName (new_child (drive_source source) name) in
  ∃ parentNode name1,
    (if truthy_param parent then urlToNodeOriginal s (default "" parent) else Some vfs)
    = Some parentNode
    ∧ free_name (S (length (children_list (node_at s parentNode))))
        (λ nm, has_child s parentNode (isSameFilenameAs nm))
        (no_ext name0) (Path.extname name0) 2 name0 = Some name1
    ∧ match encodeURIComponent
              (getNodeName (simplifyName (<["name" := VStr name1]>
                                            (new_child (drive_source source) name)))) with
      | Some encoded => ∃ link, r = Returned (mkAddResult name1 link)
      | None => r = Thrown
      end
    ∧ s' = set_children parentNode
             (Some (fresh (dom s) :: children_list (node_at s parentNode)))
             (<[fresh (dom s) :=
                  mkNode (simplifyName (<["name" := VStr name1]>
                                          (new_child (drive_source source) name))) None]> s).
Proof.
  intros Hadd Hok name0. unfold add_vfs in Hadd.
  destruct (negb (truthy_param source) && negb (truthy_param name));
    [injection Hadd as <- _; by destruct (Hok _ eq_refl) |].
  destruct (if truthy_param parent then _ else _) as [parentNode|];
    [| injection Hadd as <- _; by destruct (Hok _ eq_refl)].
  destruct (negb (nodeIsDirectory isDirectory (node_at s parentNode)));
    [injection Hadd as <- _; by destruct (Hok _ eq_refl) |].
  match type of Hadd with (if ?c then _ else _) = _ => destruct c end;
    [injection Hadd as <- _; by destruct (Hok _ eq_refl) |].
  destruct (add_vfs_free_name s parentNode name0) as [name1 Hfree].
  fold name0 in Hadd. rewrite Hfree in Hadd.
  exists parentNode, name1. split; [done |]. split; [done |].
  destruct (encodeURIComponent _) as [encoded|]; injection Hadd as <- <-; eauto.
Qed.

(** A call of [add_vfs] that returns. *)
Lemma add_vfs_returned (parent source name : option string) (s s' : Store)
    (res : AddResult) :
  add parent source name s = (Returned res, s') →
  let name0 := getNodeName (new_child (drive_source source) name) in
  ∃ parentNode name1 link,
    (if truthy_param parent then urlToNodeOriginal s (default "" parent) else Some vfs)
    = Some parentNode
    ∧ free_name (S (length (children_list (node_at s parentNode))))
        (λ nm, has_child s parentNode (isSameFilenameAs nm))
        (no_ext name0) (Path.extname name0) 2 name0 = Some name1
    ∧ Returned res = Returned (mkAddResult name1 link)
    ∧ s' = set_children parentNode
             (Some (fresh (dom s) :: children_list (node_at s parentNode)))
             (<[fresh (dom s) :=
                  mkNode (simplifyName (<["name" := VStr name1]>
                                          (new_child (drive_source source) name))) None]> s).
Proof.
  intros Hadd name0.
  destruct (add_vfs_not_failed _ _ _ _ _ _ Hadd ltac:(discriminate))
    as (parentNode & name1 & Hp & Hfree & Hr & Hs).
  exists parentNode, name1.
  destruct (encodeURIComponent _); [| discriminate]. destruct Hr as [link Hr]. eauto 10.
Qed.

End Adding.

(** X29: when the effective name of the node to add is taken by a sibling,
    a call of [add_vfs] that returns gives that name with a number put
    before the extension, the first of 2, 3, ... for which the name is
    free, the name and the extension being cut as the code cuts them; when
    the name is free it is returned as it is.  The new node goes by the
    returned name and is put in front of the children of the parent.
    A name that is a single path portion, as every base name of a source
    is, is the part and the extension the number is put between.  Adding
    [report.txt] next to [report.txt] gives [report 2.txt], and adding it
    once more gives [report 3.txt]. *)
Theorem add_vfs_disambiguates_in_front :
  (∀ (isDirectory : string → option bool) (baseUrl : string)
     (encodeURIComponent : string → option string) (parent source name : option string)
     (s s' : Store) (res : AddResult),
     add_vfs isDirectory baseUrl encodeURIComponent parent source name s
     = (Returned res, s') →
     let name0 := getNodeName (new_child (drive_source source) name) in
     ∃ parentNode c,
       (if truthy_param parent then urlToNodeOriginal s (default "" parent) else Some vfs)
       = Some parentNode
       ∧ has_child s parentNode (isSameFilenameAs (added_name res)) = false
       ∧ (Path.basename name0 = name0 → name0 = no_ext name0 +:+ Path.extname name0)
       ∧ (has_child s parentNode (isSameFilenameAs name0) = false → added_name res = name0)
       ∧ (has_child s parentNode (isSameFilenameAs name0) = true →
          ∃ k, (2 ≤ k)%nat
               ∧ added_name res = no_ext name0 +:+ " " +:+ pretty k +:+ Path.extname name0
               ∧ ∀ j, (2 ≤ j < k)%nat →
                   has_child s parentNode
                     (isSameFilenameAs (candidate (no_ext name0) (Path.extname name0) j))
                   = true)
       ∧ s !! c = None
       ∧ (is_Some (s !! parentNode) →
          children (node_at s' parentNode) = Some (c :: children_list (node_at s parentNode))
          ∧ getNodeName (props (node_at s' c)) = added_name res
          ∧ children (node_at s' c) = None))
  ∧ (let add := add_vfs report_fs "http://localhost" Some None (Some "/inbox/report.txt") None in
     (add report_store).1
     = Returned (mkAddResult "report 2.txt" "http://localhost/report 2.txt")
     ∧ (add (add report_store).2).1
       = Returned (mkAddResult "report 3.txt" "http://localhost/report 3.txt")
     ∧ (getNodeName ∘ props ∘ node_at (add (add report_store).2).2)
         <$> children_list (node_at (add (add report_store).2).2 vfs)
       = ["report 3.txt"; "report 2.txt"; "report.txt"]).
Proof.
  split; [| by vm_compute].
  intros isDirectory baseUrl enc parent source name s s' res Hadd name0.
  destruct (add_vfs_returned _ _ _ _ _ _ _ _ _ Hadd)
    as (parentNode & name1 & link & Hp & Hfree & [= ->] & ->).
  fold name0 in Hfree.
  exists parentNode, (fresh (dom s)).
  pose proof (new_child_name _ _ _ _ Hfree) as Hnew.
  apply free_name_spec in Hfree as [Hfreed Hwhich]. cbn [added_name].
  assert (Hc : s !! fresh (dom s) = None) by apply not_elem_of_dom, is_fresh.
  split; [done |]. split; [done |].
  split; [by intros ->%no_ext_extname |].
  split; [| split; [| split; [done |]]].
  - intros Hn. destruct Hwhich as [[_ ->] | [Ht _]]; [done | congruence].
  - intros Hn. destruct Hwhich as [[Ht _] | [_ (k & Hk & -> & Hbelow)]]; [congruence |].
    exists k. auto.
  - intros [n Hn].
    assert (Hne : parentNode ≠ fresh (dom s)) by (intros ->; congruence).
    rewrite node_at_set_children_eq, node_at_set_children_ne by done.
    rewrite node_at_insert_eq. cbn [props children].
    done.
Qed.

Lemma add_vfs_disambiguates_in_front_witness :
  ∃ c,
    report_store !! c = None
    ∧ children (node_at (add_vfs report_fs "http://localhost" Some None
                           (Some "/inbox/report.txt") None report_store).2 vfs)
      = Some [c; 1%nat]
    ∧ getNodeName (props (node_at (add_vfs report_fs "http://localhost" Some None
                                     (Some "/inbox/report.txt") None report_store).2 c))
      = "report 2.txt".
Proof.
  destruct (proj1 add_vfs_disambiguates_in_front report_fs "http://localhost" Some None
              (Some "/inbox/report.txt") None report_store _ _ eq_refl)
    as (p & c & [= <-] & _ & _ & _ & _ & Hc & Hfront).
  exists c. split; [exact Hc |].
  destruct Hfront as (Hch & Hname & _); [by eexists |]. split; [exact Hch | exact Hname].
Defined.

(** C4 (the code at the failing input): a node is added under the name
    [a.txt/], and one more under the same name.  The extension is taken
    with the separator at the end ignored, [.txt], but as many characters
    are cut from the end of the name as it is long, separator included:
    the part before the number is [a.] and the second node is named
    [a. 2.txt], which is not the name with a number before its
    extension. *)
Theorem add_vfs_number_misplaced :
  let add := add_vfs report_fs "http://localhost" Some None None (Some "a.txt/") in
  (add emptied_store).1 = Returned (mkAddResult "a.txt/" "http://localhost/a.txt/")
  ∧ child_names (add emptied_store).2 vfs = ["a.txt/"]
  ∧ Path.extname "a.txt/" = ".txt"
  ∧ no_ext "a.txt/" = "a."
  ∧ (add (add emptied_store).2).1
    = Returned (mkAddResult "a. 2.txt" "http://localhost/a. 2.txt")
  ∧ child_names (add (add emptied_store).2).2 vfs = ["a. 2.txt"; "a.txt/"].
Proof. cbv zeta. repeat split; reflexivity. Qed.

(** ** Sibling names *)

Lemma siblings_unique_check_true (s : Store) :
  siblings_unique_check s = true ↔ siblings_unique s.
Proof.
  unfold siblings_unique_check. rewrite bool_decide_eq_true. split.
  - intros H l. destruct (s !! l) as [n|] eqn:Hl; [by apply (H l n) |].
    unfold child_names. rewrite (node_at_unallocated _ _ Hl). constructor.
  - intros H l n _. apply H.
Qed.

(** X13: uniqueness of sibling names is kept by a successful [move_vfs]. *)
Lemma move_vfs_keeps_unique (from parent : option string) (s s' : Store) :
  siblings_unique s →
  move_vfs from parent s = (Returned (), s') →
  siblings_unique s'.
Proof.
  intros Hu Hmove.
  destruct (move_vfs_returned _ _ _ _ Hmove)
    as (f & p & fromNode & parentNode & o & _ & _ & _ & _ & _ & Hc & ->).
  destruct (moved_children s fromNode parentNode o Hc) as (Hdst & Hold & Hoth & Hprops).
  intros l. unfold child_names.
  rewrite (list_fmap_ext _ (λ c, getNodeName (props (node_at s c))))
    by (intros i x _; by rewrite Hprops).
  destruct (decide (l = parentNode)) as [-> | Hlp].
  - unfold children_list at 1. rewrite Hdst. cbn [default from_option id]. rewrite fmap_app.
    apply NoDup_app. split; [apply Hu |]. split; [| apply NoDup_singleton].
    intros name Hin ->%list_elem_of_singleton.
    apply list_elem_of_fmap in Hin as (x & Hx & Hin).
    pose proof (has_child_false _ _ _ _ Hc Hin) as Hb. cbn in Hb.
    by apply bool_decide_eq_false in Hb.
  - destruct (decide (l = o)) as [-> | Hlo].
    + rewrite Hold by done. rewrite pulled_old_parent_list.
      eapply sublist_NoDup; [apply Hu |]. apply fmap_sublist, sublist_filter.
    + rewrite Hoth by done. apply Hu.
Qed.

(** Resolution stays inside a closed store. *)

Lemma find_child_elem (s : Store) (parent : loc) (name : string) (c : loc) :
  find_child s parent name = Some c → c ∈ children_list (node_at s parent).
Proof. unfold find_child. intros [H _]%find_some. by apply list_elem_of_In. Qed.

Lemma walk_allocated (s : Store) (segs : list string) :
  store_closed s → ∀ cur l, is_Some (s !! cur) → walk s cur segs = Some l → is_Some (s !! l).
Proof.
  intros [_ Hclosed]. induction segs as [| seg rest IH]; intros cur l Hcur; cbn [walk].
  - by intros [= <-].
  - destruct (find_child s cur seg) as [c|] eqn:Hf; [| done].
    apply IH. destruct Hcur as [n Hn].
    apply (Hclosed cur n c Hn). apply find_child_elem in Hf.
    unfold node_at in Hf. by rewrite Hn in Hf.
Qed.

Lemma urlToNodeOriginal_allocated (s : Store) (uri : string) (l : loc) :
  store_closed s → urlToNodeOriginal s uri = Some l → is_Some (s !! l).
Proof.
  intros Hclosed. unfold urlToNodeOriginal, urlToNode.
  destruct (segments uri) as [| seg rest].
  - intros [= <-]. apply Hclosed.
  - destruct (walk s vfs (seg :: rest)) as [l'|] eqn:Hw; [| done].
    cbn. intros [= <-]. eapply walk_allocated; [done | apply Hclosed | done].
Qed.

(** X11: uniqueness of sibling names is kept by a successful [add_vfs]. *)
Lemma add_vfs_keeps_unique (isDirectory : string → option bool) (baseUrl : string)
    (encodeURIComponent : string → option string) (parent source name : option string)
    (s s' : Store) (res : AddResult) :
  store_closed s →
  siblings_unique s →
  add_vfs isDirectory baseUrl encodeURIComponent parent source name s = (Returned res, s') →
  siblings_unique s'.
Proof.
  intros Hclosed Hu Hadd.
  destruct (add_vfs_returned _ _ _ _ _ _ _ _ _ Hadd)
    as (p & name1 & link & Hp & Hfree & _ & ->).
  pose proof (new_child_name _ _ _ _ Hfree) as Hnew.
  apply free_name_spec in Hfree as [Hfreed _].
  set (c := fresh (dom s)) in *.
  set (child1 := simplifyName _) in *.
  assert (Hc : s !! c = None) by apply not_elem_of_dom, is_fresh.
  assert (Hpa : is_Some (s !! p)).
  { destruct (truthy_param parent); [by eapply urlToNodeOriginal_allocated |].
    injection Hp as <-. apply Hclosed. }
  assert (Hne : p ≠ c) by (intros ->; rewrite Hc in Hpa; by destruct Hpa).
  set (s1 := <[c := mkNode child1 None]> s).
  assert (Hs1c : node_at s1 c = mkNode child1 None) by apply node_at_insert_eq.
  assert (Hs1o : ∀ x, x ≠ c → node_at s1 x = node_at s x)
    by (intros x Hx; by apply node_at_insert_ne).
  clearbody s1.
  assert (Hprops : ∀ x, is_Some (s !! x) →
            props (node_at (set_children p (Some (c :: children_list (node_at s p))) s1) x)
            = props (node_at s x)).
  { intros x Hx. rewrite props_set_children.
    rewrite Hs1o; [done |]. intros ->. rewrite Hc in Hx. by destruct Hx. }
  assert (Hnames : ∀ l n, s !! l = Some n →
            (λ x, getNodeName (props (node_at
                (set_children p (Some (c :: children_list (node_at s p))) s1) x)))
              <$> children_list (node_at s l)
            = child_names s l).
  { intros l n Hl. unfold child_names. apply list_fmap_ext. intros i x Hx.
    rewrite Hprops; [done |]. destruct Hclosed as [_ Hcl]. apply (Hcl l n x Hl).
    apply list_elem_of_lookup_2 in Hx. unfold node_at in Hx. by rewrite Hl in Hx. }
  intros l. unfold child_names. destruct (decide (l = p)) as [-> | Hlp].
  - rewrite node_at_set_children_eq, children_list_some, fmap_cons.
    destruct Hpa as [n Hn]. rewrite (Hnames p n Hn).
    rewrite props_set_children, Hs1c. cbn [props].
    rewrite Hnew. apply NoDup_cons. split; [| apply Hu].
    intros (x & Hx & Hin)%list_elem_of_fmap.
    pose proof (has_child_false _ _ _ _ Hfreed Hin) as Hb.
    by apply bool_decide_eq_false in Hb.
  - rewrite node_at_set_children_ne by done.
    destruct (decide (l = c)) as [-> | Hlc].
    + rewrite Hs1c. constructor.
    + rewrite Hs1o by done.
      destruct (s !! l) as [n|] eqn:Hl.
      * rewrite (Hnames l n Hl). apply Hu.
      * rewrite (node_at_unallocated _ _ Hl). constructor.
Qed.

(** C1 (the code at the failing input): the children of the root are named
    [a] (the base name of its source) and [b] (an explicit name, its source
    having the base name [a]).  [set_vfs] with the name of the second set to
    [null] succeeds, no check is made, and both children are named [a]
    afterwards; so are they when the first child, named by its source, is
    given a source of base name [b]. *)
Theorem set_vfs_cleared_name_collides :
  siblings_unique names_store
  ∧ child_names names_store vfs = ["a"; "b"]
  ∧ (set_vfs [] "/b" (Some {[ "name" := VNull ]}) names_store).1 = Returned 2%nat
  ∧ child_names (set_vfs [] "/b" (Some {[ "name" := VNull ]}) names_store).2 vfs = ["a"; "a"]
  ∧ ¬ siblings_unique (set_vfs [] "/b" (Some {[ "name" := VNull ]}) names_store).2
  ∧ (set_vfs [] "/a" (Some {[ "source" := VStr "/z/b" ]}) names_store).1 = Returned 1%nat
  ∧ child_names (set_vfs [] "/a" (Some {[ "source" := VStr "/z/b" ]}) names_store).2 vfs
    = ["b"; "b"]
  ∧ ¬ siblings_unique (set_vfs [] "/a" (Some {[ "source" := VStr "/z/b" ]}) names_store).2.
Proof.
  split; [by apply siblings_unique_check_true |].
  repeat (split; [reflexivity |]).
  split; [| repeat (split; [reflexivity |])].
  - intros H. specialize (H vfs). vm_compute in H.
    apply NoDup_cons in H as [Hin _]. apply Hin. by left.
  - intros H. specialize (H vfs). vm_compute in H.
    apply NoDup_cons in H as [Hin _]. apply Hin. by left.
Qed.

(** * Further properties of the handlers *)

(** * Further properties *)

(** ** Sanitizing *)

Lemma clean_not_null_or_empty (v : value) : clean v ≠ VNull ∧ clean v ≠ VStr "".
Proof. unfold clean. repeat case_decide; done. Qed.

Lemma clean_idempotent (v : value) : clean (clean v) = clean v.
Proof. unfold clean. repeat case_decide; done. Qed.

(** X1: every property [pickProps] lets through is a listed key that the
    payload has, with the value of the payload, or [undefined] in place of
    [null] and of the empty string; so no value of the result is [null] or
    the empty string. *)
Theorem pickProps_only_listed_and_clean (o : Obj) (keys : list string) (k : string)
    (v : value) :
  pickProps (Some o) keys !! k = Some v →
  k ∈ keys
  ∧ (∃ w, o !! k = Some w ∧ v = clean w ∧ (w ≠ VNull → w ≠ VStr "" → v = w))
  ∧ v ≠ VNull ∧ v ≠ VStr "".
Proof.
  rewrite pickProps_lookup. case_decide as Hk; [| done].
  destruct (o !! k) as [w|]; [| done]. intros [= <-].
  split; [done |]. split; [| apply clean_not_null_or_empty].
  exists w. split; [done |]. split; [done |].
  intros H1 H2. unfold clean. by rewrite !decide_False.
Qed.

Lemma pickProps_only_listed_and_clean_witness :
  "can_read" ∈ ["can_read"; "name"]
  ∧ (∃ w, perms_payload !! "can_read" = Some w ∧ VUndefined = clean w
          ∧ (w ≠ VNull → w ≠ VStr "" → VUndefined = w))
  ∧ VUndefined ≠ VNull ∧ VUndefined ≠ VStr "".
Proof.
  apply (pickProps_only_listed_and_clean perms_payload ["can_read"; "name"] "can_read").
  reflexivity.
Defined.

(** X2: [pickProps] is idempotent: sanitizing a sanitized payload with the
    same keys changes nothing; and a payload that is not an object gives
    the empty object. *)
Theorem pickProps_idempotent (o : option Obj) (keys : list string) :
  pickProps (Some (pickProps o keys)) keys = pickProps o keys
  ∧ pickProps None keys = ∅.
Proof.
  split; [| done]. apply map_eq. intros k. rewrite pickProps_lookup.
  destruct o as [o|].
  - rewrite pickProps_lookup. case_decide; [| done].
    destruct (o !! k); [| done]. cbn. by rewrite clean_idempotent.
  - cbn [pickProps]. rewrite lookup_empty. by case_decide.
Qed.

(** ** Names *)

(** X3: [simplifyName] never changes the effective name of a node. *)
Theorem simplifyName_keeps_effective_name (node : Obj) :
  getNodeName (simplifyName node) = getNodeName node.
Proof.
  destruct (decide (get node "name" = VStr (getNodeName (delete "name" node))))
    as [Heq | Hne]; [| by rewrite simplifyName_kept].
  rewrite (simplifyName_dropped _ Heq). unfold get in Heq.
  unfold getNodeName at 2. destruct (node !! "name") as [v|] eqn:Hn; [| done].
  cbn in Heq. subst v.
  destruct (getNodeName (delete "name" node)) eqn:Hd; [| done].
  unfold getNodeName in Hd. rewrite lookup_delete_eq in Hd.
  rewrite lookup_delete_ne in Hd by done. by rewrite Hd.
Qed.

(** ** Setting properties *)

Lemma drop_bad_masks_other (p : Obj) (k : string) :
  k ≠ "masks" → drop_bad_masks p !! k = p !! k.
Proof. intros Hk. unfold drop_bad_masks. case_match; [by rewrite lookup_delete_ne | done]. Qed.

Lemma set_vfs_keys_fixed (PERM_KEYS : list string) (k : string) :
  k ∈ ["name"; "source"; "masks"; "default"; "accept"] → k ∈ set_vfs_keys PERM_KEYS.
Proof. intros H. unfold set_vfs_keys. apply elem_of_app. by left. Qed.

Lemma set_vfs_cases (PERM_KEYS : list string) (uri : string) (payload : option Obj)
    (s : Store) :
  (urlToNodeOriginal s uri = None
   ∧ set_vfs PERM_KEYS uri payload s
     = (Failed (mkApiError HTTP_NOT_FOUND (Some "path not found")), s))
  ∨ ∃ n, urlToNodeOriginal s uri = Some n
     ∧ (set_vfs PERM_KEYS uri payload s
        = (Failed (mkApiError HTTP_CONFLICT (Some "name already present")), s)
        ∨ set_vfs PERM_KEYS uri payload s
          = (Returned n,
             set_props n
               (simplifyName (drop_bad_masks (pickProps payload (set_vfs_keys PERM_KEYS))
                              ∪ props (node_at s n))) s)).
Proof.
  unfold set_vfs. destruct (urlToNodeOriginal s uri) as [n|]; [| by left].
  right. exists n. split; [done |].
  match goal with |- context [if ?c then _ else _] => destruct c end; auto.
Qed.

(** X4: a [set_vfs] call that does not return the node leaves the tree as
    it was; it is answered with not-found when the URI does not resolve and
    with conflict otherwise, and it never throws. *)
Theorem set_vfs_failure_leaves_tree (PERM_KEYS : list string) (uri : string)
    (payload : option Obj) (s s' : Store) (r : outcome loc) :
  set_vfs PERM_KEYS uri payload s = (r, s') →
  (∀ n, r ≠ Returned n) →
  s' = s
  ∧ ∃ e, r = Failed e
         ∧ ((status e = HTTP_NOT_FOUND ∧ urlToNodeOriginal s uri = None)
            ∨ (status e = HTTP_CONFLICT ∧ is_Some (urlToNodeOriginal s uri))).
Proof.
  intros Hset Hr.
  destruct (set_vfs_cases PERM_KEYS uri payload s) as [[Hn H] | (n & Hn & [H | H])];
    rewrite H in Hset; injection Hset as <- <-.
  - split; [done |]. eexists. split; [done |]. by left.
  - split; [done |]. eexists. split; [done |]. right. by rewrite Hn.
  - by destruct (Hr n).
Qed.

Lemma set_vfs_failure_leaves_tree_witness :
  (set_vfs [] "/a" (Some {[ "name" := VStr "b" ]}) names_store).2 = names_store.
Proof.
  apply (set_vfs_failure_leaves_tree [] "/a" (Some {[ "name" := VStr "b" ]}) names_store
           _ (set_vfs [] "/a" (Some {[ "name" := VStr "b" ]}) names_store).1).
  - reflexivity.
  - intros n. vm_compute. discriminate.
Defined.

(** X5: a successful [set_vfs] returns the node the URI resolves to and
    changes nothing but whitelisted properties of that node: its children,
    its other properties and every other node are as before. *)
Theorem set_vfs_changes_only_listed (PERM_KEYS : list string) (uri : string)
    (payload : option Obj) (s s' : Store) (n : loc) :
  set_vfs PERM_KEYS uri payload s = (Returned n, s') →
  urlToNodeOriginal s uri = Some n
  ∧ children (node_at s' n) = children (node_at s n)
  ∧ (∀ l, l ≠ n → node_at s' l = node_at s l)
  ∧ (∀ k, k ∉ set_vfs_keys PERM_KEYS →
          props (node_at s' n) !! k = props (node_at s n) !! k).
Proof.
  intros Hset.
  destruct (set_vfs_cases PERM_KEYS uri payload s) as [[Hn H] | (m & Hn & [H | H])];
    rewrite H in Hset; try discriminate.
  injection Hset as <- <-. split; [done |]. unfold set_props.
  split; [by rewrite node_at_insert_eq |]. split.
  - intros l Hl. by rewrite node_at_insert_ne.
  - intros k Hk. rewrite node_at_insert_eq. cbn [props].
    assert (k ≠ "name") as Hname.
    { intros ->. apply Hk, set_vfs_keys_fixed. by_evaluation. }
    rewrite simplifyName_other by done. apply lookup_union_r, drop_bad_masks_none.
    destruct payload as [o|]; [| done].
    rewrite pickProps_lookup. by rewrite decide_False.
Qed.

Lemma set_vfs_changes_only_listed_witness :
  props (node_at (set_vfs ["can_read"] "/docs" (Some perms_payload) perms_store).2 1%nat)
    !! "extra" = None
  ∧ node_at (set_vfs ["can_read"] "/docs" (Some perms_payload) perms_store).2 vfs
    = node_at perms_store vfs.
Proof.
  destruct (set_vfs_changes_only_listed ["can_read"] "/docs" (Some perms_payload) perms_store
              _ 1%nat eq_refl) as (_ & _ & Hother & Hkeys).
  split.
  - rewrite Hkeys; [reflexivity | by_evaluation].
  - apply Hother. discriminate.
Defined.

(** X6: a [masks] value of the payload that is neither an object nor falsy
    is dropped: the [masks] of the node stay as they were. *)
Theorem set_vfs_ignores_bad_masks (PERM_KEYS : list string) (uri : string)
    (payload : Obj) (s s' : Store) (n : loc) (v : value) :
  set_vfs PERM_KEYS uri (Some payload) s = (Returned n, s') →
  payload !! "masks" = Some v →
  truthy v = true →
  typeof_object v = false →
  props (node_at s' n) !! "masks" = props (node_at s n) !! "masks".
Proof.
  intros Hset Hv Ht Ho. rewrite (set_vfs_returned _ _ _ _ _ _ Hset).
  rewrite simplifyName_other by done. apply lookup_union_r.
  assert (Hp : get (pickProps (Some payload) (set_vfs_keys PERM_KEYS)) "masks" = v).
  { unfold get. rewrite pickProps_lookup, decide_True, Hv.
    - cbn. unfold clean. destruct v; try done. cbn in Ht.
      rewrite decide_False; [| done]. rewrite decide_False; [done |].
      intros [= ->]. done.
    - apply set_vfs_keys_fixed. by_evaluation. }
  unfold drop_bad_masks. rewrite Hp, Ht, Ho. apply lookup_delete_eq.
Qed.

Lemma set_vfs_ignores_bad_masks_witness :
  props (node_at (set_vfs [] "/a" (Some {[ "masks" := VStr "all" ]}) names_store).2 1%nat)
    !! "masks" = None.
Proof.
  apply (set_vfs_ignores_bad_masks [] "/a" {[ "masks" := VStr "all" ]} names_store
           _ 1%nat (VStr "all")); reflexivity.
Defined.

(** X7: a successful [set_vfs] whose payload gives a non-empty string as
    [name] leaves the node with that effective name. *)
Theorem set_vfs_renames (PERM_KEYS : list string) (uri : string)
    (payload : Obj) (s s' : Store) (n : loc) (name : string) :
  set_vfs PERM_KEYS uri (Some payload) s = (Returned n, s') →
  payload !! "name" = Some (VStr name) →
  name ≠ "" →
  getNodeName (props (node_at s' n)) = name.
Proof.
  intros Hset Hv Hne. rewrite (set_vfs_returned _ _ _ _ _ _ Hset).
  rewrite getNodeName_simplifyName.
  assert (Hl : (drop_bad_masks (pickProps (Some payload) (set_vfs_keys PERM_KEYS))
                ∪ props (node_at s n)) !! "name" = Some (VStr name)).
  { apply lookup_union_Some_l. rewrite drop_bad_masks_other by done.
    rewrite pickProps_lookup, decide_True, Hv by (apply set_vfs_keys_fixed; by_evaluation).
    cbn. unfold clean. rewrite decide_False by done. rewrite decide_False; [done |].
    by intros [= ->]. }
  unfold getNodeName. rewrite Hl. by destruct name.
Qed.

Lemma set_vfs_renames_witness :
  getNodeName (props (node_at
    (set_vfs [] "/a" (Some {[ "name" := VStr "c" ]}) names_store).2 1%nat)) = "c".
Proof.
  apply (set_vfs_renames [] "/a" {[ "name" := VStr "c" ]} names_store _ 1%nat "c");
    [reflexivity | reflexivity | discriminate].
Defined.

(** ** Adding, further *)

(** X8: an [add_vfs] call that is answered with an error leaves the tree
    as it was, and the error is bad-request, not-found or not-acceptable.
    A call throws only when [encodeURIComponent] throws on the name of the
    new node, and by then the node is in the tree: a node that was not there
    is, under the name that cannot be encoded. *)
Theorem add_vfs_failure_leaves_tree (isDirectory : string → option bool) (baseUrl : string)
    (encodeURIComponent : string → option string) (parent source name : option string)
    (s s' : Store) (r : outcome AddResult) :
  add_vfs isDirectory baseUrl encodeURIComponent parent source name s = (r, s') →
  (∀ e, r = Failed e →
     s' = s
     ∧ (status e = HTTP_BAD_REQUEST ∨ status e = HTTP_NOT_FOUND
        ∨ status e = HTTP_NOT_ACCEPTABLE))
  ∧ (r = Thrown →
     ∃ c, s !! c = None
          ∧ is_Some (s' !! c)
          ∧ encodeURIComponent (getNodeName (props (node_at s' c))) = None)
  ∧ ((∀ x, is_Some (encodeURIComponent x)) → r ≠ Thrown).
Proof.
  intros Hadd.
  assert (Hthrown : r = Thrown →
     ∃ c, s !! c = None
          ∧ is_Some (s' !! c)
          ∧ encodeURIComponent (getNodeName (props (node_at s' c))) = None).
  { intros ->.
    destruct (add_vfs_not_failed _ _ _ _ _ _ _ _ _ Hadd ltac:(discriminate))
      as (p & name1 & _ & _ & Hr & ->).
    exists (fresh (dom s)). split; [apply not_elem_of_dom, is_fresh |]. split.
    - unfold set_children. destruct (decide (p = fresh (dom s))) as [-> | Hne].
      + by rewrite lookup_insert_eq.
      + rewrite lookup_insert_ne by done. by rewrite lookup_insert_eq.
    - rewrite props_set_children, node_at_insert_eq. cbn [props].
      by destruct (encodeURIComponent _) as [encoded|]; [destruct Hr |]. }
  split; [| split; [exact Hthrown |]].
  - intros e ->. unfold add_vfs in Hadd.
    destruct (negb (truthy_param source) && negb (truthy_param name));
      [injection Hadd as <- <-; eauto 10 |].
    destruct (if truthy_param parent then _ else _) as [parentNode|];
      [| injection Hadd as <- <-; eauto 10].
    destruct (negb (nodeIsDirectory isDirectory (node_at s parentNode)));
      [injection Hadd as <- <-; eauto 10 |].
    match type of Hadd with (if ?c then _ else _) = _ => destruct c end;
      [injection Hadd as <- <-; eauto 10 |].
    destruct (free_name _ _ _ _ _ _); [| done]. by destruct (encodeURIComponent _).
  - intros Henc Hr. destruct (Hthrown Hr) as (c & _ & _ & Hnone).
    specialize (Henc (getNodeName (props (node_at s' c)))). rewrite Hnone in Henc.
    by destruct Henc.
Qed.

Lemma add_vfs_failure_leaves_tree_witness :
  (add_vfs report_fs "http://localhost" Some (Some "/report.txt") (Some "/inbox/x") None
     report_store).2 = report_store
  ∧ ∃ c, report_store !! c = None
         ∧ is_Some ((add_vfs report_fs "http://localhost" (λ _, None) None
                       (Some "/inbox/report.txt") None report_store).2 !! c).
Proof.
  split.
  - apply (proj1 (add_vfs_failure_leaves_tree report_fs "http://localhost" Some
                    (Some "/report.txt") (Some "/inbox/x") None report_store _ _ eq_refl)
             (mkApiError HTTP_NOT_ACCEPTABLE (Some "parent not a folder")) eq_refl).
  - destruct (proj1 (proj2 (add_vfs_failure_leaves_tree report_fs "http://localhost"
                              (λ _, None) None (Some "/inbox/report.txt") None report_store
                              _ _ eq_refl)) eq_refl) as (c & Hc & Hin & _).
    exists c. by split.
Defined.

(** X9: a successful [add_vfs] touches two nodes only, the parent and the
    new node: every other entry of the store is as before, the new node was
    not in the store, and the properties of the parent are as before. *)
Theorem add_vfs_touches_parent_and_child (isDirectory : string → option bool)
    (baseUrl : string) (encodeURIComponent : string → option string)
    (parent source name : option string) (s s' : Store) (res : AddResult) :
  add_vfs isDirectory baseUrl encodeURIComponent parent source name s = (Returned res, s') →
  ∃ parentNode c,
    (if truthy_param parent then urlToNodeOriginal s (default "" parent) else Some vfs)
    = Some parentNode
    ∧ s !! c = None
    ∧ is_Some (s' !! c)
    ∧ (∀ l, l ≠ parentNode → l ≠ c → s' !! l = s !! l)
    ∧ (is_Some (s !! parentNode) →
       props (node_at s' parentNode) = props (node_at s parentNode)).
Proof.
  intros Hadd.
  destruct (add_vfs_returned _ _ _ _ _ _ _ _ _ Hadd)
    as (p & name1 & link & Hp & _ & _ & ->).
  assert (Hc : s !! fresh (dom s) = None) by apply not_elem_of_dom, is_fresh.
  exists p, (fresh (dom s)). split; [done |]. split; [done |].
  unfold set_children. split; [| split].
  - destruct (decide (p = fresh (dom s))) as [-> | Hne].
    + rewrite lookup_insert_eq. by eexists.
    + rewrite lookup_insert_ne, lookup_insert_eq by done. by eexists.
  - intros l Hlp Hlc. by rewrite !lookup_insert_ne.
  - intros [n Hn]. assert (p ≠ fresh (dom s)) as Hne by (intros ->; congruence).
    rewrite node_at_insert_eq. cbn [props]. by rewrite node_at_insert_ne.
Qed.

Lemma add_vfs_touches_parent_and_child_witness :
  ∃ c, report_store !! c = None
       ∧ (add_vfs report_fs "http://localhost" Some None (Some "/inbox/report.txt") None
            report_store).2 !! 1%nat = report_store !! 1%nat.
Proof.
  destruct (add_vfs_touches_parent_and_child report_fs "http://localhost" Some None
              (Some "/inbox/report.txt") None report_store _ _ eq_refl)
    as (p & c & [= <-] & Hc & _ & Hother & _).
  exists c. split; [exact Hc |]. apply Hother; [discriminate |].
  intros <-. vm_compute in Hc. discriminate.
Defined.

(** X10: a successful [add_vfs] keeps the store closed: every child
    reference still is a node of the store. *)
Theorem add_vfs_keeps_closed (isDirectory : string → option bool)
    (baseUrl : string) (encodeURIComponent : string → option string)
    (parent source name : option string) (s s' : Store) (res : AddResult) :
  store_closed s →
  add_vfs isDirectory baseUrl encodeURIComponent parent source name s = (Returned res, s') →
  store_closed s'.
Proof.
  intros Hclosed Hadd.
  destruct (add_vfs_returned _ _ _ _ _ _ _ _ _ Hadd)
    as (p & name1 & link & Hp & _ & _ & ->).
  set (c := fresh (dom s)). set (child := mkNode _ None).
  assert (Hc : s !! c = None) by apply not_elem_of_dom, is_fresh.
  assert (Hpa : is_Some (s !! p)).
  { destruct (truthy_param parent); [by eapply urlToNodeOriginal_allocated |].
    injection Hp as <-. apply Hclosed. }
  assert (Hne : p ≠ c) by (intros ->; rewrite Hc in Hpa; by destruct Hpa).
  assert (Hkeep : ∀ l, is_Some (s !! l) →
            is_Some (set_children p (Some (c :: children_list (node_at s p)))
                       (<[c := child]> s) !! l)).
  { intros l Hl. unfold set_children.
    destruct (decide (p = l)) as [-> | Hpl]; [rewrite lookup_insert_eq; by eexists |].
    rewrite lookup_insert_ne by done.
    destruct (decide (c = l)) as [<- | Hcl]; [rewrite lookup_insert_eq; by eexists |].
    by rewrite lookup_insert_ne. }
  destruct Hclosed as [Hroot Hcl]. split; [by apply Hkeep |].
  intros l n x Hl Hx. unfold set_children in Hl.
  destruct (decide (p = l)) as [<- | Hpl].
  - rewrite lookup_insert_eq in Hl. injection Hl as <-. rewrite children_list_some in Hx.
    apply elem_of_cons in Hx as [-> | Hx].
    + unfold set_children. rewrite lookup_insert_ne, lookup_insert_eq by done. by eexists.
    + apply Hkeep. destruct Hpa as [np Hnp]. apply (Hcl p np x Hnp).
      unfold node_at in Hx. by rewrite Hnp in Hx.
  - rewrite lookup_insert_ne in Hl by done.
    destruct (decide (c = l)) as [<- | Hcl'].
    + rewrite lookup_insert_eq in Hl. injection Hl as <-. by apply elem_of_nil in Hx.
    + rewrite lookup_insert_ne in Hl by done. apply Hkeep. by apply (Hcl l n x).
Qed.

(** ** Closed stores *)

Lemma store_closed_check_true (s : Store) : store_closed_check s = true → store_closed s.
Proof.
  unfold store_closed_check. intros [Hroot Hall]%andb_true_iff.
  apply bool_decide_eq_true in Hroot, Hall. split; [done |].
  intros l n c Hl Hc. specialize (Hall l n Hl). cbn in Hall.
  by apply (proj1 (Forall_forall _ _) Hall).
Qed.

Lemma set_children_allocated (s : Store) (l x : loc) (c : option (list loc)) :
  is_Some (s !! x) → is_Some (set_children l c s !! x).
Proof.
  intros Hx. unfold set_children. destruct (decide (l = x)) as [-> | Hne].
  - rewrite lookup_insert_eq. by eexists.
  - by rewrite lookup_insert_ne.
Qed.

Lemma set_children_closed (s : Store) (l : loc) (c : option (list loc)) :
  store_closed s →
  (∀ x, x ∈ default [] c → is_Some (s !! x)) →
  store_closed (set_children l c s).
Proof.
  intros [Hroot Hcl] Hc. split; [by apply set_children_allocated |].
  intros l' n x Hl Hx. apply set_children_allocated. unfold set_children in Hl.
  destruct (decide (l = l')) as [<- | Hne].
  - rewrite lookup_insert_eq in Hl. injection Hl as <-. by apply Hc.
  - rewrite lookup_insert_ne in Hl by done. by apply (Hcl l' n x).
Qed.

Lemma closed_children_allocated (s : Store) (l x : loc) :
  store_closed s → x ∈ children_list (node_at s l) → is_Some (s !! x).
Proof.
  intros [_ Hcl] Hx. destruct (s !! l) as [n|] eqn:Hl.
  - apply (Hcl l n x Hl). unfold node_at in Hx. by rewrite Hl in Hx.
  - rewrite (node_at_unallocated _ _ Hl) in Hx. by apply elem_of_nil in Hx.
Qed.

(** ** Moving, further *)

Lemma pulled_closed (s : Store) (fromNode oldParent : loc) :
  store_closed s → store_closed (pulled fromNode oldParent s).
Proof.
  intros Hclosed. unfold pulled. cbv zeta.
  assert (H1 : store_closed (set_children oldParent
                 (pull fromNode <$> children (node_at s oldParent)) s)).
  { apply set_children_closed; [done |]. intros x Hx.
    apply (closed_children_allocated s oldParent); [done |]. unfold children_list.
    destruct (children (node_at s oldParent)) as [cs|]; cbn in *.
    - by apply list_elem_of_filter in Hx as [_ Hx].
    - by apply elem_of_nil in Hx. }
  case_bool_decide; [| done]. apply set_children_closed; [done |].
  intros x Hx. by apply elem_of_nil in Hx.
Qed.

Lemma pulled_allocated (s : Store) (fromNode oldParent x : loc) :
  is_Some (s !! x) → is_Some (pulled fromNode oldParent s !! x).
Proof.
  intros Hx. unfold pulled. cbv zeta. case_bool_decide;
    repeat apply set_children_allocated; done.
Qed.

(** X14: a successful [move_vfs] keeps the store closed. *)
Theorem move_vfs_keeps_closed (from parent : option string) (s s' : Store) :
  store_closed s →
  move_vfs from parent s = (Returned (), s') →
  store_closed s'.
Proof.
  intros Hclosed Hmove.
  destruct (move_vfs_returned _ _ _ _ Hmove)
    as (f & p & fromNode & parentNode & o & _ & _ & Hf & _ & _ & _ & ->).
  unfold moved. apply set_children_closed; [by apply pulled_closed |].
  intros x Hx. cbn in Hx. apply elem_of_app in Hx as [Hx | Hx].
  - by apply (closed_children_allocated _ parentNode); [apply pulled_closed |].
  - apply list_elem_of_singleton in Hx as ->. apply pulled_allocated.
    by eapply urlToNodeOriginal_allocated.
Qed.

Lemma find_app_last {A} (f : A → bool) (l : list A) (y : A) :
  (∀ x, x ∈ l → f x = false) → f y = true → List.find f (l ++ [y]) = Some y.
Proof.
  intros Hl Hy. induction l as [| x l IH]; cbn.
  - by rewrite Hy.
  - rewrite (Hl x) by by left. apply IH. intros z Hz. apply Hl. by right.
Qed.

(** X15: after a successful [move_vfs] the moved node keeps its effective
    name and is the child of the destination that goes by that name. *)
Theorem move_vfs_found_in_destination (from parent : option string) (s s' : Store) :
  move_vfs from parent s = (Returned (), s') →
  ∃ f p fromNode parentNode,
    from = Some f ∧ parent = Some p
    ∧ urlToNodeOriginal s f = Some fromNode
    ∧ urlToNodeOriginal s p = Some parentNode
    ∧ getNodeName (props (node_at s' fromNode)) = getNodeName (props (node_at s fromNode))
    ∧ find_child s' parentNode (getNodeName (props (node_at s fromNode))) = Some fromNode.
Proof.
  intros Hmove.
  destruct (move_vfs_returned _ _ _ _ Hmove)
    as (f & p & fromNode & parentNode & o & -> & -> & Hf & Hp & _ & Hc & ->).
  destruct (moved_children s fromNode parentNode o Hc) as (Hdst & _ & _ & Hprops).
  exists f, p, fromNode, parentNode. repeat (split; [done |]).
  split; [by rewrite Hprops |].
  unfold find_child, children_list. rewrite Hdst. cbn [default from_option id].
  apply find_app_last.
  - intros x Hx. rewrite Hprops. unfold isSameFilenameAs.
    exact (has_child_false _ _ _ _ Hc Hx).
  - rewrite Hprops. unfold isSameFilenameAs. by apply bool_decide_eq_true.
Qed.

Lemma move_vfs_found_in_destination_witness :
  find_child (move_vfs (Some "/a/x") (Some "/") move_store).2 vfs "x" = Some 3%nat.
Proof.
  destruct (move_vfs_found_in_destination (Some "/a/x") (Some "/") move_store _ eq_refl)
    as (f & p & fromNode & parentNode & [= <-] & [= <-] & [= <-] & [= <-] & _ & Hfind).
  exact Hfind.
Defined.

Lemma move_vfs_keeps_closed_witness :
  store_closed (move_vfs (Some "/a/x") (Some "/") move_store).2.
Proof.
  apply (move_vfs_keeps_closed (Some "/a/x") (Some "/") move_store).
  - apply store_closed_check_true. reflexivity.
  - reflexivity.
Defined.

Lemma move_vfs_keeps_unique_witness :
  siblings_unique (move_vfs (Some "/a/x") (Some "/") move_store).2.
Proof.
  apply (move_vfs_keeps_unique (Some "/a/x") (Some "/") move_store).
  - apply siblings_unique_check_true. reflexivity.
  - reflexivity.
Defined.

Lemma add_vfs_keeps_unique_witness :
  siblings_unique (add_vfs report_fs "http://localhost" Some None (Some "/inbox/report.txt")
                     None report_store).2.
Proof.
  apply (add_vfs_keeps_unique report_fs "http://localhost" Some None
           (Some "/inbox/report.txt") None report_store _
           (mkAddResult "report 2.txt" "http://localhost/report 2.txt")).
  - apply store_closed_check_true. reflexivity.
  - apply siblings_unique_check_true. reflexivity.
  - reflexivity.
Defined.

Lemma add_vfs_keeps_closed_witness :
  store_closed (add_vfs report_fs "http://localhost" Some None (Some "/inbox/report.txt")
                  None report_store).2.
Proof.
  apply (add_vfs_keeps_closed report_fs "http://localhost" Some None
           (Some "/inbox/report.txt") None report_store _
           (mkAddResult "report 2.txt" "http://localhost/report 2.txt")).
  - apply store_closed_check_true. reflexivity.
  - reflexivity.
Defined.

(** ** URIs of top-level nodes *)

Lemma string_app_assoc (a b c : string) : (a +:+ b) +:+ c = a +:+ (b +:+ c).
Proof. induction a as [| x a IH]; [done |]. by rewrite !string_app_cons, IH. Qed.

Lemma segments_go_no_slash (name acc : string) :
  no_slash name = true → acc +:+ name ≠ "" → segments_go acc name = [acc +:+ name].
Proof.
  revert acc. induction name as [| c name IH]; intros acc Hns Hne; cbn [segments_go].
  - rewrite string_app_nil_r in *. by rewrite decide_False.
  - unfold no_slash in Hns. cbn in Hns. apply andb_true_iff in Hns as [Hc Hns].
    apply negb_true_iff in Hc. rewrite Hc.
    rewrite IH; [| done |]; rewrite string_app_assoc; done.
Qed.

Lemma segments_top_level (name : string) :
  no_slash name = true → name ≠ "" → segments ("/" +:+ name) = [name].
Proof.
  intros Hns Hne. unfold segments.
  change ("/" +:+ name) with (String "/" name). cbn [segments_go].
  change (Path.is_slash "/") with true. cbn match.
  destruct (decide ("" = "")) as [_ | ?]; [| done].
  by apply (segments_go_no_slash name "").
Qed.

Lemma urlToNodeOriginal_top_level (s : Store) (name : string) :
  no_slash name = true → name ≠ "" →
  urlToNodeOriginal s ("/" +:+ name) = find_child s vfs name.
Proof.
  intros Hns Hne. unfold urlToNodeOriginal, urlToNode.
  rewrite (segments_top_level _ Hns Hne). cbn. by destruct (find_child s vfs name).
Qed.

Lemma drop_while_all (p : ascii → bool) (l : list ascii) :
  forallb p l = true → Path.drop_while p l = [].
Proof.
  induction l as [| c l IH]; [done |]. cbn. intros [Hc Hl]%andb_true_iff.
  rewrite Hc. by apply IH.
Qed.

Lemma forallb_reverse (p : ascii → bool) (l : list ascii) :
  forallb p l = true → forallb p (reverse l) = true.
Proof.
  rewrite !forallb_forall. intros H x Hx. apply H.
  rewrite <- list_elem_of_In in *. by rewrite elem_of_reverse in Hx.
Qed.

Lemma drop_while_forallb (p q : ascii → bool) (l : list ascii) :
  forallb q l = true → forallb q (Path.drop_while p l) = true.
Proof.
  induction l as [| c l IH]; [done |]. intros H. cbn [Path.drop_while].
  destruct (p c); [| done]. apply IH. cbn in H. by apply andb_true_iff in H as [_ H].
Qed.

Lemma dirname_top_level (name : string) :
  no_slash name = true → Path.dirname ("/" +:+ name) = "/".
Proof.
  intros Hns. unfold Path.dirname.
  change (String.list_ascii_of_string ("/" +:+ name))
    with ("/"%char :: String.list_ascii_of_string name).
  cbv zeta. change (Path.is_slash "/") with true. cbn match.
  unfold no_slash in Hns. apply forallb_reverse in Hns.
  destruct (Path.drop_while Path.is_slash (reverse (String.list_ascii_of_string name)))
    as [| c r] eqn:Hr; [reflexivity |].
  assert (Hall : forallb (λ c, negb (Path.is_slash c)) (c :: r) = true).
  { rewrite <- Hr. by apply drop_while_forallb. }
  rewrite (drop_while_all _ _ Hall). reflexivity.
Qed.

(** ** Adding, then resolving *)

(** X12: a node added under the root is found again by its name: when the
    returned name is not empty and has no separator in it, the URI made of
    a separator and that name resolves to the new node. *)
Theorem add_vfs_then_resolve (isDirectory : string → option bool) (baseUrl : string)
    (encodeURIComponent : string → option string) (source name : option string)
    (s s' : Store) (res : AddResult) :
  add_vfs isDirectory baseUrl encodeURIComponent None source name s = (Returned res, s') →
  is_Some (s !! vfs) →
  no_slash (added_name res) = true →
  added_name res ≠ "" →
  ∃ c, s !! c = None
       ∧ urlToNodeOriginal s' ("/" +:+ added_name res) = Some c
       ∧ getNodeName (props (node_at s' c)) = added_name res.
Proof.
  intros Hadd Hroot Hns Hne.
  destruct (add_vfs_returned _ _ _ _ _ _ _ _ _ Hadd)
    as (p & name1 & link & Hp & Hfree & [= ->] & ->).
  cbn in Hp. injection Hp as <-. cbn [added_name] in *.
  pose proof (new_child_name _ _ _ _ Hfree) as Hnew.
  set (c := fresh (dom s)) in *.
  assert (Hc : s !! c = None) by apply not_elem_of_dom, is_fresh.
  assert (Hvc : vfs ≠ c) by (intros Hv; rewrite Hv, Hc in Hroot; by destruct Hroot).
  assert (Hchild : getNodeName (props (node_at
            (set_children vfs (Some (c :: children_list (node_at s vfs)))
               (<[c := mkNode (simplifyName (<["name" := VStr name1]>
                                 (new_child (drive_source source) name))) None]> s)) c))
          = name1).
  { by rewrite props_set_children, node_at_insert_eq. }
  exists c. split; [done |]. split; [| done].
  rewrite urlToNodeOriginal_top_level by done.
  unfold find_child. rewrite node_at_set_children_eq, children_list_some.
  cbn [List.find]. unfold isSameFilenameAs at 1. rewrite Hchild.
  by rewrite bool_decide_eq_true_2.
Qed.

Lemma add_vfs_then_resolve_witness :
  ∃ c, report_store !! c = None
       ∧ urlToNodeOriginal
           (add_vfs report_fs "http://localhost" Some None (Some "/inbox/report.txt") None
              report_store).2 "/report 2.txt" = Some c.
Proof.
  destruct (add_vfs_then_resolve report_fs "http://localhost" Some (Some "/inbox/report.txt")
              None report_store _ (mkAddResult "report 2.txt" "http://localhost/report 2.txt")
              eq_refl) as (c & Hc & Hres & _).
  - by eexists.
  - reflexivity.
  - discriminate.
  - exists c. split; [exact Hc | exact Hres].
Defined.

(** ** Deleting, further *)

Lemma shrunk_unique (s s' : Store) : shrunk s s' → siblings_unique s → siblings_unique s'.
Proof.
  intros Hsh Hu l. unfold child_names.
  rewrite (list_fmap_ext _ (λ c, getNodeName (props (node_at s c))))
    by (intros i x _; by rewrite (proj1 (Hsh x))).
  eapply sublist_NoDup; [apply (Hu l) |].
  apply fmap_sublist, (Hsh l).
Qed.

(** X16: [del_vfs] only takes children away.  After a batch every node has
    the properties it had, its children are children it had, in the order
    they were in, and a [children] field is neither made nor deleted (the
    last child gone, the field holds an empty array).  This does not
    depend on the callbacks going on in step: it holds in whatever order
    they take their turns. *)
Theorem del_vfs_only_removes (uris : list value) (s : Store) (l : loc) :
  (props (node_at (del_vfs (Some uris) s).2 l) = props (node_at s l)
   ∧ children_list (node_at (del_vfs (Some uris) s).2 l)
       `sublist_of` children_list (node_at s l)
   ∧ (children (node_at (del_vfs (Some uris) s).2 l) = None
      ↔ children (node_at s l) = None))
  ∧ (del_vfs (Some uris) s).2
    = (del_vfs_run (in_step (length uris)) (del_vfs_start <$> uris) s).2
  ∧ ∀ sched : list nat,
      shrunk s (del_vfs_run sched (del_vfs_start <$> uris) s).2.
Proof.
  split; [apply (del_vfs_shrunk uris s l) |]. split.
  - rewrite del_vfs_rounds_settled. cbn [snd]. by rewrite del_vfs_each_run.
  - intros sched. apply del_vfs_run_shrunk.
Qed.

(** X17: [del_vfs] keeps the effective names of siblings distinct, and so
    do the callbacks in whatever order they take their turns. *)
Theorem del_vfs_keeps_unique (uris : list value) (s : Store) :
  siblings_unique s →
  siblings_unique (del_vfs (Some uris) s).2
  ∧ ∀ sched : list nat,
      siblings_unique (del_vfs_run sched (del_vfs_start <$> uris) s).2.
Proof.
  intros Hu. split.
  - eapply shrunk_unique; [apply del_vfs_shrunk | done].
  - intros sched. eapply shrunk_unique; [apply del_vfs_run_shrunk | done].
Qed.

Lemma del_vfs_keeps_unique_witness :
  siblings_unique (del_vfs (Some [VStr "/b"; VStr "/b"]) del_store).2
  ∧ siblings_unique
      (del_vfs_run [0; 0; 0; 1; 1; 1]%nat (del_vfs_start <$> [VStr "/b"; VStr "/b"])
         del_store).2.
Proof.
  destruct (del_vfs_keeps_unique [VStr "/b"; VStr "/b"] del_store) as [Hstep Hany].
  - apply siblings_unique_check_true. reflexivity.
  - split; [exact Hstep | apply Hany].
Defined.

(** A turn that does not end with [0] leaves the tree as it is. *)
Lemma del_vfs_turn_rejected (c : DelCallback) (s : Store) :
  (del_vfs_turn c s).1 ≠ Settled 0 → (del_vfs_turn c s).2 = s.
Proof.
  destruct c as [uri | uri node | node p | code]; cbn [del_vfs_turn]; try done.
  - by destruct (urlToNodeOriginal s uri).
  - by destruct (urlToNodeOriginal s (Path.dirname uri)).
  - by destruct (children (node_at s p)).
Qed.

Lemma del_vfs_round_rejected (cs : list DelCallback) (s : Store) :
  Forall (λ c, (del_vfs_turn c s).1 ≠ Settled 0) cs → (del_vfs_round cs s).2 = s.
Proof.
  induction 1 as [| c cs Hc _ IH]; [done |].
  cbn [del_vfs_round]. pose proof (del_vfs_turn_rejected c s Hc) as Hs.
  destruct (del_vfs_turn c s) as [c' s1]. cbn [snd] in Hs. subst s1.
  by destruct (del_vfs_round cs s).
Qed.

(** X18: a batch in which every entry is answered with an error code leaves
    the tree as it was. *)
Theorem del_vfs_all_rejected (uris : list value) (s s' : Store) (errors : list Z) :
  del_vfs (Some uris) s = (Returned errors, s') →
  Forall (λ code, code ≠ 0) errors →
  s' = s.
Proof.
  rewrite del_vfs_rounds_settled, del_vfs_each_resolved. cbn [snd].
  intros [= <- <-] Hcodes. apply del_vfs_round_rejected.
  apply Forall_fmap, Forall_forall. intros u Hu. cbn.
  rewrite (proj2 (del_vfs_uri_turn u s)). cbn [fst].
  rewrite Forall_fmap, Forall_forall in Hcodes. specialize (Hcodes u Hu). cbn in Hcodes.
  congruence.
Qed.

Lemma del_vfs_all_rejected_witness :
  (del_vfs (Some [VNum 1; VStr "/"; VStr "/nothing"]) del_store).2 = del_store.
Proof.
  apply (del_vfs_all_rejected [VNum 1; VStr "/"; VStr "/nothing"] del_store _
           [HTTP_BAD_REQUEST; HTTP_NOT_ACCEPTABLE; HTTP_NOT_FOUND]).
  - reflexivity.
  - repeat constructor; discriminate.
Defined.

Lemma delete_take_drop {A} (l : list A) (i : nat) :
  delete i l = (take i l ++ drop (S i) l)%list.
Proof.
  revert i. induction l as [| x l IH]; intros [| i]; try done.
  cbn. f_equal. apply IH.
Qed.

Lemma delete_first_occurrence (node : loc) (cs : list loc) (i : nat) :
  cs !! i = Some node →
  length (delete i cs) = (length cs - 1)%nat
  ∧ (NoDup cs → node ∉ delete i cs)
  ∧ ∀ x, x ≠ node → (x ∈ delete i cs ↔ x ∈ cs).
Proof.
  intros Hi. pose proof (take_drop_middle _ _ _ Hi) as Hsplit.
  rewrite delete_take_drop. split; [| split].
  - rewrite <- Hsplit at 3. rewrite !length_app. cbn [length]. lia.
  - rewrite <- Hsplit at 1. intros Hnd.
    apply NoDup_app in Hnd as (_ & Hdisj & Hnd). apply NoDup_cons in Hnd as [Hnot _].
    intros [Hin | Hin]%elem_of_app; [| done]. apply (Hdisj node Hin). by left.
  - intros x Hx. rewrite <- Hsplit at 3. rewrite !elem_of_app, elem_of_cons. tauto.
Qed.

Lemma del_vfs_uri_first_occurrence (s : Store) (uri : string)
    (node parentNode : loc) (cs : list loc) :
  uri ≠ "/" →
  urlToNodeOriginal s uri = Some node →
  urlToNodeOriginal s (Path.dirname uri) = Some parentNode →
  children (node_at s parentNode) = Some cs →
  node ∈ cs →
  ∃ i, cs !! i = Some node
       ∧ (node ∉ take i cs)
       ∧ indexOf node cs = Z.of_nat i
       ∧ del_vfs_uri (VStr uri) s = (0, set_children parentNode (Some (delete i cs)) s).
Proof.
  intros Hne Hn Hp Hc Hin.
  destruct (indexOf_elem _ _ Hin) as (i & Hidx & Hi & Hfirst).
  exists i. split; [done |]. split; [done |]. split; [done |].
  cbn [del_vfs_uri]. rewrite decide_False by done. rewrite Hn, Hp, Hc, Hidx.
  rewrite splice_at; [done |]. by apply lookup_lt_Some in Hi.
Qed.

(** X19: deleting a node that is among the children of its parent removes
    its first occurrence there and nothing else: the entry is answered with
    [0], the children are one fewer, every other child stays, and the node
    itself is gone when it occurred once. *)
Theorem del_vfs_removes_the_child (s : Store) (uri : string)
    (node parentNode : loc) (cs : list loc) :
  uri ≠ "/" →
  urlToNodeOriginal s uri = Some node →
  urlToNodeOriginal s (Path.dirname uri) = Some parentNode →
  children (node_at s parentNode) = Some cs →
  node ∈ cs →
  ∃ i, cs !! i = Some node
       ∧ (node ∉ take i cs)
       ∧ del_vfs (Some [VStr uri]) s
         = (Returned [0], set_children parentNode (Some (delete i cs)) s)
       ∧ length (delete i cs) = (length cs - 1)%nat
       ∧ (NoDup cs → node ∉ delete i cs)
       ∧ ∀ x, x ≠ node → (x ∈ delete i cs ↔ x ∈ cs).
Proof.
  intros Hne Hn Hp Hc Hin.
  destruct (del_vfs_uri_first_occurrence s uri node parentNode cs Hne Hn Hp Hc Hin)
    as (i & Hi & Hfirst & _ & Hdel).
  exists i. split; [done |]. split; [done |].
  split; [| by apply delete_first_occurrence].
  by rewrite del_vfs_single, Hdel.
Qed.

Lemma del_vfs_removes_the_child_witness :
  ∃ i, del_vfs (Some [VStr "/b"]) del_store
       = (Returned [0], set_children vfs (Some (delete i [1%nat; 2%nat; 3%nat])) del_store)
       ∧ [1%nat; 2%nat; 3%nat] !! i = Some 2%nat.
Proof.
  destruct (del_vfs_removes_the_child del_store "/b" 2%nat vfs [1%nat; 2%nat; 3%nat])
    as (i & Hi & _ & Hdel & _); try reflexivity.
  - discriminate.
  - by_evaluation.
  - exists i. split; [exact Hdel | exact Hi].
Defined.

Lemma set_children_twice (l : loc) (c1 c2 : option (list loc)) (s : Store) :
  set_children l c2 (set_children l c1 s) = set_children l c2 s.
Proof.
  unfold set_children at 1. rewrite node_at_set_children_eq. cbn [props].
  unfold set_children. apply insert_insert_eq.
Qed.

(** X20: one URI twice in a batch deletes more than its node.  Both
    callbacks get the node before either splices: the first removes it,
    the second does not find it among the children, so that [indexOf]
    gives [-1] and [splice(-1, 1)] removes the last of the children that
    are left.  Both entries are answered with [0]. *)
Theorem del_vfs_same_uri_twice (s : Store) (uri : string)
    (node parentNode : loc) (cs : list loc) :
  uri ≠ "/" →
  urlToNodeOriginal s uri = Some node →
  urlToNodeOriginal s (Path.dirname uri) = Some parentNode →
  children (node_at s parentNode) = Some cs →
  node ∈ cs →
  NoDup cs →
  ∃ i, cs !! i = Some node
       ∧ del_vfs (Some [VStr uri; VStr uri]) s
         = (Returned [0; 0],
            set_children parentNode (Some (take (length cs - 2) (delete i cs))) s)
       ∧ ∀ rest last, delete i cs = (rest ++ [last])%list →
           take (length cs - 2) (delete i cs) = rest ∧ last ≠ node.
Proof.
  intros Hne Hn Hp Hc Hin Hnd.
  destruct (del_vfs_uri_first_occurrence s uri node parentNode cs Hne Hn Hp Hc Hin)
    as (i & Hi & _ & Hidx & Hdel).
  destruct (delete_first_occurrence node cs i Hi) as (Hlen & Hgone & _).
  specialize (Hgone Hnd).
  exists i. split; [done |]. split.
  - rewrite del_vfs_rounds_settled. cbn [fmap list_fmap]. rewrite Hdel. cbn [fst].
    f_equal. rewrite del_vfs_each_resolved. cbn [snd fmap list_fmap].
    assert (Hres : del_vfs_resolved s (VStr uri) = Resumed node parentNode).
    { unfold del_vfs_resolved. cbn [del_vfs_start]. rewrite decide_False by done.
      cbn [del_vfs_turn]. rewrite Hn. cbn [fst del_vfs_turn]. by rewrite Hp. }
    rewrite Hres. cbn [del_vfs_round del_vfs_turn]. rewrite Hc, Hidx.
    rewrite splice_at by (by apply lookup_lt_Some in Hi).
    rewrite node_at_set_children_eq. cbn [children snd].
    rewrite (indexOf_not_elem _ _ Hgone), splice_last, set_children_twice, Hlen.
    by replace (length cs - 1 - 1)%nat with (length cs - 2)%nat by lia.
  - intros rest last Hsplit. split.
    + rewrite Hsplit. apply (f_equal length) in Hsplit. rewrite Hlen, length_app in Hsplit.
      cbn [length] in Hsplit. replace (length cs - 2)%nat with (length rest) by lia.
      by rewrite take_app_length.
    + intros ->. apply Hgone. rewrite Hsplit. apply elem_of_app. right. by left.
Qed.

Lemma del_vfs_same_uri_twice_witness :
  ∃ i, [1%nat; 2%nat; 3%nat] !! i = Some 2%nat
       ∧ del_vfs (Some [VStr "/b"; VStr "/b"]) del_store
         = (Returned [0; 0], set_children vfs (Some (take 1 (delete i [1; 2; 3]%nat))) del_store).
Proof.
  destruct (del_vfs_same_uri_twice del_store "/b" 2%nat vfs [1%nat; 2%nat; 3%nat])
    as (i & Hi & Hdel & _); try reflexivity.
  - discriminate.
  - by_evaluation.
  - by_evaluation.
  - exists i. split; [exact Hi | exact Hdel].
Defined.

(** ** The directory lister, further *)

Section ListerMore.

Variable IS_WINDOWS : bool.
Variable getDrives : option (list string).
Variable makeMatcher : option string → string → bool.
Variable resolve : string → string.
Variable join : string → string → string.
Variable dirStream : string → list (string * bool) * option string.
Variable stat : string → option Stats.
Variable aborted : nat → bool.

Abbreviation loop' := (ls_loop makeMatcher join stat aborted).
Abbreviation ls := (get_ls IS_WINDOWS getDrives makeMatcher resolve join dirStream stat aborted).

(** Every entry the loop adds stems from a stream entry that it wants and
    whose [stat] succeeded, and it adds them in the order of the stream. *)
Lemma ls_loop_sound (path : string) (files : bool) (mask : option string) (pos : nat)
    (entries : list (string * bool)) :
  e_n <$> (loop' path files mask pos entries).1 `sublist_of` entries.*1
  ∧ Forall (λ e, ∃ entry st, entry ∈ entries
                   ∧ ls_wanted makeMatcher files mask entry = true
                   ∧ stat (join path entry.1) = Some st
                   ∧ e = ls_entry entry st)
      (loop' path files mask pos entries).1.
Proof.
  revert pos. induction entries as [| entry rest IH]; intros pos.
  - split; [done | by constructor].
  - destruct (aborted pos) eqn:Hab.
    + destruct entry. cbn [ls_loop]. rewrite Hab. split; [apply sublist_nil_l | by constructor].
    + rewrite ls_loop_step by done. cbn [fst]. destruct (IH (S pos)) as [Hsub Hall].
      assert (Hall' : Forall (λ e, ∃ entry0 st, entry0 ∈ entry :: rest
                   ∧ ls_wanted makeMatcher files mask entry0 = true
                   ∧ stat (join path entry0.1) = Some st
                   ∧ e = ls_entry entry0 st) (loop' path files mask (S pos) rest).1).
      { eapply Forall_impl; [exact Hall |]. intros e (e0 & st & Hin & ?).
        exists e0, st. split; [by right | done]. }
      destruct (ls_wanted makeMatcher files mask entry) eqn:Hw;
        [destruct (stat (join path entry.1)) as [st|] eqn:Hst |].
      * split; [cbn; by apply sublist_skip |].
        constructor; [| done]. exists entry, st. split; [by left | done].
      * split; [by apply sublist_cons | done].
      * split; [by apply sublist_cons | done].
Qed.

(** X21: outside the listing of drives, [get_ls] adds the entries in the
    order of the directory stream, skipping some: each one stems from a
    stream entry whose [stat] succeeded and carries its name, size, times
    and kind; and a file is added only when files are asked for and, with a
    mask given, the matcher accepts its name. *)
Theorem get_ls_entries_sound (path : option string) (files : option bool)
    (fileMask : option string) :
  negb (truthy_param path) && IS_WINDOWS = false →
  let p := ls_path resolve path in
  e_n <$> (ls path files fileMask).1 `sublist_of` (dirStream p).1.*1
  ∧ Forall (λ e, ∃ entry st,
              entry ∈ (dirStream p).1
              ∧ stat (join p entry.1) = Some st
              ∧ e = ls_entry entry st
              ∧ (entry.2 = false →
                 default true files = true
                 ∧ (truthy_param fileMask = true → makeMatcher fileMask entry.1 = true)))
      (ls path files fileMask).1.
Proof.
  intros Hwin p. unfold get_ls. rewrite Hwin. fold (ls_path resolve path). fold p.
  destruct (dirStream p) as [entries err]. cbn [fst].
  pose proof (ls_loop_sound p (default true files) fileMask 0 entries) as [Hsub Hall].
  destruct (loop' p (default true files) fileMask 0 entries) as [added ret]. cbn [fst] in *.
  assert (Hgoal : e_n <$> added `sublist_of` entries.*1
    ∧ Forall (λ e, ∃ entry st, entry ∈ entries ∧ stat (join p entry.1) = Some st
              ∧ e = ls_entry entry st
              ∧ (entry.2 = false →
                 default true files = true
                 ∧ (truthy_param fileMask = true → makeMatcher fileMask entry.1 = true)))
      added).
  { split; [done |]. eapply Forall_impl; [exact Hall |].
    intros e (entry & st & Hin & Hw & Hst & ->). exists entry, st.
    repeat (split; [done |]). intros Hfile. unfold ls_wanted in Hw. rewrite Hfile in Hw.
    cbn [orb] in Hw. apply andb_true_iff in Hw as [Hf Hm]. split; [done |].
    intros Ht. rewrite Ht in Hm. done. }
  destruct ret; [done |]. by destruct err.
Qed.

Lemma ls_loop_abort (path : string) (files : bool) (mask : option string)
    (entries : list (string * bool)) :
  ∀ pos k, aborted (pos + k) = true → (k < length entries)%nat →
    (loop' path files mask pos entries).2 = true
    ∧ e_n <$> (loop' path files mask pos entries).1 `sublist_of` take k entries.*1.
Proof.
  induction entries as [| entry rest IH]; intros pos k Hab Hk; [cbn in Hk; lia |].
  destruct (aborted pos) eqn:Hpos.
  - destruct entry. cbn [ls_loop]. rewrite Hpos. split; [done | apply sublist_nil_l].
  - destruct k as [| k]; [rewrite Nat.add_0_r in Hab; congruence |].
    rewrite ls_loop_step by done. cbn [fst snd].
    destruct (IH (S pos) k) as [Hret Hsub].
    { by replace (S pos + k)%nat with (pos + S k)%nat by lia. }
    { cbn in Hk. lia. }
    split; [done |]. cbn [fmap list_fmap take].
    destruct (if ls_wanted makeMatcher files mask entry then _ else _).
    + cbn. by apply sublist_skip.
    + by apply sublist_cons.
Qed.

(** X22: once the request is seen aborted, nothing more is added and the list
    is neither closed nor put in error: if the request is aborted when the
    stream entry at position [n] is reached, the entries added stem from the
    first [n] stream entries. *)
Theorem get_ls_stops_on_abort (path : option string) (files : option bool)
    (fileMask : option string) (n : nat) :
  negb (truthy_param path) && IS_WINDOWS = false →
  aborted n = true →
  (n < length (dirStream (ls_path resolve path)).1)%nat →
  (ls path files fileMask).2 = LeftOpen
  ∧ e_n <$> (ls path files fileMask).1
      `sublist_of` take n (dirStream (ls_path resolve path)).1.*1.
Proof.
  intros Hwin Hab Hn. unfold get_ls. rewrite Hwin. fold (ls_path resolve path).
  destruct (dirStream (ls_path resolve path)) as [entries err]. cbn [fst] in *.
  destruct (ls_loop_abort (ls_path resolve path) (default true files) fileMask entries 0 n
              Hab Hn) as [Hret Hsub].
  destruct (loop' _ _ _ 0 entries) as [added ret]. cbn [fst snd] in *. by subst ret.
Qed.

Lemma ls_loop_complete (path : string) (files : bool) (mask : option string)
    (entries : list (string * bool)) :
  ∀ pos, (∀ i, (i < length entries)%nat → aborted (pos + i) = false) →
    (loop' path files mask pos entries).2 = false
    ∧ ∀ entry st, entry ∈ entries →
        ls_wanted makeMatcher files mask entry = true →
        stat (join path entry.1) = Some st →
        ls_entry entry st ∈ (loop' path files mask pos entries).1.
Proof.
  induction entries as [| entry rest IH]; intros pos Hab.
  - split; [done |]. intros ? ? Hin. by apply elem_of_nil in Hin.
  - assert (Hpos : aborted pos = false).
    { rewrite <- (Nat.add_0_r pos). apply Hab. cbn. lia. }
    rewrite ls_loop_step by done. cbn [fst snd].
    destruct (IH (S pos)) as [Hret Hall].
    { intros i Hi. replace (S pos + i)%nat with (pos + S i)%nat by lia.
      apply Hab. cbn. lia. }
    split; [done |]. intros e st Hin Hw Hst.
    apply elem_of_cons in Hin as [-> | Hin].
    + rewrite Hw, Hst. by left.
    + specialize (Hall e st Hin Hw Hst).
      destruct (if ls_wanted makeMatcher files mask entry then _ else _); [by right | done].
Qed.

(** X23: when the request is not aborted, the listing ends closed if the
    stream ends without error and in error, with the reason of the stream,
    otherwise; and it has an entry for every stream entry that is wanted (a
    directory, or a file when files are asked for and the mask, if given,
    accepts it) and whose [stat] succeeds. *)
Theorem get_ls_completes (path : option string) (files : option bool)
    (fileMask : option string) :
  negb (truthy_param path) && IS_WINDOWS = false →
  (∀ i, (i < length (dirStream (ls_path resolve path)).1)%nat → aborted i = false) →
  let p := ls_path resolve path in
  (ls path files fileMask).2
  = match (dirStream p).2 with Some e => Errored e | None => Closed end
  ∧ ∀ entry st, entry ∈ (dirStream p).1 →
      ls_wanted makeMatcher (default true files) fileMask entry = true →
      stat (join p entry.1) = Some st →
      ls_entry entry st ∈ (ls path files fileMask).1.
Proof.
  intros Hwin Hab p. unfold get_ls. rewrite Hwin. fold (ls_path resolve path). fold p.
  fold p in Hab. destruct (dirStream p) as [entries err]. cbn [fst snd] in *.
  destruct (ls_loop_complete p (default true files) fileMask entries 0 Hab) as [Hret Hall].
  destruct (loop' _ _ _ 0 entries) as [added ret]. cbn [fst snd] in *. subst ret.
  by destruct err.
Qed.

(** X24: with no path on Windows, [get_ls] lists the drives and nothing else:
    one directory entry per drive, in order, without size or times,
    whatever [files] and the mask are; the list is left open, and it is
    left open and empty when the drives cannot be read. *)
Theorem get_ls_lists_drives (path : option string) (files : option bool)
    (fileMask : option string) :
  truthy_param path = false →
  IS_WINDOWS = true →
  (ls path files fileMask).2 = LeftOpen
  ∧ e_n <$> (ls path files fileMask).1 = default [] getDrives
  ∧ Forall (λ e, e_k e = Some "d" ∧ e_s e = None ∧ e_c e = None ∧ e_m e = None)
      (ls path files fileMask).1.
Proof.
  intros Hp Hw. unfold get_ls. rewrite Hp, Hw. cbn [negb andb].
  destruct getDrives as [drives|]; cbn [fst snd default from_option id].
  - split; [done |]. split.
    + induction drives as [| d drives IH]; [done |]. cbn. f_equal. exact IH.
    + induction drives; by constructor.
  - split; [done |]. split; [done | by constructor].
Qed.

End ListerMore.

Lemma get_ls_entries_sound_witness :
  let ls := get_ls false None ls_matcher id ls_join ls_stream ls_stat (λ _, false) in
  e_n <$> (ls (Some "/data") None (Some "*.txt")).1
    `sublist_of` ["sub"; "a.txt"; "b.bin"; "etc"]
  ∧ e_n <$> (ls (Some "/data") None (Some "*.txt")).1 = ["sub"; "a.txt"].
Proof.
  split; [| reflexivity].
  exact (proj1 (get_ls_entries_sound false None ls_matcher id ls_join ls_stream ls_stat
                  (λ _, false) (Some "/data") None (Some "*.txt") eq_refl)).
Defined.

Lemma get_ls_stops_on_abort_witness :
  let ls := get_ls false None ls_matcher id ls_join ls_stream ls_stat
              (λ i, (i =? 2)%nat) in
  (ls (Some "/data") None None).2 = LeftOpen
  ∧ e_n <$> (ls (Some "/data") None None).1 `sublist_of` ["sub"; "a.txt"].
Proof.
  apply (get_ls_stops_on_abort false None ls_matcher id ls_join ls_stream ls_stat
           (λ i, (i =? 2)%nat) (Some "/data") None None 2 eq_refl eq_refl).
  by_evaluation.
Defined.

Lemma get_ls_completes_witness :
  let ls := get_ls false None ls_matcher id ls_join ls_stream ls_stat (λ _, false) in
  (ls (Some "/data") None (Some "*.txt")).2 = Closed
  ∧ ls_entry ("a.txt", false) (mkStats 1 2 3) ∈ (ls (Some "/data") None (Some "*.txt")).1.
Proof.
  destruct (get_ls_completes false None ls_matcher id ls_join ls_stream ls_stat
              (λ _, false) (Some "/data") None (Some "*.txt") eq_refl (λ _ _, eq_refl))
    as [Hend Hall].
  split; [exact Hend |].
  apply Hall; [| reflexivity | reflexivity].
  apply list_elem_of_lookup. by exists 1%nat.
Defined.

Lemma get_ls_lists_drives_witness :
  let ls := get_ls true (Some (UtilOs.getDrives wmic_output)) ls_matcher id ls_join
              ls_stream ls_stat (λ _, false) in
  e_n <$> (ls None (Some false) (Some "*.txt")).1 = ["C:"; "D:"]
  ∧ (ls None (Some false) (Some "*.txt")).2 = LeftOpen.
Proof.
  destruct (get_ls_lists_drives true (Some (UtilOs.getDrives wmic_output)) ls_matcher id
              ls_join ls_stream ls_stat (λ _, false) None (Some false) (Some "*.txt")
              eq_refl eq_refl) as (Hend & Hnames & _).
  split; [exact Hnames | exact Hend].
Defined.

(** ** Listing the drives *)

Lemma list_of_string_app (a b : string) :
  String.list_ascii_of_string (a +:+ b)
  = (String.list_ascii_of_string a ++ String.list_ascii_of_string b)%list.
Proof.
  induction a as [| c a IH]; [done |].
  rewrite string_app_cons. cbn [String.list_ascii_of_string app]. by rewrite IH.
Qed.

Lemma drop_while_idem (p : ascii → bool) (l : list ascii) :
  Path.drop_while p (Path.drop_while p l) = Path.drop_while p l.
Proof.
  induction l as [| c l IH]; [done |]. cbn [Path.drop_while].
  destruct (p c) eqn:Hc; [done |]. cbn [Path.drop_while]. by rewrite Hc.
Qed.

Lemma drop_while_app_last (p : ascii → bool) (l : list ascii) (c : ascii) :
  p c = false → Path.drop_while p (l ++ [c]) = (Path.drop_while p l ++ [c])%list.
Proof.
  intros Hc. induction l as [| d l IH]; cbn [app Path.drop_while].
  - by rewrite Hc.
  - by destruct (p d).
Qed.

(** Trimming from both ends leaves a list that neither starts nor ends
    with white space. *)
Lemma trimmed_list (l : list ascii) :
  let t := reverse (Path.drop_while UtilOs.is_space
                      (reverse (Path.drop_while UtilOs.is_space l))) in
  Path.drop_while UtilOs.is_space t = t
  ∧ Path.drop_while UtilOs.is_space (reverse t) = reverse t.
Proof.
  cbv zeta. rewrite reverse_involutive, drop_while_idem. split; [| done].
  destruct (Path.drop_while UtilOs.is_space l) as [| c m] eqn:Hm; [done |].
  apply drop_while_head in Hm as Hc.
  rewrite reverse_cons, drop_while_app_last, reverse_app by done.
  cbn [reverse app Path.drop_while]. change (reverse [c]) with [c]. cbn [app Path.drop_while].
  by rewrite Hc.
Qed.

Lemma trim_idempotent (s : string) : UtilOs.trim (UtilOs.trim s) = UtilOs.trim s.
Proof.
  unfold UtilOs.trim at 1 2. rewrite String.list_ascii_of_string_of_list_ascii.
  destruct (trimmed_list (String.list_ascii_of_string s)) as [H1 H2].
  rewrite H1, H2. by rewrite reverse_involutive.
Qed.

Lemma split_go_line (sep : ascii) (h rest acc : list ascii) :
  forallb (λ c, negb (Ascii.eqb c sep)) h = true →
  UtilOs.split_go sep acc (h ++ sep :: rest)
  = String.string_of_list_ascii (reverse acc ++ h) :: UtilOs.split_go sep [] rest.
Proof.
  revert acc. induction h as [| c h IH]; intros acc Hh; cbn [app UtilOs.split_go].
  - rewrite Ascii.eqb_refl. by rewrite app_nil_r.
  - cbn in Hh. apply andb_true_iff in Hh as [Hc Hh]. apply negb_true_iff in Hc.
    rewrite Hc, IH by done. by rewrite reverse_cons, <- app_assoc.
Qed.

Lemma split_go_nonempty (sep : ascii) (acc l : list ascii) :
  UtilOs.split_go sep acc l ≠ [].
Proof.
  revert acc. induction l as [| c l IH]; intros acc; cbn [UtilOs.split_go]; [done |].
  destruct (Ascii.eqb c sep); [done | apply IH].
Qed.

(** X25: [getDrives] gives no empty name and no name with white space at
    either end (trimming a name again changes nothing); the first line of
    the output is dropped whatever it holds; and an output of one line
    gives no drive. *)
Theorem getDrives_names_trimmed (stdout : string) :
  Forall (λ d, d ≠ "" ∧ UtilOs.trim d = d) (UtilOs.getDrives stdout)
  ∧ (∀ header rest,
       forallb (λ c, negb (Ascii.eqb c UtilOs.newline))
               (String.list_ascii_of_string header) = true →
       UtilOs.getDrives (header +:+ String UtilOs.newline rest)
       = filter (λ x, x ≠ "") (UtilOs.trim <$> UtilOs.split UtilOs.newline rest))
  ∧ (forallb (λ c, negb (Ascii.eqb c UtilOs.newline))
             (String.list_ascii_of_string stdout) = true →
     UtilOs.getDrives stdout = []).
Proof.
  split; [| split].
  - unfold UtilOs.getDrives. apply Forall_forall. intros d [Hd Hin]%list_elem_of_filter.
    split; [done |]. apply list_elem_of_fmap in Hin as (x & -> & _). apply trim_idempotent.
  - intros header rest Hh. unfold UtilOs.getDrives, UtilOs.split.
    rewrite list_of_string_app. cbn [String.list_ascii_of_string].
    by rewrite (split_go_line _ _ _ [] Hh).
  - intros Hs. unfold UtilOs.getDrives, UtilOs.split.
    assert (H : ∀ acc l, forallb (λ c, negb (Ascii.eqb c UtilOs.newline)) l = true →
              tail (UtilOs.split_go UtilOs.newline acc l) = []).
    { intros acc l. revert acc. induction l as [| c l IH]; intros acc Hl; [done |].
      cbn in Hl. apply andb_true_iff in Hl as [Hc Hl]. apply negb_true_iff in Hc.
      cbn [UtilOs.split_go]. rewrite Hc. by apply IH. }
    by rewrite H.
Qed.

Lemma getDrives_names_trimmed_witness :
  UtilOs.getDrives ("Name" +:+ String UtilOs.newline " C: ") = ["C:"]
  ∧ UtilOs.getDrives "Name" = [].
Proof.
  split.
  - exact (proj1 (proj2 (getDrives_names_trimmed "")) "Name" " C: " eq_refl).
  - exact (proj2 (proj2 (getDrives_names_trimmed "Name")) eq_refl).
Defined.

(** ** Resolving a path *)

Lemma drop_while_length (p : ascii → bool) (l : list ascii) :
  (length (Path.drop_while p l) ≤ length l)%nat.
Proof.
  induction l as [| c l IH]; [done |]. cbn [Path.drop_while].
  destruct (p c); cbn [length]; lia.
Qed.

(** The parent of an absolute path other than ["/"] is absolute and
    shorter. *)
Lemma dirname_absolute (path : string) :
  is_absolute path = true → path ≠ "/" →
  is_absolute (Path.dirname path) = true
  ∧ (String.length (Path.dirname path) < String.length path)%nat.
Proof.
  destruct path as [| c0 rest]; [done |]. cbn [is_absolute]. intros Hc0 Hne.
  unfold Path.dirname. cbn [String.list_ascii_of_string String.length].
  rewrite Hc0. cbn [andb].
  assert (Hrest : (0 < length (String.list_ascii_of_string rest))%nat).
  { destruct rest as [| c1 rest]; cbn; [| lia].
    exfalso. apply Hne. f_equal.
    unfold Path.is_slash in Hc0. by apply Ascii.eqb_eq in Hc0. }
  rewrite <- (string_length_to_list rest).
  pose proof (drop_while_length Path.is_slash (reverse (String.list_ascii_of_string rest))) as Hr.
  rewrite length_reverse in Hr.
  destruct (Path.drop_while Path.is_slash (reverse (String.list_ascii_of_string rest)))
    as [| x r] eqn:Er.
  { split; [done |]. cbn. lia. }
  apply drop_while_head in Er as Hx.
  cbn [Path.drop_while]. rewrite Hx. cbn [negb].
  pose proof (drop_while_length (λ c, negb (Path.is_slash c)) r) as Hr'.
  destruct (Path.drop_while (λ c, negb (Path.is_slash c)) r) as [| y before] eqn:Eb.
  { split; [done |]. cbn. lia. }
  cbn [length] in Hr, Hr'.
  case_bool_decide as Hb.
  - split; [done |]. cbn. lia.
  - split; [exact Hc0 |].
    rewrite string_length_of_list. cbn [length]. rewrite length_reverse. lia.
Qed.

Section ResolvePathFacts.

Variable resolve : string → string.
Variable isDirectory : string → option bool.

(** What the loop gives back is reached from where it starts by going to
    the parent [k] times, and no path on the way is a folder. *)
Lemma closest_folder_chain (fuel : nat) (path r : string) :
  closest_folder isDirectory fuel path = Some r →
  ∃ k : nat,
    r = Nat.iter k Path.dirname path
    ∧ (r = "" ∨ isDirectory r = Some true)
    ∧ ∀ j : nat, (j < k)%nat →
        isDirectory (Nat.iter j Path.dirname path) ≠ Some true.
Proof.
  revert path. induction fuel as [| fuel IH]; intros path; cbn [closest_folder].
  - destruct (truthy (VStr path) && negb (bool_decide (isDirectory path = Some true))) eqn:E;
      [done |].
    intros [= <-]. exists 0%nat. split; [done |]. split; [| intros; lia].
    apply andb_false_iff in E as [E | E].
    + left. destruct path; [done | discriminate].
    + right. apply negb_false_iff in E. by apply bool_decide_eq_true_1 in E.
  - destruct (truthy (VStr path) && negb (bool_decide (isDirectory path = Some true))) eqn:E.
    + intros H. apply IH in H as (k & -> & Hr & Hk). exists (S k).
      split; [by rewrite Nat.iter_succ_r |]. split.
      { exact Hr. }
      intros [| j] Hj.
      * cbn. apply andb_true_iff in E as [_ E]. apply negb_true_iff in E.
        by apply bool_decide_eq_false_1 in E.
      * rewrite Nat.iter_succ_r. apply Hk. lia.
    + intros [= <-]. exists 0%nat. split; [done |]. split; [| intros; lia].
      apply andb_false_iff in E as [E | E].
      * left. destruct path; [done | discriminate].
      * right. apply negb_false_iff in E. by apply bool_decide_eq_true_1 in E.
Qed.

(** From an absolute path the loop ends, on a folder, when ["/"] is one. *)
Lemma closest_folder_ends (fuel : nat) (path : string) :
  isDirectory "/" = Some true →
  is_absolute path = true →
  (String.length path ≤ fuel)%nat →
  ∃ r, closest_folder isDirectory fuel path = Some r
       ∧ isDirectory r = Some true ∧ is_absolute r = true.
Proof.
  intros Hroot. revert path. induction fuel as [| fuel IH]; intros path Habs Hlen.
  - destruct path; [done | cbn in Hlen; lia].
  - cbn [closest_folder].
    destruct (bool_decide (isDirectory path = Some true)) eqn:E.
    + rewrite andb_false_r. exists path. split; [done |].
      by apply bool_decide_eq_true_1 in E.
    + assert (Hne : path ≠ "/").
      { intros ->. apply bool_decide_eq_false_1 in E. done. }
      destruct (dirname_absolute path Habs Hne) as [Habs' Hlen'].
      assert (Ht : truthy (VStr path) = true) by (destruct path; done).
      rewrite Ht. cbn [andb negb]. apply IH; [done | lia].
Qed.

(** X26: [resolve_path] without [closestFolder] answers the resolved path
    as it is.  With [closestFolder], when the resolved path is absolute
    and ["/"] is a folder, the loop ends and the answer is a folder, an
    ancestor of the resolved path (reached by taking the parent [k]
    times), and the closest one: no path passed on the way is a folder. *)
Theorem resolve_path_closest_folder (path : string) :
  isDirectory "/" = Some true →
  is_absolute (resolve path) = true →
  resolve_path resolve isDirectory path false = Some (resolve path)
  ∧ ∃ (r : string) (k : nat),
      resolve_path resolve isDirectory path true = Some r
      ∧ isDirectory r = Some true
      ∧ is_absolute r = true
      ∧ r = Nat.iter k Path.dirname (resolve path)
      ∧ ∀ j : nat, (j < k)%nat →
          isDirectory (Nat.iter j Path.dirname (resolve path)) ≠ Some true.
Proof.
  intros Hroot Habs. split; [done |]. unfold resolve_path.
  destruct (closest_folder_ends (S (String.length (resolve path))) (resolve path))
    as (r & Hr & Hdir & Habs'); [done | done | lia |].
  destruct (closest_folder_chain _ _ _ Hr) as (k & Hk & _ & Hclosest).
  exists r, k. done.
Qed.

End ResolvePathFacts.

Lemma resolve_path_closest_folder_witness :
  let isDir := λ p : string, Some (bool_decide (p = "/") || bool_decide (p = "/srv")) in
  resolve_path id isDir "/srv/www/index.html" true = Some "/srv"
  ∧ resolve_path id isDir "/srv/www/index.html" false = Some "/srv/www/index.html"
  ∧ ∃ (r : string) (k : nat),
      resolve_path id isDir "/srv/www/index.html" true = Some r
      ∧ isDir r = Some true
      ∧ is_absolute r = true
      ∧ r = Nat.iter k Path.dirname "/srv/www/index.html"
      ∧ ∀ j : nat, (j < k)%nat →
          isDir (Nat.iter j Path.dirname "/srv/www/index.html") ≠ Some true.
Proof.
  intros isDir. split; [reflexivity |].
  exact (resolve_path_closest_folder id isDir "/srv/www/index.html" eq_refl eq_refl).
Defined.


(** ** Picking a file *)

Lemma prefix_app (a b : string) : String.prefix a (a +:+ b) = true.
Proof.
  induction a as [| c a IH]; [by destruct b |].
  rewrite string_app_cons. cbn [String.prefix].
  destruct (ascii_dec c c); [exact IH | done].
Qed.

Lemma slice_from_app (a : string) (c : ascii) (b : string) :
  FileField.slice_from (a +:+ String c b) (String.length a + 1) = b.
Proof.
  unfold FileField.slice_from.
  induction a as [| d a IH].
  - cbn. apply String.string_of_list_ascii_of_string.
  - rewrite string_app_cons. cbn [String.length String.list_ascii_of_string Nat.add drop].
    exact IH.
Qed.

(** X27: a picked path that begins with the working directory is handed on
    without it and without the one character that follows, whatever that
    character is; a picked path that does not begin with it is handed on as
    it is; only the first path of the selection counts; and with no
    selection, or an empty path, nothing is handed on. *)
Theorem onSelect_relative_to_cwd (cwd : string) (more : list string) :
  (∀ (c : ascii) (rel : string),
     FileField.onSelect (Some ((cwd +:+ String c rel) :: more)) (Some (Some cwd))
     = Returned (Some rel))
  ∧ (∀ one : string,
       one ≠ "" → FileField.startsWith one cwd = false →
       FileField.onSelect (Some (one :: more)) (Some (Some cwd)) = Returned (Some one))
  ∧ (∀ reply, FileField.onSelect None reply = Returned None
              ∧ FileField.onSelect (Some []) reply = Returned None
              ∧ FileField.onSelect (Some ("" :: more)) reply = Returned None).
Proof.
  split; [| split].
  - intros c rel. unfold FileField.onSelect. cbn [mbind option_bind head].
    assert (Ht : truthy (VStr (cwd +:+ String c rel)) = true).
    { destruct cwd; done. }
    rewrite Ht. cbn [negb]. unfold FileField.startsWith.
    by rewrite prefix_app, slice_from_app.
  - intros one Hne Hpre. unfold FileField.onSelect. cbn [mbind option_bind head].
    assert (Ht : truthy (VStr one) = true) by (destruct one; done).
    rewrite Ht. cbn [negb]. by rewrite Hpre.
  - done.
Qed.

Lemma onSelect_relative_to_cwd_witness :
  FileField.onSelect (Some ["/home/hfs/certs/key.pem"]) (Some (Some "/home/hfs"))
  = Returned (Some "certs/key.pem")
  ∧ FileField.onSelect (Some ["/home/hfs2/key.pem"]) (Some (Some "/home/hfs"))
    = Returned (Some "/key.pem")
  ∧ FileField.onSelect (Some ["/etc/key.pem"]) (Some (Some "/home/hfs"))
    = Returned (Some "/etc/key.pem").
Proof.
  destruct (onSelect_relative_to_cwd "/home/hfs" []) as (Hin & Hout & _).
  split; [exact (Hin "/"%char "certs/key.pem") |].
  split; [exact (Hin "2"%char "/key.pem") |].
  apply Hout; [discriminate | reflexivity].
Defined.

(** ** Keeping the session alive *)

Section RefresherFacts.

Variable getTime : value → option Z.
Variable now : Z.

(** X28: [sessionRefresher] sets one timer, and only when the response has a
    user name and an expiry; the user name of the response is stored in
    both cases, and no response changes nothing.  For an expiry that is a
    date, the delay handed to [setTimeout] is never more than ten minutes;
    when the expiry is thirty seconds ahead or more, the delay is not
    negative and ends thirty seconds before the expiry or earlier, at one
    of the two bounds; when the expiry is nearer than that, or past, the
    delay is negative. *)
Theorem sessionRefresher_delay (r : Session.Response) (st : Session.State) :
  let st' := Session.sessionRefresher getTime now (Some r) st in
  Session.sessionRefresher getTime now None st = st
  ∧ Session.st_username st' = Session.r_username r
  ∧ (truthy (Session.r_username r) && truthy (Session.r_exp r) = false →
     Session.st_timers st' = Session.st_timers st)
  ∧ (truthy (Session.r_username r) && truthy (Session.r_exp r) = true →
     ∃ t, Session.st_timers st' = t :: Session.st_timers st
          ∧ (getTime (Session.r_exp r) = None → t = None)
          ∧ ∀ e, getTime (Session.r_exp r) = Some e →
              ∃ d, t = Some d
                   ∧ d ≤ 600000
                   ∧ (now + 30000 ≤ e →
                      0 ≤ d ∧ now + d ≤ e - 30000
                      ∧ (d = 600000 ∨ now + d = e - 30000))
                   ∧ (e < now + 30000 → d < 0 ∧ d = e - now - 30000)).
Proof.
  cbv zeta. unfold Session.sessionRefresher.
  split; [done |].
  destruct (truthy (Session.r_username r)), (truthy (Session.r_exp r));
    cbn [negb orb andb Session.st_username Session.st_timers].
  - split; [done |]. split; [done |]. intros _. eexists. split; [done |].
    unfold Session.refresh_delay. split; [by intros -> |].
    intros e He. rewrite He. eexists. split; [done |]. lia.
  - split; [done |]. split; [done |]. done.
  - split; [done |]. split; [done |]. done.
  - split; [done |]. split; [done |]. done.
Qed.

End RefresherFacts.

Lemma sessionRefresher_delay_witness :
  let getTime := λ v, match v with VNum n => Some n | _ => None end in
  let st := Session.mkState VUndefined [] in
  Session.st_timers
    (Session.sessionRefresher getTime 1000 (Some (Session.mkResponse (VNum 100000) (VStr "admin"))) st)
  = [Some 69000]
  ∧ Session.st_timers
      (Session.sessionRefresher getTime 1000 (Some (Session.mkResponse (VNum 100000) (VStr ""))) st)
    = [].
Proof.
  intros getTime st. split; [reflexivity |].
  destruct (sessionRefresher_delay getTime 1000
              (Session.mkResponse (VNum 100000) (VStr "")) st) as (_ & _ & H & _).
  exact (H eq_refl).
Defined.
